(** * Memory-engine diagnostics: the allocator family and the sample reducer

  A shallow embedding of the C++ sources under [src/core]:
  [allocators/base_allocator.hpp], [allocators/pool_allocator.hpp],
  [allocators/stack_allocator.hpp], [allocators/freelist_allocator.hpp],
  [allocators/standard_allocator.hpp], [utils/statistics.hpp],
  [utils/memory_utils.hpp], [utils/timer.hpp] and [engine.hpp].

  Conventions (an LP64 target, as the native build uses):
  - [size_t] and pointers are 64-bit: a value is a [Z] in [0, 2^64) and
    every arithmetic operation of the source is followed by [wrap];
  - [nullptr] is the address [0];
  - memory is byte addressed; a [size_t] or pointer field is read and
    written as eight little-endian bytes ([load64] / [store64]), so that
    fields which overlap in the source overlap here too;
  - [double] is IEEE-754 binary64, the primitive [float] of the
    Standard Library;
  - the reading of a [Timer] is an input of the operation that takes it;
  - a loop over a linked list threaded through memory takes a fuel
    argument and yields [None] when the fuel runs out. *)

From Stdlib Require Import ZArith List Lia Bool Floats Permutation.
From Stdlib Require Import FunctionalExtensionality.
From stdpp Require Import gmap.
Import ListNotations.

#[local] Open Scope Z_scope.

(** * Part I: the embedding *)

(** ** Machine words *)

Module Word.

Definition modulus : Z := 2 ^ 64.

Definition SIZE_MAX : Z := modulus - 1.

(** Reduction of an integer to a [size_t]. *)
Definition wrap (z : Z) : Z := z mod modulus.

(** The operator [~] on a [size_t]. *)
Definition lnot64 (x : Z) : Z := wrap (Z.lnot x).

(** [BaseAllocator::align_size]:
    [(size + alignment - 1) & ~(alignment - 1)]. *)
Definition align_size (size alignment : Z) : Z :=
  Z.land (wrap (size + alignment - 1)) (lnot64 (wrap (alignment - 1))).

(** [BaseAllocator::is_power_of_two]:
    [alignment > 0 && (alignment & (alignment - 1)) == 0]. *)
Definition is_power_of_two (alignment : Z) : bool :=
  (0 <? alignment) && (Z.land alignment (wrap (alignment - 1)) =? 0).

Definition in_range (z : Z) : Prop := 0 <= z < modulus.

#[global] Arguments wrap : simpl never.
#[global] Arguments lnot64 : simpl never.
#[global] Arguments align_size : simpl never.
#[global] Arguments is_power_of_two : simpl never.

End Word.

(** ** Byte-addressed memory *)

Module Mem.

(** The content of memory: the byte stored at each address. *)
Definition mem : Type := Z -> Z.

Definition byte_of (v i : Z) : Z := (v / 2 ^ (8 * i)) mod 256.

Fixpoint load_bytes (n : nat) (m : mem) (a : Z) : Z :=
  match n with
  | O => 0
  | S k => m a mod 256 + 256 * load_bytes k m (a + 1)
  end.

(** Reading a [size_t] or a pointer stored at address [a]. *)
Definition load64 (m : mem) (a : Z) : Z := load_bytes 8 m a.

(** Writing the [size_t] or pointer [v] at address [a]. *)
Definition store64 (m : mem) (a v : Z) : mem :=
  fun x => if (a <=? x) && (x <? a + 8) then byte_of v (x - a) else m x.

(** A sequence of writes, first one first. *)
Fixpoint store_all (m : mem) (ws : list (Z * Z)) : mem :=
  match ws with
  | [] => m
  | (a, v) :: r => store_all (store64 m a v) r
  end.

#[global] Arguments load64 : simpl never.
#[global] Arguments store64 : simpl never.

End Mem.

(** ** Shared bookkeeping ([base_allocator.hpp]) *)

Module Base.

(** [struct AllocationStats]. *)
Record AllocationStats : Type := mkStats {
  total_allocations : Z;
  total_deallocations : Z;
  current_allocations : Z;
  total_bytes_allocated : Z;
  current_bytes_used : Z;
  peak_bytes_used : Z;
  fragmentation_bytes : Z;
  avg_allocation_time_ns : float;
  avg_dealloc_time_ns : float
}.

(** [AllocationStats{}]: every member at its default initialiser. *)
Definition stats_zero : AllocationStats :=
  mkStats 0 0 0 0 0 0 0 0%float 0%float.

(** [struct AllocationInfo]. *)
Record AllocationInfo : Type := mkInfo {
  address : Z;
  size : Z;
  alignment : Z;
  timestamp : Z;
  is_active : bool
}.

(** The members of [BaseAllocator] that change ([m_name] is constant and
    is left out). *)
Record BaseAllocator : Type := mkBase {
  m_total_size : Z;
  m_stats : AllocationStats;
  m_allocation_history : list AllocationInfo
}.

(** Conversion of a [size_t] to [double] (round to nearest even). *)
Definition size_to_double (n : Z) : float :=
  SF2Prim (binary_normalize 53 1024 n 0 false).

(** [BaseAllocator::record_allocation]. *)
Definition record_allocation (b : BaseAllocator)
    (ptr sz algn : Z) (time_ns : float) : BaseAllocator :=
  let s := m_stats b in
  let total := Word.wrap (total_allocations s + 1) in
  let current := Word.wrap (current_allocations s + 1) in
  let bytes := Word.wrap (total_bytes_allocated s + sz) in
  let used := Word.wrap (current_bytes_used s + sz) in
  let peak := if peak_bytes_used s <? used then used else peak_bytes_used s in
  let total_time :=
    PrimFloat.mul (avg_allocation_time_ns s) (size_to_double (Word.wrap (total - 1))) in
  let avg := PrimFloat.div (PrimFloat.add total_time time_ns) (size_to_double total) in
  let info := mkInfo ptr sz algn 0 true in
  mkBase (m_total_size b)
    (mkStats total (total_deallocations s) current bytes used peak
       (fragmentation_bytes s) avg (avg_dealloc_time_ns s))
    (m_allocation_history b ++ [info]).

(** [BaseAllocator::record_deallocation]. *)
Definition record_deallocation (b : BaseAllocator)
    (sz : Z) (time_ns : float) : BaseAllocator :=
  let s := m_stats b in
  let total := Word.wrap (total_deallocations s + 1) in
  let current := Word.wrap (current_allocations s - 1) in
  let used := Word.wrap (current_bytes_used s - sz) in
  let total_time :=
    PrimFloat.mul (avg_dealloc_time_ns s) (size_to_double (Word.wrap (total - 1))) in
  let avg := PrimFloat.div (PrimFloat.add total_time time_ns) (size_to_double total) in
  mkBase (m_total_size b)
    (mkStats (total_allocations s) total current (total_bytes_allocated s) used
       (peak_bytes_used s) (fragmentation_bytes s) (avg_allocation_time_ns s) avg)
    (m_allocation_history b).

(** The assignments [m_stats = AllocationStats{}] and
    [m_allocation_history.clear()] that every [reset] ends with. *)
Definition clear (b : BaseAllocator) : BaseAllocator :=
  mkBase (m_total_size b) stats_zero [].

(** The two relations of the statistics record that the operations are
    meant to maintain. *)
Definition conserved (s : AllocationStats) : Prop :=
  current_allocations s = Word.wrap (total_allocations s - total_deallocations s)
  /\ current_bytes_used s <= peak_bytes_used s.

End Base.

(** ** The stack allocator ([stack_allocator.hpp]) *)

Module Stack.

(** [sizeof(AllocationHeader)]: [size], [adjustment], [previous_offset]. *)
Definition header_size : Z := 24.

Record StackAllocator : Type := mkStack {
  base : Base.BaseAllocator;
  m_alignment : Z;
  m_memory : Z;
  m_current_offset : Z;
  m_previous_offset : Z;
  heap : Mem.mem
}.

Definition m_total_size (st : StackAllocator) : Z := Base.m_total_size (base st).

(** The constructor; [buffer] is what the aligned system allocation
    returned ([0] when it failed) and [heap0] the memory at that time. *)
Definition construct (size alignment buffer : Z) (heap0 : Mem.mem) : StackAllocator :=
  mkStack (Base.mkBase size Base.stats_zero []) alignment buffer 0 0 heap0.

(** [StackAllocator::allocate]; the result is the pointer ([0] for
    [nullptr]) and the allocator afterwards. *)
Definition allocate (st : StackAllocator) (size alignment : Z) (time_ns : float)
    : Z * StackAllocator :=
  if (m_memory st =? 0) || (size =? 0) then (0, st) else
  let current_addr := Word.wrap (m_memory st + m_current_offset st) in
  let aligned_addr := Word.align_size current_addr alignment in
  let adjustment := Word.wrap (aligned_addr - current_addr) in
  let total_size := Word.wrap (Word.wrap (adjustment + header_size) + size) in
  if m_total_size st <? Word.wrap (m_current_offset st + total_size) then (0, st) else
  let header_offset := Word.wrap (m_current_offset st + adjustment) in
  let header := Word.wrap (m_memory st + header_offset) in
  let h1 := Mem.store64 (heap st) header size in
  let h2 := Mem.store64 h1 (header + 8) adjustment in
  let h3 := Mem.store64 h2 (header + 16) (m_previous_offset st) in
  let ptr := Word.wrap (header + header_size) in
  (ptr,
   mkStack (Base.record_allocation (base st) ptr size alignment time_ns)
     (m_alignment st) (m_memory st)
     (Word.wrap (Word.wrap (header_offset + header_size) + size))
     (m_current_offset st) h3).

(** The value the source calls [expected_offset]. *)
Definition expected_offset (st : StackAllocator) (ptr : Z) : Z :=
  Word.wrap (Word.wrap (ptr - m_memory st)
             + Mem.load64 (heap st) (Word.wrap (ptr - header_size))).

(** [StackAllocator::deallocate]. *)
Definition deallocate (st : StackAllocator) (ptr : Z) (time_ns : float)
    : StackAllocator :=
  if (ptr =? 0) || (m_memory st =? 0) then st else
  let header := Word.wrap (ptr - header_size) in
  if negb (expected_offset st ptr =? m_current_offset st) then st else
  let size := Mem.load64 (heap st) header in
  let current := m_previous_offset st in
  let previous := if 0 <? current then Mem.load64 (heap st) (header + 16) else 0 in
  mkStack (Base.record_deallocation (base st) size time_ns)
    (m_alignment st) (m_memory st) current previous (heap st).

(** [StackAllocator::get_marker]. *)
Definition get_marker (st : StackAllocator) : Z := m_current_offset st.

(** [StackAllocator::rollback_to_marker]. *)
Definition rollback_to_marker (st : StackAllocator) (marker : Z) : StackAllocator :=
  if m_current_offset st <? marker then st else
  let freed := Word.wrap (m_current_offset st - marker) in
  let b := base st in
  let s := Base.m_stats b in
  let s' :=
    if 0 <? freed then
      Base.mkStats (Base.total_allocations s) (Base.total_deallocations s)
        (Base.current_allocations s) (Base.total_bytes_allocated s) marker
        (Base.peak_bytes_used s) (Base.fragmentation_bytes s)
        (Base.avg_allocation_time_ns s) (Base.avg_dealloc_time_ns s)
    else s in
  mkStack (Base.mkBase (Base.m_total_size b) s' (Base.m_allocation_history b))
    (m_alignment st) (m_memory st) marker 0 (heap st).

(** [StackAllocator::reset]. *)
Definition reset (st : StackAllocator) : StackAllocator :=
  mkStack (Base.clear (base st)) (m_alignment st) (m_memory st) 0 0 (heap st).

(** [StackAllocator::owns]. *)
Definition owns (st : StackAllocator) (ptr : Z) : bool :=
  if (m_memory st =? 0) || (ptr =? 0) then false
  else (m_memory st <=? ptr) && (ptr <? Word.wrap (m_memory st + m_total_size st)).

(** [StackAllocator::available]. *)
Definition available (st : StackAllocator) : Z :=
  Word.wrap (m_total_size st - m_current_offset st).

(** [StackAllocator::used]. *)
Definition used (st : StackAllocator) : Z := m_current_offset st.

(** A request whose address and size computations stay below [2^64]. *)
Definition no_wrap (st : StackAllocator) (size alignment : Z) : Prop :=
  0 < alignment /\ 0 <= size /\ 0 <= m_memory st /\ 0 <= m_total_size st /\
  m_memory st + m_total_size st + alignment + header_size + size <= Word.modulus.

(** What a successful [allocate] did, [adj] being the padding in front of
    the header. *)
Record allocated (st : StackAllocator) (size adj p : Z) (st' : StackAllocator)
    : Prop := {
  al_adj_range : 0 <= adj;
  al_size : 1 <= size;
  al_ptr : p = m_memory st + m_current_offset st + adj + header_size;
  al_cur : m_current_offset st' = m_current_offset st + adj + header_size + size;
  al_fit : m_current_offset st' <= m_total_size st;
  al_prev : m_previous_offset st' = m_current_offset st;
  al_mem : m_memory st' = m_memory st;
  al_total : m_total_size st' = m_total_size st;
  al_heap : heap st' =
    Mem.store64
      (Mem.store64
         (Mem.store64 (heap st) (p - header_size) size)
         (p - header_size + 8) adj)
      (p - header_size + 16) (m_previous_offset st)
}.

End Stack.

(** ** The pool allocator ([pool_allocator.hpp]) *)

Module Pool.

Record PoolAllocator : Type := mkPool {
  base : Base.BaseAllocator;
  m_block_size : Z;
  m_block_count : Z;
  m_alignment : Z;
  m_memory : Z;
  m_free_list : Z;
  m_allocated_blocks : Z;
  heap : Mem.mem
}.

Definition m_total_size (st : PoolAllocator) : Z := Base.m_total_size (base st).

(** The address of block [i]: [m_memory + i * m_block_size]. *)
Definition block_addr (memory block_size i : Z) : Z :=
  Word.wrap (memory + Word.wrap (i * block_size)).

(** The loop of [initialize_free_list], with [n] iterations left: the
    iteration for [i = S k] links block [k] in front of the list. *)
Fixpoint link_blocks (n : nat) (memory block_size free_list : Z) (h : Mem.mem)
    : Z * Mem.mem :=
  match n with
  | O => (free_list, h)
  | S k =>
      let block := block_addr memory block_size (Z.of_nat k) in
      link_blocks k memory block_size block (Mem.store64 h block free_list)
  end.

(** The writes of that loop, first one first, and the head it ends with. *)
Fixpoint link_writes (n : nat) (memory block_size free_list : Z) : list (Z * Z) :=
  match n with
  | O => []
  | S k =>
      let block := block_addr memory block_size (Z.of_nat k) in
      (block, free_list) :: link_writes k memory block_size block
  end.

Fixpoint link_head (n : nat) (memory block_size free_list : Z) : Z :=
  match n with
  | O => free_list
  | S k => link_head k memory block_size (block_addr memory block_size (Z.of_nat k))
  end.

(** [PoolAllocator::initialize_free_list]. *)
Definition initialize_free_list (st : PoolAllocator) : PoolAllocator :=
  let '(fl, h) :=
    link_blocks (Z.to_nat (m_block_count st)) (m_memory st) (m_block_size st)
      0 (heap st) in
  mkPool (base st) (m_block_size st) (m_block_count st) (m_alignment st)
    (m_memory st) fl (m_allocated_blocks st) h.

(** The constructor; [buffer] is what the aligned system allocation of
    [m_total_size] bytes returned ([0] when it failed). *)
Definition construct (block_size block_count alignment buffer : Z)
    (heap0 : Mem.mem) : PoolAllocator :=
  let bs := Word.align_size block_size alignment in
  let st :=
    mkPool (Base.mkBase (Word.wrap (bs * block_count)) Base.stats_zero [])
      bs block_count alignment buffer 0 0 heap0 in
  if buffer =? 0 then st else initialize_free_list st.

(** [PoolAllocator::owns]. *)
Definition owns (st : PoolAllocator) (ptr : Z) : bool :=
  if (m_memory st =? 0) || (ptr =? 0) then false
  else (m_memory st <=? ptr) && (ptr <? Word.wrap (m_memory st + m_total_size st)).

(** [PoolAllocator::allocate]; the argument [alignment] is not used. *)
Definition allocate (st : PoolAllocator) (size alignment : Z) (time_ns : float)
    : Z * PoolAllocator :=
  if (m_memory st =? 0) || (m_free_list st =? 0) || (m_block_size st <? size)
  then (0, st) else
  let block := m_free_list st in
  let next := Mem.load64 (heap st) block in
  (block,
   mkPool
     (Base.record_allocation (base st) block (m_block_size st) (m_alignment st) time_ns)
     (m_block_size st) (m_block_count st) (m_alignment st) (m_memory st)
     next (Word.wrap (m_allocated_blocks st + 1)) (heap st)).

(** [PoolAllocator::deallocate]. *)
Definition deallocate (st : PoolAllocator) (ptr : Z) (time_ns : float)
    : PoolAllocator :=
  if (ptr =? 0) || negb (owns st ptr) then st else
  mkPool (Base.record_deallocation (base st) (m_block_size st) time_ns)
    (m_block_size st) (m_block_count st) (m_alignment st) (m_memory st)
    ptr (Word.wrap (m_allocated_blocks st - 1))
    (Mem.store64 (heap st) ptr (m_free_list st)).

(** [PoolAllocator::reset]. *)
Definition reset (st : PoolAllocator) : PoolAllocator :=
  let st1 := if m_memory st =? 0 then st else initialize_free_list st in
  mkPool (Base.clear (base st1)) (m_block_size st1) (m_block_count st1)
    (m_alignment st1) (m_memory st1) (m_free_list st1) 0 (heap st1).

(** [PoolAllocator::free_blocks]. *)
Definition free_blocks (st : PoolAllocator) : Z :=
  Word.wrap (m_block_count st - m_allocated_blocks st).

(** [PoolAllocator::available]. *)
Definition available (st : PoolAllocator) : Z :=
  Word.wrap (free_blocks st * m_block_size st).

(** [p] is the first byte of one of the [count] blocks of [bs] bytes
    that start at [memory]. *)
Definition blockp (memory bs count p : Z) : Prop :=
  exists i, 0 <= i < count /\ p = memory + i * bs.

Definition is_block (st : PoolAllocator) (p : Z) : Prop :=
  blockp (m_memory st) (m_block_size st) (m_block_count st) p.

(** The pools the constructor builds when the alignment is a power of
    two, a block can hold a pointer, the system allocation succeeds with
    the alignment asked for, and the region lies inside the address
    space. *)
Record constructible (block_size block_count alignment buffer : Z) : Prop := {
  cons_pow2 : Word.is_power_of_two alignment = true;
  cons_block : 8 <= Word.align_size block_size alignment;
  cons_count : 0 <= block_count;
  cons_buffer : 0 < buffer;
  cons_aligned : buffer mod alignment = 0;
  cons_region :
    buffer + Word.align_size block_size alignment * block_count < Word.modulus
}.

(** The states a pool goes through when its callers hand back only
    addresses of blocks. *)
Inductive reachable : PoolAllocator -> Prop :=
| reach_construct block_size block_count alignment buffer heap0 :
    constructible block_size block_count alignment buffer ->
    reachable (construct block_size block_count alignment buffer heap0)
| reach_allocate st size alignment time_ns :
    reachable st -> reachable (snd (allocate st size alignment time_ns))
| reach_deallocate st ptr time_ns :
    reachable st -> is_block st ptr -> reachable (deallocate st ptr time_ns)
| reach_reset st :
    reachable st -> reachable (reset st).

(** The invariant behind [reachable]. *)
Record invariant (st : PoolAllocator) : Prop := {
  inv_pow2 : Word.is_power_of_two (m_alignment st) = true;
  inv_block : 8 <= m_block_size st;
  inv_block_aligned : m_block_size st mod m_alignment st = 0;
  inv_count : 0 <= m_block_count st;
  inv_buffer : 0 < m_memory st;
  inv_aligned : m_memory st mod m_alignment st = 0;
  inv_region : m_memory st + m_block_size st * m_block_count st < Word.modulus;
  inv_head : m_free_list st = 0 \/ is_block st (m_free_list st);
  inv_links : forall b, is_block st b ->
    Mem.load64 (heap st) b = 0 \/ is_block st (Mem.load64 (heap st) b)
}.

End Pool.

(** ** The free-list allocator ([freelist_allocator.hpp]) *)

Module FreeList.

(** [enum class FitPolicy]. *)
Inductive FitPolicy : Type := FIRST_FIT | BEST_FIT | WORST_FIT.

Definition MIN_BLOCK_SIZE : Z := 16.

(** [sizeof(FreeBlock)]: [size] at offset 0, [next] at offset 8. *)
Definition free_block_size : Z := 16.

(** [sizeof(AllocationHeader)]: [size] at offset 0, [adjustment] at
    offset 8. *)
Definition header_size : Z := 16.

Record FreeListAllocator : Type := mkFreeList {
  base : Base.BaseAllocator;
  m_policy : FitPolicy;
  m_memory : Z;
  m_free_list : Z;
  heap : Mem.mem
}.

Definition m_total_size (st : FreeListAllocator) : Z := Base.m_total_size (base st).

(** The constructor; [buffer] is what the aligned system allocation
    returned ([0] when it failed). *)
Definition construct (size : Z) (policy : FitPolicy) (buffer : Z)
    (heap0 : Mem.mem) : FreeListAllocator :=
  let b := Base.mkBase size Base.stats_zero [] in
  if buffer =? 0 then mkFreeList b policy buffer 0 heap0
  else mkFreeList b policy buffer buffer
         (Mem.store64 (Mem.store64 heap0 buffer size) (buffer + 8) 0).

(** The loop of [find_first_fit]; the result is [(out_block, out_prev)]. *)
Fixpoint first_fit_loop (fuel : nat) (h : Mem.mem) (size current prev : Z)
    : option (Z * Z) :=
  match fuel with
  | O => None
  | S f =>
      if current =? 0 then Some (0, 0)
      else if size <=? Mem.load64 h current then Some (current, prev)
      else first_fit_loop f h size (Mem.load64 h (current + 8)) current
  end.

(** The loop of [find_best_fit]. *)
Fixpoint best_fit_loop (fuel : nat) (h : Mem.mem)
    (size current prev best best_prev best_size : Z) : option (Z * Z) :=
  match fuel with
  | O => None
  | S f =>
      if current =? 0 then Some (best, best_prev)
      else
        let csize := Mem.load64 h current in
        let next := Mem.load64 h (current + 8) in
        if (size <=? csize) && (csize <? best_size)
        then best_fit_loop f h size next current current prev csize
        else best_fit_loop f h size next current best best_prev best_size
  end.

(** The loop of [find_worst_fit]. *)
Fixpoint worst_fit_loop (fuel : nat) (h : Mem.mem)
    (size current prev worst worst_prev worst_size : Z) : option (Z * Z) :=
  match fuel with
  | O => None
  | S f =>
      if current =? 0 then Some (worst, worst_prev)
      else
        let csize := Mem.load64 h current in
        let next := Mem.load64 h (current + 8) in
        if (size <=? csize) && (worst_size <? csize)
        then worst_fit_loop f h size next current current prev csize
        else worst_fit_loop f h size next current worst worst_prev worst_size
  end.

(** The [switch] of [allocate] over the three searches. *)
Definition find_fit (fuel : nat) (st : FreeListAllocator) (size : Z)
    : option (Z * Z) :=
  match m_policy st with
  | FIRST_FIT => first_fit_loop fuel (heap st) size (m_free_list st) 0
  | BEST_FIT =>
      best_fit_loop fuel (heap st) size (m_free_list st) 0 0 0 Word.SIZE_MAX
  | WORST_FIT => worst_fit_loop fuel (heap st) size (m_free_list st) 0 0 0 0
  end.

(** The loop of [available], from node [current] with [total] so far. *)
Fixpoint available_loop (fuel : nat) (h : Mem.mem) (current total : Z) : option Z :=
  match fuel with
  | O => None
  | S f =>
      if current =? 0 then Some total
      else available_loop f h (Mem.load64 h (current + 8))
             (Word.wrap (total + Mem.load64 h current))
  end.

(** The loop of [free_block_count]. *)
Fixpoint count_loop (fuel : nat) (h : Mem.mem) (current count : Z) : option Z :=
  match fuel with
  | O => None
  | S f =>
      if current =? 0 then Some count
      else count_loop f h (Mem.load64 h (current + 8)) (Word.wrap (count + 1))
  end.

(** The loop of [largest_free_block]. *)
Fixpoint largest_loop (fuel : nat) (h : Mem.mem) (current largest : Z) : option Z :=
  match fuel with
  | O => None
  | S f =>
      if current =? 0 then Some largest
      else
        let csize := Mem.load64 h current in
        largest_loop f h (Mem.load64 h (current + 8))
          (if largest <? csize then csize else largest)
  end.

(** [FreeListAllocator::available]. *)
Definition available (fuel : nat) (st : FreeListAllocator) : option Z :=
  available_loop fuel (heap st) (m_free_list st) 0.

(** [FreeListAllocator::free_block_count]. *)
Definition free_block_count (fuel : nat) (st : FreeListAllocator) : option Z :=
  count_loop fuel (heap st) (m_free_list st) 0.

(** [FreeListAllocator::largest_free_block]. *)
Definition largest_free_block (fuel : nat) (st : FreeListAllocator) : option Z :=
  largest_loop fuel (heap st) (m_free_list st) 0.

Definition set_fragmentation (b : Base.BaseAllocator) (v : Z) : Base.BaseAllocator :=
  let s := Base.m_stats b in
  Base.mkBase (Base.m_total_size b)
    (Base.mkStats (Base.total_allocations s) (Base.total_deallocations s)
       (Base.current_allocations s) (Base.total_bytes_allocated s)
       (Base.current_bytes_used s) (Base.peak_bytes_used s) v
       (Base.avg_allocation_time_ns s) (Base.avg_dealloc_time_ns s))
    (Base.m_allocation_history b).

(** [FreeListAllocator::update_fragmentation]. *)
Definition update_fragmentation (fuel : nat) (st : FreeListAllocator)
    : option FreeListAllocator :=
  match available fuel st, largest_free_block fuel st with
  | Some free_memory, Some largest =>
      let v :=
        if (0 <? free_memory) && (largest <? free_memory)
        then Word.wrap (free_memory - largest) else 0 in
      Some (mkFreeList (set_fragmentation (base st) v) (m_policy st)
              (m_memory st) (m_free_list st) (heap st))
  | _, _ => None
  end.

(** [FreeListAllocator::owns]. *)
Definition owns (st : FreeListAllocator) (ptr : Z) : bool :=
  if (m_memory st =? 0) || (ptr =? 0) then false
  else (m_memory st <=? ptr) && (ptr <? Word.wrap (m_memory st + m_total_size st)).

(** The part of [allocate] that takes [total_size] bytes out of the
    chosen [block]: the block is split when what remains can hold a free
    node, and is used whole otherwise.  The result is the size that goes
    into the header, the head of the list and the memory. *)
Definition carve (h : Mem.mem) (head block prev_block total_size : Z)
    : Z * Z * Mem.mem :=
  let remaining := Word.wrap (Mem.load64 h block - total_size) in
  if free_block_size + MIN_BLOCK_SIZE <=? remaining then
    let new_block := Word.wrap (block + total_size) in
    let h1 := Mem.store64 h new_block remaining in
    let h2 := Mem.store64 h1 (new_block + 8) (Mem.load64 h1 (block + 8)) in
    if prev_block =? 0 then (total_size, new_block, h2)
    else (total_size, head, Mem.store64 h2 (prev_block + 8) new_block)
  else
    let whole := Mem.load64 h block in
    if prev_block =? 0 then (whole, Mem.load64 h (block + 8), h)
    else (whole, head,
          Mem.store64 h (prev_block + 8) (Mem.load64 h (block + 8))).

(** [FreeListAllocator::allocate]. *)
Definition allocate (st : FreeListAllocator) (size alignment : Z)
    (time_ns : float) (fuel : nat) : option (Z * FreeListAllocator) :=
  if (m_memory st =? 0) || (size =? 0) then Some (0, st) else
  let total_size := Word.align_size (Word.wrap (size + header_size)) alignment in
  match find_fit fuel st total_size with
  | None => None
  | Some (block, prev_block) =>
      if block =? 0 then Some (0, st) else
      let '(total_size', head, h') :=
        carve (heap st) (m_free_list st) block prev_block total_size in
      let h3 := Mem.store64 (Mem.store64 h' block total_size') (block + 8) 0 in
      let ptr := Word.wrap (block + header_size) in
      match
        update_fragmentation fuel
          (mkFreeList
             (Base.record_allocation (base st) ptr size alignment time_ns)
             (m_policy st) (m_memory st) head h3)
      with
      | None => None
      | Some st' => Some (ptr, st')
      end
  end.

(** The loop of [insert_free_block]: the node after which [block] goes. *)
Fixpoint insert_loop (fuel : nat) (h : Mem.mem) (block current : Z) : option Z :=
  match fuel with
  | O => None
  | S f =>
      let next := Mem.load64 h (current + 8) in
      if negb (next =? 0) && (next <? block)
      then insert_loop f h block next
      else Some current
  end.

(** [FreeListAllocator::insert_free_block]; the result is the head of
    the list and the memory. *)
Definition insert_free_block (fuel : nat) (head : Z) (h : Mem.mem) (block : Z)
    : option (Z * Mem.mem) :=
  if (head =? 0) || (block <? head)
  then Some (block, Mem.store64 h (block + 8) head)
  else
    match insert_loop fuel h block head with
    | None => None
    | Some current =>
        let h1 := Mem.store64 h (block + 8) (Mem.load64 h (current + 8)) in
        Some (head, Mem.store64 h1 (current + 8) block)
    end.

(** The loop of [coalesce]. *)
Fixpoint coalesce_loop (fuel : nat) (h : Mem.mem) (current : Z) : option Mem.mem :=
  match fuel with
  | O => None
  | S f =>
      if current =? 0 then Some h else
      let next := Mem.load64 h (current + 8) in
      if next =? 0 then Some h else
      if Word.wrap (current + Mem.load64 h current) =? next then
        let h1 :=
          Mem.store64 h current
            (Word.wrap (Mem.load64 h current + Mem.load64 h next)) in
        let h2 :=
          Mem.store64 h1 (current + 8)
            (Mem.load64 h1 (Mem.load64 h1 (current + 8) + 8)) in
        coalesce_loop f h2 current
      else coalesce_loop f h next
  end.

(** [FreeListAllocator::deallocate]. *)
Definition deallocate (st : FreeListAllocator) (ptr : Z) (time_ns : float)
    (fuel : nat) : option FreeListAllocator :=
  if (ptr =? 0) || negb (owns st ptr) then Some st else
  let header := Word.wrap (ptr - header_size) in
  let size := Mem.load64 (heap st) header in
  let h1 := Mem.store64 (heap st) header size in
  match insert_free_block fuel (m_free_list st) h1 header with
  | None => None
  | Some (head, h2) =>
      match coalesce_loop fuel h2 head with
      | None => None
      | Some h3 =>
          update_fragmentation fuel
            (mkFreeList
               (Base.record_deallocation (base st)
                  (Word.wrap (size - header_size)) time_ns)
               (m_policy st) (m_memory st) head h3)
      end
  end.

(** [FreeListAllocator::reset]. *)
Definition reset (st : FreeListAllocator) : FreeListAllocator :=
  if m_memory st =? 0
  then mkFreeList (Base.clear (base st)) (m_policy st) (m_memory st)
         (m_free_list st) (heap st)
  else mkFreeList (Base.clear (base st)) (m_policy st) (m_memory st) (m_memory st)
         (Mem.store64 (Mem.store64 (heap st) (m_memory st) (m_total_size st))
            (m_memory st + 8) 0).

(** [FreeListAllocator::set_policy]. *)
Definition set_policy (st : FreeListAllocator) (policy : FitPolicy)
    : FreeListAllocator :=
  mkFreeList (base st) policy (m_memory st) (m_free_list st) (heap st).

(** A run of [deallocate] over a list of addresses, each with the
    reading of the timer for that call. *)
Fixpoint deallocate_all (st : FreeListAllocator) (calls : list (Z * float))
    (fuel : nat) : option FreeListAllocator :=
  match calls with
  | [] => Some st
  | (ptr, time_ns) :: rest =>
      match deallocate st ptr time_ns fuel with
      | None => None
      | Some st' => deallocate_all st' rest fuel
      end
  end.

(** *** The layout of the region

    The list threaded through memory from pointer [p] up to pointer [q]
    holds the nodes [l], each an address with the size stored there. *)
Fixpoint lseg (h : Mem.mem) (p : Z) (l : list (Z * Z)) (q : Z) : Prop :=
  match l with
  | [] => p = q
  | (a, s) :: r =>
      p = a /\ a <> 0 /\ Mem.load64 h a = s /\ lseg h (Mem.load64 h (a + 8)) r q
  end.

(** The free list: a segment that ends with [nullptr]. *)
Definition flist (h : Mem.mem) (p : Z) (l : list (Z * Z)) : Prop := lseg h p l 0.

(** Nodes in increasing address order between [lo] and [hi], each large
    enough for its two fields, none overlapping the next. *)
Fixpoint chain (lo : Z) (l : list (Z * Z)) (hi : Z) : Prop :=
  match l with
  | [] => lo <= hi
  | (a, s) :: r => lo <= a /\ 16 <= s /\ chain (a + s) r hi
  end.

(** The region as a sequence of segments, each with its size and
    whether it is free. *)
Definition segment : Type := (Z * bool)%type.

Fixpoint total (segs : list segment) : Z :=
  match segs with
  | [] => 0
  | (s, _) :: r => s + total r
  end.

(** The segments with the given tag, as nodes, when the first segment
    starts at [a]. *)
Fixpoint nodes (tag : bool) (a : Z) (segs : list segment) : list (Z * Z) :=
  match segs with
  | [] => []
  | (s, f) :: r =>
      if Bool.eqb f tag then (a, s) :: nodes tag (a + s) r
      else nodes tag (a + s) r
  end.

(** What [coalesce] does to a list of nodes: [cur] is the node under
    the cursor, with the size it has grown to. *)
Fixpoint coalesce_from (cur : Z * Z) (l : list (Z * Z)) : list (Z * Z) :=
  match l with
  | [] => [cur]
  | (a, s) :: r =>
      if fst cur + snd cur =? a then coalesce_from (fst cur, snd cur + s) r
      else cur :: coalesce_from (a, s) r
  end.

Definition coalesce_nodes (l : list (Z * Z)) : list (Z * Z) :=
  match l with
  | [] => []
  | n :: r => coalesce_from n r
  end.

(** The same on segments: [acc] is the size of the run of free segments
    that ends where [segs] starts. *)
Definition flush (acc : option Z) : list segment :=
  match acc with
  | Some run => [(run, true)]
  | None => []
  end.

Fixpoint merge_free (acc : option Z) (segs : list segment) : list segment :=
  match segs with
  | [] => flush acc
  | (s, true) :: r =>
      merge_free (Some (match acc with Some run => run + s | None => s end)) r
  | (s, false) :: r => flush acc ++ (s, false) :: merge_free None r
  end.

(** The bytes that are not in the two fields of any node of [l]. *)
Definition off_nodes (l : list (Z * Z)) (x : Z) : Prop :=
  Forall (fun n => x < fst n \/ fst n + 16 <= x) l.

Definition run_of (acc : option Z) : Z :=
  match acc with
  | Some run => run
  | None => 0
  end.

(** What a search of the list [l] can answer to a request of [req]
    bytes: nothing, or a node that is large enough together with the
    address of the node in front of it ([0] for the first node). *)
Definition position (l : list (Z * Z)) (req block prev : Z) : Prop :=
  (block = 0 /\ prev = 0) \/
  exists l1 s l2,
    l = l1 ++ (block, s) :: l2 /\ req <= s /\ prev = List.last (map fst l1) 0.

(** The addresses on loan when the layout is [segs]. *)
Definition live_of (memory : Z) (segs : list segment) : list Z :=
  map (fun n => fst n + header_size) (nodes false memory segs).

(** How the state of the allocator represents the layout [segs]. *)
Record represents (st : FreeListAllocator) (segs : list segment) : Prop := {
  rep_memory : 0 < m_memory st;
  rep_region : m_memory st + m_total_size st < Word.modulus;
  rep_total : total segs = m_total_size st;
  rep_sizes : Forall (fun sg : segment => 16 <= fst sg) segs;
  rep_nonempty : segs <> [];
  rep_free : flist (heap st) (m_free_list st) (nodes true (m_memory st) segs);
  rep_used :
    Forall (fun n => Mem.load64 (heap st) (fst n) = snd n)
      (nodes false (m_memory st) segs);
  rep_loans :
    Forall (fun n => header_size < snd n) (nodes false (m_memory st) segs);
  rep_merged :
    nodes false (m_memory st) segs = [] -> segs = [(m_total_size st, true)]
}.

(** A request whose size computation stays below [2^64]. *)
Definition request_ok (size alignment : Z) : Prop :=
  0 < alignment /\ 0 <= size /\ size + header_size + alignment <= Word.modulus.

(** Fuel that lets every loop over the free list run to its end. *)
Definition enough_fuel (st : FreeListAllocator) (fuel : nat) : Prop :=
  (Z.to_nat (m_total_size st) < fuel)%nat.

(** The states the allocator goes through, with the addresses on loan:
    the region was obtained and can hold the first free node, requests
    do not wrap around, and only addresses on loan are handed back. *)
Inductive reachable : FreeListAllocator -> list Z -> Prop :=
| reach_construct size policy buffer heap0 :
    0 < buffer -> free_block_size <= size -> buffer + size < Word.modulus ->
    reachable (construct size policy buffer heap0) []
| reach_allocate st live size alignment time_ns fuel p st' :
    reachable st live -> request_ok size alignment -> enough_fuel st fuel ->
    allocate st size alignment time_ns fuel = Some (p, st') -> p <> 0 ->
    reachable st' (p :: live)
| reach_allocate_null st live size alignment time_ns fuel st' :
    reachable st live -> request_ok size alignment -> enough_fuel st fuel ->
    allocate st size alignment time_ns fuel = Some (0, st') ->
    reachable st' live
| reach_deallocate st live1 p live2 time_ns fuel st' :
    reachable st (live1 ++ p :: live2) -> enough_fuel st fuel ->
    deallocate st p time_ns fuel = Some st' ->
    reachable st' (live1 ++ live2)
| reach_set_policy st live policy :
    reachable st live -> reachable (set_policy st policy) live
| reach_reset st live :
    reachable st live -> reachable (reset st) [].

End FreeList.

(** ** The baseline allocator ([standard_allocator.hpp]) *)

Module Standard.

(** [alignof(std::max_align_t)]. *)
Definition max_align : Z := 16.

(** The allocator, with the part of the system heap it deals with:
    [sys_blocks] are the blocks that [::operator new] has handed out and
    [::operator delete] has not yet taken back. *)
Record StandardAllocator : Type := mkStandard {
  base : Base.BaseAllocator;
  m_allocations : gmap Z (Z * Z);
  sys_blocks : gset Z
}.

(** The constructor. *)
Definition construct (blocks : gset Z) : StandardAllocator :=
  mkStandard (Base.mkBase Word.SIZE_MAX Base.stats_zero []) ∅ blocks.

(** [StandardAllocator::allocate]; [sys_ptr] is what [::operator new]
    (the aligned one when the alignment exceeds [max_align]) returned,
    [0] when it failed. *)
Definition allocate (st : StandardAllocator) (size alignment : Z)
    (sys_ptr : Z) (time_ns : float) : Z * StandardAllocator :=
  if size =? 0 then (0, st) else
  let alignment :=
    if Word.is_power_of_two alignment then alignment else max_align in
  if sys_ptr =? 0 then (0, st) else
  (sys_ptr,
   mkStandard (Base.record_allocation (base st) sys_ptr size alignment time_ns)
     (<[sys_ptr := (size, alignment)]> (m_allocations st))
     ({[sys_ptr]} ∪ sys_blocks st)).

(** [StandardAllocator::deallocate]. *)
Definition deallocate (st : StandardAllocator) (ptr : Z) (time_ns : float)
    : StandardAllocator :=
  if ptr =? 0 then st else
  match m_allocations st !! ptr with
  | None => st
  | Some (size, _) =>
      mkStandard (Base.record_deallocation (base st) size time_ns)
        (delete ptr (m_allocations st))
        (sys_blocks st ∖ {[ptr]})
  end.

(** [StandardAllocator::reset]: every tracked block goes back to the
    system, then the map, the statistics and the history are cleared. *)
Definition reset (st : StandardAllocator) : StandardAllocator :=
  mkStandard (Base.clear (base st)) ∅ (sys_blocks st ∖ dom (m_allocations st)).

(** [StandardAllocator::owns]. *)
Definition owns (st : StandardAllocator) (ptr : Z) : bool :=
  match m_allocations st !! ptr with
  | Some _ => true
  | None => false
  end.

(** [StandardAllocator::available]. *)
Definition available (st : StandardAllocator) : Z := Word.SIZE_MAX.

End Standard.

(** ** The reducer of samples ([statistics.hpp]) *)

Module Statistics.



(** [std::sort] with [operator<], as an insertion sort. *)
Fixpoint insert (x : float) (l : list float) : list float :=
  match l with
  | [] => [x]
  | y :: r => if PrimFloat.ltb y x then y :: insert x r else x :: y :: r
  end.







(** [Statistics::throughput]. *)
Definition throughput (operations : Z) (time_ns : float) : float :=
  if PrimFloat.leb time_ns 0%float then 0%float
  else PrimFloat.div (PrimFloat.mul (Base.size_to_double operations) 1e9%float)
         time_ns.

(** *** The reducer in the words of the specification *)






End Statistics.

(** ** The interface of [BaseAllocator]

  The engine holds its allocators behind [BaseAllocator*] and calls them
  through the virtual members; here an allocator is one of the four
  variants and a call dispatches on the variant. *)

Module Allocator.

Inductive Allocator : Type :=
| Standard (st : Standard.StandardAllocator)
| Pool (st : Pool.PoolAllocator)
| Stack (st : Stack.StackAllocator)
| FreeList (st : FreeList.FreeListAllocator).

(** What a call takes from its surroundings: the reading of its timer,
    the answer of the system allocator, and the fuel for its loops. *)
Record Env : Type := mkEnv {
  time_ns : float;
  sys_ptr : Z;
  fuel : nat
}.

(** [allocate(size, alignment)]. *)
Definition allocate (a : Allocator) (size alignment : Z) (e : Env)
    : option (Z * Allocator) :=
  match a with
  | Standard st =>
      let '(p, st') := Standard.allocate st size alignment (sys_ptr e) (time_ns e) in
      Some (p, Standard st')
  | Pool st =>
      let '(p, st') := Pool.allocate st size alignment (time_ns e) in
      Some (p, Pool st')
  | Stack st =>
      let '(p, st') := Stack.allocate st size alignment (time_ns e) in
      Some (p, Stack st')
  | FreeList st =>
      match FreeList.allocate st size alignment (time_ns e) (fuel e) with
      | Some (p, st') => Some (p, FreeList st')
      | None => None
      end
  end.

(** [deallocate(ptr)]. *)
Definition deallocate (a : Allocator) (ptr : Z) (e : Env) : option Allocator :=
  match a with
  | Standard st => Some (Standard (Standard.deallocate st ptr (time_ns e)))
  | Pool st => Some (Pool (Pool.deallocate st ptr (time_ns e)))
  | Stack st => Some (Stack (Stack.deallocate st ptr (time_ns e)))
  | FreeList st =>
      match FreeList.deallocate st ptr (time_ns e) (fuel e) with
      | Some st' => Some (FreeList st')
      | None => None
      end
  end.

(** [reset()]. *)
Definition reset (a : Allocator) : Allocator :=
  match a with
  | Standard st => Standard (Standard.reset st)
  | Pool st => Pool (Pool.reset st)
  | Stack st => Stack (Stack.reset st)
  | FreeList st => FreeList (FreeList.reset st)
  end.

(** [owns(ptr)]. *)
Definition owns (a : Allocator) (ptr : Z) : bool :=
  match a with
  | Standard st => Standard.owns st ptr
  | Pool st => Pool.owns st ptr
  | Stack st => Stack.owns st ptr
  | FreeList st => FreeList.owns st ptr
  end.

(** [available()]. *)
Definition available (a : Allocator) (fuel : nat) : option Z :=
  match a with
  | Standard st => Some (Standard.available st)
  | Pool st => Some (Pool.available st)
  | Stack st => Some (Stack.available st)
  | FreeList st => FreeList.available fuel st
  end.

Definition base (a : Allocator) : Base.BaseAllocator :=
  match a with
  | Standard st => Standard.base st
  | Pool st => Pool.base st
  | Stack st => Stack.base st
  | FreeList st => FreeList.base st
  end.

(** [stats()]. *)
Definition stats (a : Allocator) : Base.AllocationStats := Base.m_stats (base a).

(** [allocation_history()]. *)
Definition allocation_history (a : Allocator) : list Base.AllocationInfo :=
  Base.m_allocation_history (base a).

(** [total_size()]. *)
Definition total_size (a : Allocator) : Z := Base.m_total_size (base a).

(** The allocators as their constructors leave them. *)
Inductive constructed : Allocator -> Prop :=
| constructed_standard blocks :
    constructed (Standard (Standard.construct blocks))
| constructed_pool block_size block_count alignment buffer heap0 :
    constructed (Pool (Pool.construct block_size block_count alignment buffer heap0))
| constructed_stack size alignment buffer heap0 :
    constructed (Stack (Stack.construct size alignment buffer heap0))
| constructed_freelist size policy buffer heap0 :
    constructed (FreeList (FreeList.construct size policy buffer heap0)).

(** What no call changes: the variant, the size of the region, and for
    the free-list variant, that it has no free list when it has no
    region. *)
Definition same_region (a0 a : Allocator) : Prop :=
  match a0, a with
  | Standard _, Standard _ => True
  | Pool s0, Pool s =>
      Pool.m_block_count s = Pool.m_block_count s0 /\
      Pool.m_block_size s = Pool.m_block_size s0
  | Stack s0, Stack s => Stack.m_total_size s = Stack.m_total_size s0
  | FreeList s0, FreeList s =>
      FreeList.m_total_size s = FreeList.m_total_size s0 /\
      FreeList.m_memory s = FreeList.m_memory s0 /\
      (FreeList.m_memory s = 0 -> FreeList.m_free_list s = 0)
  | _, _ => False
  end.

(** One call that changes the allocator: a call of the interface, or of
    one of the two members that only one variant has. *)
Inductive step : Allocator -> Allocator -> Prop :=
| step_allocate a size alignment e p a' :
    allocate a size alignment e = Some (p, a') -> step a a'
| step_deallocate a ptr e a' :
    deallocate a ptr e = Some a' -> step a a'
| step_reset a : step a (reset a)
| step_rollback st marker :
    step (Stack st) (Stack (Stack.rollback_to_marker st marker))
| step_set_policy st policy :
    step (FreeList st) (FreeList (FreeList.set_policy st policy)).

(** Any number of calls. *)
Inductive steps : Allocator -> Allocator -> Prop :=
| steps_none a : steps a a
| steps_more a b c : steps a b -> step b c -> steps a c.

End Allocator.

(** ** Concrete runs

The allocators of the scenarios of the specification, over memory that
is all zero at first, with every timer reading one nanosecond. *)

Module Scenario.

Definition zeroed : Mem.mem := fun _ => 0.

Definition is_some {A : Type} (o : option A) : bool :=
match o with
| Some _ => true
| None => false
end.

Definition tick : float := 1%float.

Definition env : Allocator.Env := Allocator.mkEnv tick 0 1025.

(** [StackAllocator(1024)] over a region at address 4096, then
[allocate(100, 8)] and [allocate(200, 8)]. *)
Definition stack0 : Stack.StackAllocator := Stack.construct 1024 16 4096 zeroed.
Definition stack1 : Z * Stack.StackAllocator := Stack.allocate stack0 100 8 tick.
Definition stack2 : Z * Stack.StackAllocator := Stack.allocate (snd stack1) 200 8 tick.

(** [PoolAllocator(64, 4)] with the default alignment of 16; the
region is at address 4112, a multiple of 16 and not of 32. *)
Definition pool0 : Pool.PoolAllocator := Pool.construct 64 4 16 4112 zeroed.

(** [FreeListAllocator(1024, BEST_FIT)] over a region at address 4096,
then three times [allocate(100, 16)]. *)
Definition freelist0 : FreeList.FreeListAllocator :=
FreeList.construct 1024 FreeList.BEST_FIT 4096 zeroed.

Definition freelist_allocate (st : FreeList.FreeListAllocator) (size alignment : Z)
: Z * FreeList.FreeListAllocator :=
match FreeList.allocate st size alignment tick 1025 with
| Some r => r
| None => (0, st)
end.

Definition freelist_deallocate (st : FreeList.FreeListAllocator) (ptr : Z)
: FreeList.FreeListAllocator :=
match FreeList.deallocate st ptr tick 1025 with
| Some st' => st'
| None => st
end.

Definition freelist1 : Z * FreeList.FreeListAllocator :=
freelist_allocate freelist0 100 16.
Definition freelist2 : Z * FreeList.FreeListAllocator :=
freelist_allocate (snd freelist1) 100 16.
Definition freelist3 : Z * FreeList.FreeListAllocator :=
freelist_allocate (snd freelist2) 100 16.

(** [allocate(1, 16)] on the fresh allocator, and the block handed back. *)
Definition freelist_one : Z * FreeList.FreeListAllocator :=
freelist_allocate freelist0 1 16.
Definition freelist_one_back : FreeList.FreeListAllocator :=
freelist_deallocate (snd freelist_one) (fst freelist_one).

End Scenario.

(** ** Sizes and addresses ([utils/memory_utils.hpp]) *)

Module MemoryUtils.

(** [MemoryUtils::align_forward]:
    [(address + alignment - 1) & ~(alignment - 1)]. *)
Definition align_forward (address alignment : Z) : Z :=
  Z.land (Word.wrap (address + alignment - 1))
    (Word.lnot64 (Word.wrap (alignment - 1))).

(** [MemoryUtils::is_power_of_two]. *)
Definition is_power_of_two (value : Z) : bool :=
  (0 <? value) && (Z.land value (Word.wrap (value - 1)) =? 0).

(** One statement [value |= value >> shift]. *)
Definition smear (value shift : Z) : Z := Z.lor value (Z.shiftr value shift).

(** [MemoryUtils::next_power_of_two]. *)
Definition next_power_of_two (value : Z) : Z :=
  let v := Word.wrap (value - 1) in
  let v := smear v 1 in
  let v := smear v 2 in
  let v := smear v 4 in
  let v := smear v 8 in
  let v := smear v 16 in
  let v := smear v 32 in
  Word.wrap (v + 1).

(** [MemoryUtils::get_page_size]: both branches of the [#ifdef]. *)
Definition get_page_size : Z := 4096.

(** [MemoryUtils::KB], [MB] and [GB]: the products associate to the
    left. *)
Definition KB (n : Z) : Z := Word.wrap (n * 1024).
Definition MB (n : Z) : Z := Word.wrap (Word.wrap (n * 1024) * 1024).
Definition GB (n : Z) : Z :=
  Word.wrap (Word.wrap (Word.wrap (n * 1024) * 1024) * 1024).

(** A word whose bits from [k - d] to [k] are set, [k] being its top bit. *)
Definition filled (k d y : Z) : Prop :=
  0 < y /\ Z.log2 y = k /\
  forall i, 0 <= i -> k - d <= i <= k -> Z.testbit y i = true.

End MemoryUtils.

(** ** The timer ([utils/timer.hpp])

  A reading of [Clock::now()] is a count of nanoseconds, an input of
  the member that takes it.  [m_elapsed] and the counts of the
  durations are [int64_t]; their arithmetic is two's complement. *)

Module Timer.

(** Reduction of an integer to an [int64_t]. *)
Definition int64 (z : Z) : Z := (z + 2 ^ 63) mod 2 ^ 64 - 2 ^ 63.

Record Timer : Type := mkTimer {
  m_start : Z;
  m_running : bool;
  m_elapsed : Z
}.

(** [Timer::Timer]; the time point starts at the epoch of the clock. *)
Definition construct : Timer := mkTimer 0 false 0.

(** [Timer::start]. *)
Definition start (t : Timer) (now : Z) : Timer :=
  if m_running t then t else mkTimer now true (m_elapsed t).

(** The count of [duration_cast<Duration>(now - m_start)]. *)
Definition since_start (t : Timer) (now : Z) : Z := int64 (now - m_start t).

(** [Timer::stop]. *)
Definition stop (t : Timer) (now : Z) : Timer :=
  if m_running t
  then mkTimer (m_start t) false (int64 (m_elapsed t + since_start t now))
  else t.

(** [Timer::reset]. *)
Definition reset (t : Timer) : Timer := mkTimer (m_start t) false 0.

(** [Timer::restart]. *)
Definition restart (t : Timer) (now : Z) : Timer := start (reset t) now.

(** The integer that [elapsed_ns] converts to [double]. *)
Definition elapsed_count (t : Timer) (now : Z) : Z :=
  if m_running t then int64 (m_elapsed t + since_start t now) else m_elapsed t.

(** Conversion of an [int64_t] to [double] (round to nearest even). *)
Definition int64_to_double (n : Z) : float :=
  SF2Prim (binary_normalize 53 1024 n 0 false).

(** [Timer::elapsed_ns] and the three members that scale it. *)
Definition elapsed_ns (t : Timer) (now : Z) : float :=
  int64_to_double (elapsed_count t now).

Definition elapsed_us (t : Timer) (now : Z) : float :=
  PrimFloat.div (elapsed_ns t now) 1000%float.

Definition elapsed_ms (t : Timer) (now : Z) : float :=
  PrimFloat.div (elapsed_ns t now) 1000000%float.

Definition elapsed_sec (t : Timer) (now : Z) : float :=
  PrimFloat.div (elapsed_ns t now) 1000000000%float.

(** [Timer::is_running]. *)
Definition is_running (t : Timer) : bool := m_running t.

(** A [ScopedTimer] that lives from the reading [t0] to the reading
    [t1]: what its destructor writes to [m_out_elapsed]. *)
Definition scoped (t0 t1 : Z) : float :=
  let t := stop (start construct t0) t1 in
  elapsed_ns t t1.

(** A run of [start] and [stop] in turn, each pair with its two
    readings of the clock. *)
Fixpoint run (t : Timer) (intervals : list (Z * Z)) : Timer :=
  match intervals with
  | [] => t
  | (a, b) :: r => run (stop (start t a) b) r
  end.

(** The sum of the lengths of the intervals. *)
Fixpoint span (intervals : list (Z * Z)) : Z :=
  match intervals with
  | [] => 0
  | (a, b) :: r => (b - a) + span r
  end.

End Timer.

(** ** Runs of the stack allocator *)

Module StackRun.
Import Stack.

(** A run of [allocate] over a list of requests (size, alignment and
    the reading of the timer); the result is the pointers in the order
    of the calls and the allocator afterwards. *)
Fixpoint allocate_all (st : StackAllocator) (reqs : list (Z * Z * float))
    : list Z * StackAllocator :=
  match reqs with
  | [] => ([], st)
  | (size, alignment, time_ns) :: r =>
      let '(p, st1) := allocate st size alignment time_ns in
      let '(ps, st2) := allocate_all st1 r in
      (p :: ps, st2)
  end.

(** A run of [deallocate] over a list of pointers, each with the
    reading of the timer. *)
Fixpoint deallocate_all (st : StackAllocator) (calls : list (Z * float))
    : StackAllocator :=
  match calls with
  | [] => st
  | (ptr, time_ns) :: r => deallocate_all (deallocate st ptr time_ns) r
  end.

(** [StackAllocator::usage_percentage]. *)
Definition usage_percentage (st : StackAllocator) : float :=
  PrimFloat.mul
    (PrimFloat.div (Base.size_to_double (m_current_offset st))
       (Base.size_to_double (m_total_size st)))
    100%float.

(** [StackAllocator::fragmentation_percentage]: both branches. *)
Definition fragmentation_percentage (st : StackAllocator) : float :=
  if m_current_offset st =? 0 then 0%float else 0%float.

Definition stats (st : StackAllocator) : Base.AllocationStats :=
  Base.m_stats (base st).

(** The requests of a run do not wrap around. *)
Definition requests_ok (st : StackAllocator) (reqs : list (Z * Z * float)) : Prop :=
  Forall (fun r : Z * Z * float => no_wrap st (fst (fst r)) (snd (fst r))) reqs.

(** What a run of allocations and the run of deallocations in the
    opposite order leave as they found it. *)
Record restored (st st' : StackAllocator) : Prop := {
  rs_current : m_current_offset st' = m_current_offset st;
  rs_previous : m_previous_offset st' = m_previous_offset st;
  rs_memory : m_memory st' = m_memory st;
  rs_total : m_total_size st' = m_total_size st;
  rs_available : available st' = available st;
  rs_allocations :
    Base.current_allocations (stats st') = Base.current_allocations (stats st);
  rs_bytes :
    Base.current_bytes_used (stats st') = Base.current_bytes_used (stats st);
  rs_below :
    forall x, x < m_memory st + m_current_offset st -> heap st' x = heap st x
}.

End StackRun.

(** ** The pool in use *)

Module PoolUse.
Import Pool.

(** [PoolAllocator::allocated_blocks], [block_size] and [block_count]. *)
Definition allocated_blocks (st : PoolAllocator) : Z := m_allocated_blocks st.
Definition block_size (st : PoolAllocator) : Z := m_block_size st.
Definition block_count (st : PoolAllocator) : Z := m_block_count st.

(** [PoolAllocator::fragmentation_percentage]. *)
Definition fragmentation_percentage (st : PoolAllocator) : float := 0%float.

(** The loop of [get_allocation_grid]; the index is the quotient of the
    pointer difference, taken as a [size_t], by the block size. *)
Fixpoint grid_loop (fuel : nat) (h : Mem.mem) (memory bs count current : Z)
    (grid : list bool) : option (list bool) :=
  match fuel with
  | O => None
  | S f =>
      if current =? 0 then Some grid else
      let index := Word.wrap (current - memory) / bs in
      let grid' :=
        if index <? count then <[Z.to_nat index := false]> grid else grid in
      grid_loop f h memory bs count (Mem.load64 h current) grid'
  end.

(** [PoolAllocator::get_allocation_grid]. *)
Definition get_allocation_grid (fuel : nat) (st : PoolAllocator)
    : option (list bool) :=
  grid_loop fuel (heap st) (m_memory st) (m_block_size st) (m_block_count st)
    (m_free_list st) (replicate (Z.to_nat (m_block_count st)) true).

Definition stats (st : PoolAllocator) : Base.AllocationStats :=
  Base.m_stats (base st).

(** The free list of a pool: the addresses threaded through memory
    from [p] to [nullptr]. *)
Fixpoint plist (h : Mem.mem) (p : Z) (l : list Z) : Prop :=
  match l with
  | [] => p = 0
  | a :: r => p = a /\ a <> 0 /\ plist h (Mem.load64 h a) r
  end.

(** The addresses of the first [n] blocks, in order. *)
Definition blocks (memory bs : Z) (n : nat) : list Z :=
  map (fun i => memory + Z.of_nat i * bs) (seq 0 n).

Definition all_blocks (st : PoolAllocator) : list Z :=
  blocks (m_memory st) (m_block_size st) (Z.to_nat (m_block_count st)).

(** How the state of a pool stands for the blocks [free] on its list
    and the blocks [lent] to its callers. *)
Record tracks (st : PoolAllocator) (free lent : list Z) : Prop := {
  tr_block : 8 <= m_block_size st;
  tr_count : 0 <= m_block_count st;
  tr_buffer : 0 < m_memory st;
  tr_region : m_memory st + m_block_size st * m_block_count st < Word.modulus;
  tr_total : m_total_size st = m_block_size st * m_block_count st;
  tr_free : plist (heap st) (m_free_list st) free;
  tr_all : Permutation (free ++ lent) (all_blocks st);
  tr_allocated : m_allocated_blocks st = Z.of_nat (length lent);
  tr_current : Base.current_allocations (stats st) = Z.of_nat (length lent);
  tr_bytes :
    Base.current_bytes_used (stats st) = Z.of_nat (length lent) * m_block_size st;
  tr_peak : Base.current_bytes_used (stats st) <= Base.peak_bytes_used (stats st)
}.

(** The states of a pool whose callers hand back only what they were
    lent, each block once, with the blocks on loan. *)
Inductive used : PoolAllocator -> list Z -> Prop :=
| used_construct block_size block_count alignment buffer heap0 :
    constructible block_size block_count alignment buffer ->
    used (construct block_size block_count alignment buffer heap0) []
| used_allocate st lent size alignment time_ns p st' :
    used st lent -> allocate st size alignment time_ns = (p, st') -> p <> 0 ->
    used st' (p :: lent)
| used_allocate_null st lent size alignment time_ns st' :
    used st lent -> allocate st size alignment time_ns = (0, st') ->
    used st' lent
| used_deallocate st lent1 p lent2 time_ns :
    used st (lent1 ++ p :: lent2) ->
    used (deallocate st p time_ns) (lent1 ++ lent2)
| used_reset st lent :
    used st lent -> used (reset st) [].

(** A run of [allocate] over a list of requests. *)
Fixpoint allocate_all (st : PoolAllocator) (reqs : list (Z * Z * float))
    : list Z * PoolAllocator :=
  match reqs with
  | [] => ([], st)
  | (size, alignment, time_ns) :: r =>
      let '(p, st1) := allocate st size alignment time_ns in
      let '(ps, st2) := allocate_all st1 r in
      (p :: ps, st2)
  end.


(** One round of the loop of [get_allocation_grid], for the node at
    [current]. *)
Definition mark_free (memory bs count : Z) (grid : list bool) (current : Z)
    : list bool :=
  let index := Word.wrap (current - memory) / bs in
  if index <? count then <[Z.to_nat index := false]> grid else grid.

(** The number of entries of a grid that say "allocated". *)
Fixpoint lent_count (grid : list bool) : Z :=
  match grid with
  | [] => 0
  | b :: r => (if b then 1 else 0) + lent_count r
  end.

End PoolUse.

(** ** The free list in use *)

Module FreeListUse.
Import FreeList.

Definition stats (st : FreeListAllocator) : Base.AllocationStats :=
  Base.m_stats (base st).

(** [FreeListAllocator::policy]. *)
Definition policy (st : FreeListAllocator) : FitPolicy := m_policy st.

(** The field [size] of the header in front of the block at [p]. *)
Definition block_size_of (h : Mem.mem) (p : Z) : Z :=
  Mem.load64 h (Word.wrap (p - header_size)).

(** The bytes of the region taken by the blocks at the addresses
    [live], headers included. *)
Fixpoint bytes_on_loan (h : Mem.mem) (live : list Z) : Z :=
  match live with
  | [] => 0
  | p :: r => block_size_of h p + bytes_on_loan h r
  end.

(** The sum of the sizes of a list of nodes. *)
Fixpoint sizes (l : list (Z * Z)) : Z :=
  match l with
  | [] => 0
  | n :: r => snd n + sizes r
  end.






(** The largest size among a list of nodes, the way
    [largest_free_block] finds it. *)
Definition largest_of (l : list (Z * Z)) : Z :=
  fold_left (fun m n => if m <? snd n then snd n else m) l 0.

(** No two segments next to each other are both free. *)
Fixpoint separated (segs : list segment) : Prop :=
  match segs with
  | [] => True
  | (_, f) :: r =>
      match r with
      | (_, true) :: _ => f = false
      | _ => True
      end /\ separated r
  end.

(** Between a node and the next there is a gap. *)
Fixpoint gaps (l : list (Z * Z)) : Prop :=
  match l with
  | [] => True
  | (a, s) :: r =>
      match r with
      | (b, _) :: _ => a + s < b
      | [] => True
      end /\ gaps r
  end.

(** A representation in which, moreover, the free list is coalesced
    and the estimate of the fragmentation is up to date. *)
Record tidy (st : FreeListAllocator) (segs : list segment) : Prop := {
  tidy_represents : represents st segs;
  tidy_separated : separated segs;
  tidy_fragmentation :
    Base.fragmentation_bytes (stats st)
    = sizes (nodes true (m_memory st) segs)
      - largest_of (nodes true (m_memory st) segs)
}.


(** The segments a block of [s] free bytes turns into when [r] bytes
    are taken from it, and the size that goes into the header. *)
Definition carved (s r : Z) : list segment :=
  if 32 <=? s - r then [(r, false); (s - r, true)] else [(s, false)].

Definition carved_size (s r : Z) : Z := if 32 <=? s - r then r else s.

(** The size [allocate] looks for. *)
Definition request (size alignment : Z) : Z :=
  Word.align_size (Word.wrap (size + header_size)) alignment.

End FreeListUse.

(** ** The standard allocator in use *)

Module StandardUse.
Import Standard.

Definition stats (st : StandardAllocator) : Base.AllocationStats :=
  Base.m_stats (base st).

(** The alignment [allocate] records for a request. *)
Definition recorded_alignment (alignment : Z) : Z :=
  if Word.is_power_of_two alignment then alignment else max_align.

(** The states of the allocator over a system heap that held the
    blocks [blocks0] when the allocator was constructed: what
    [::operator new] returns is [nullptr] or a block that is not in
    use. *)
Inductive run (blocks0 : gset Z) : StandardAllocator -> Prop :=
| run_construct : run blocks0 (construct blocks0)
| run_allocate st size alignment sys_ptr time_ns :
    run blocks0 st -> sys_ptr = 0 \/ sys_ptr ∉ sys_blocks st ->
    run blocks0 (snd (allocate st size alignment sys_ptr time_ns))
| run_deallocate st ptr time_ns :
    run blocks0 st -> run blocks0 (deallocate st ptr time_ns)
| run_reset st :
    run blocks0 st -> run blocks0 (reset st).


(** The bytes of the blocks a map tracks. *)
Definition tracked_bytes (m : gmap Z (Z * Z)) : Z :=
  map_fold (fun _ v acc => fst v + acc) 0 m.

(** The books of the allocator agree with its map, and the system heap
    holds what it held at the construction and the blocks of the map. *)
Record accounted (blocks0 : gset Z) (st : StandardAllocator) : Prop := {
  ac_sys : sys_blocks st = blocks0 ∪ dom (m_allocations st);
  ac_apart : forall p, p ∈ blocks0 -> m_allocations st !! p = None;
  ac_count :
    Base.current_allocations (stats st)
    = Word.wrap (Z.of_nat (size (m_allocations st)));
  ac_bytes :
    Base.current_bytes_used (stats st)
    = Word.wrap (tracked_bytes (m_allocations st))
}.

End StandardUse.

(** ** The counters of calls *)

Module Counters.
Import Base.

(** The bytes of the requests in a history. *)
Fixpoint history_bytes (l : list AllocationInfo) : Z :=
  match l with
  | [] => 0
  | i :: r => size i + history_bytes r
  end.

(** The counters of calls agree with each other and with the history. *)
Record counted (b : BaseAllocator) : Prop := {
  cn_current :
    current_allocations (m_stats b)
    = Word.wrap (total_allocations (m_stats b) - total_deallocations (m_stats b));
  cn_history :
    total_allocations (m_stats b)
    = Word.wrap (Z.of_nat (length (m_allocation_history b)));
  cn_bytes :
    total_bytes_allocated (m_stats b)
    = Word.wrap (history_bytes (m_allocation_history b))
}.

(** Two states of the base with the same counters of calls and the
    same history. *)
Definition same_counts (b b' : BaseAllocator) : Prop :=
  total_allocations (m_stats b') = total_allocations (m_stats b) /\
  total_deallocations (m_stats b') = total_deallocations (m_stats b) /\
  current_allocations (m_stats b') = current_allocations (m_stats b) /\
  total_bytes_allocated (m_stats b') = total_bytes_allocated (m_stats b) /\
  m_allocation_history b' = m_allocation_history b.

(** What one call does to the base: nothing that counts, one recorded
    allocation, one recorded deallocation, or a clearing. *)
Definition base_step (b b' : BaseAllocator) : Prop :=
  same_counts b b' \/
  (exists p s a t, same_counts (record_allocation b p s a t) b') \/
  (exists s t, same_counts (record_deallocation b s t) b') \/
  same_counts (clear b) b'.

End Counters.

(** ** The engine ([engine.hpp])

  The engine owns one allocator of each variant, keyed by
  [AllocatorType], and works on the one that is selected.  The map of
  the source holds the four keys from the constructor on, so it is a
  record with one field for each key here. *)

Module Engine.

Inductive AllocatorType : Type := STANDARD | POOL | STACK | FREELIST.

Record Engine : Type := mkEngine {
  m_standard : Standard.StandardAllocator;
  m_pool : Pool.PoolAllocator;
  m_stack : Stack.StackAllocator;
  m_freelist : FreeList.FreeListAllocator;
  m_current_allocator : AllocatorType
}.

(** [Engine::Engine] with [initialize_allocators]; the three buffers
    are what the system allocations of the three constructors
    returned. *)
Definition construct (blocks : gset Z) (pool_buffer stack_buffer freelist_buffer : Z)
    (heap0 : Mem.mem) : Engine :=
  mkEngine
    (Standard.construct blocks)
    (Pool.construct 4096 10000 Standard.max_align pool_buffer heap0)
    (Stack.construct (MemoryUtils.MB 16) Standard.max_align stack_buffer heap0)
    (FreeList.construct (MemoryUtils.MB 16) FreeList.BEST_FIT freelist_buffer heap0)
    STANDARD.

(** [Engine::set_allocator]. *)
Definition set_allocator (e : Engine) (type : AllocatorType) : Engine :=
  mkEngine (m_standard e) (m_pool e) (m_stack e) (m_freelist e) type.

(** The allocator stored under a key, and [Engine::get_allocator]. *)
Definition allocator_of (e : Engine) (type : AllocatorType) : Allocator.Allocator :=
  match type with
  | STANDARD => Allocator.Standard (m_standard e)
  | POOL => Allocator.Pool (m_pool e)
  | STACK => Allocator.Stack (m_stack e)
  | FREELIST => Allocator.FreeList (m_freelist e)
  end.

Definition get_allocator (e : Engine) : Allocator.Allocator :=
  allocator_of e (m_current_allocator e).

(** [Engine::reset_current_allocator]. *)
Definition reset_current_allocator (e : Engine) : Engine :=
  match m_current_allocator e with
  | STANDARD =>
      mkEngine (Standard.reset (m_standard e)) (m_pool e) (m_stack e)
        (m_freelist e) (m_current_allocator e)
  | POOL =>
      mkEngine (m_standard e) (Pool.reset (m_pool e)) (m_stack e)
        (m_freelist e) (m_current_allocator e)
  | STACK =>
      mkEngine (m_standard e) (m_pool e) (Stack.reset (m_stack e))
        (m_freelist e) (m_current_allocator e)
  | FREELIST =>
      mkEngine (m_standard e) (m_pool e) (m_stack e)
        (FreeList.reset (m_freelist e)) (m_current_allocator e)
  end.

(** [Engine::get_stats]. *)
Definition get_stats (e : Engine) : Base.AllocationStats :=
  Allocator.stats (get_allocator e).

(** [Engine::get_memory_grid]. *)
Definition get_memory_grid (fuel : nat) (e : Engine) : option (list bool) :=
  match m_current_allocator e with
  | POOL => PoolUse.get_allocation_grid fuel (m_pool e)
  | _ => Some []
  end.

End Engine.

(** ** More concrete runs *)

Module Runs.

(** Three requests on the stack of the scenarios, and the calls that
    hand the three blocks back, the last one first. *)
Definition stack_reqs : list (Z * Z * float) :=
  [(100, 8, Scenario.tick); (200, 8, Scenario.tick); (50, 16, Scenario.tick)].

Definition stack_run : list Z * Stack.StackAllocator :=
  StackRun.allocate_all Scenario.stack0 stack_reqs.

Definition stack_calls : list (Z * float) :=
  [(4472, Scenario.tick); (4248, Scenario.tick); (4120, Scenario.tick)].

(** One block of the pool of the scenarios on loan, and three requests. *)
Definition pool1 : Z * Pool.PoolAllocator :=
  Pool.allocate Scenario.pool0 64 16 Scenario.tick.

Definition pool_reqs : list (Z * Z * float) :=
  [(64, 16, Scenario.tick); (8, 16, Scenario.tick); (1, 1, Scenario.tick)].

(** The three blocks on loan in the free-list scenario. *)
Definition live3 : list Z :=
  [fst Scenario.freelist3; fst Scenario.freelist2; fst Scenario.freelist1].

(** A standard allocator over an empty system heap, and a request
    that the system answers with the block at 8192. *)
Definition standard0 : Standard.StandardAllocator := Standard.construct ∅.

Definition standard1 : Z * Standard.StandardAllocator :=
  Standard.allocate standard0 100 3 8192 Scenario.tick.

End Runs.


(** * Part II: properties *)

(** ** Facts about machine words *)

Module WordFacts.
Import Word.

Lemma modulus_eq : modulus = 18446744073709551616.
Proof. reflexivity. Qed.

Lemma wrap_range z : 0 <= wrap z < modulus.
Proof. unfold wrap. apply Z.mod_pos_bound. reflexivity. Qed.

Lemma wrap_small z : 0 <= z < modulus -> wrap z = z.
Proof. intros H. unfold wrap. now apply Z.mod_small. Qed.

Lemma wrap_wrap z : wrap (wrap z) = wrap z.
Proof. apply wrap_small, wrap_range. Qed.

Lemma wrap_ones z : wrap z = Z.land z (Z.ones 64).
Proof. unfold wrap, modulus. now rewrite Z.land_ones. Qed.

(** Masking with a wrapped complement is masking with the complement. *)
Lemma land_lnot64 y m :
  0 <= y < modulus -> Z.land y (lnot64 m) = Z.ldiff y m.
Proof.
  intros Hy. unfold lnot64. rewrite wrap_ones.
  rewrite (Z.land_comm (Z.lnot m)), Z.land_assoc.
  rewrite <- wrap_ones, (wrap_small y Hy). now rewrite Z.ldiff_land.
Qed.

Lemma ldiff_as_sub y m : Z.ldiff y m = y - Z.land y m.
Proof.
  assert (H : Z.ldiff y m + Z.land y m = y); [ | lia ].
  rewrite Z.add_nocarry_lxor, Z.lxor_lor, Z.lor_ldiff_and; trivial;
    apply Z.bits_inj'; intros n Hn;
    rewrite Z.land_spec, Z.ldiff_spec, Z.land_spec, Z.bits_0;
    destruct (Z.testbit y n), (Z.testbit m n); reflexivity.
Qed.

Lemma land_bounds y m : 0 <= y -> 0 <= m -> 0 <= Z.land y m <= m.
Proof.
  intros Hy Hm. split; [ apply Z.land_nonneg; auto | ].
  assert (H : Z.ldiff m y + Z.land y m = m).
  { rewrite Z.add_nocarry_lxor, Z.lxor_lor, (Z.land_comm y m), Z.lor_ldiff_and;
      trivial; apply Z.bits_inj'; intros n Hn;
      rewrite Z.land_spec, Z.ldiff_spec, Z.land_spec, Z.bits_0;
      destruct (Z.testbit y n), (Z.testbit m n); reflexivity. }
  assert (0 <= Z.ldiff m y) by (apply Z.ldiff_nonneg; auto).
  lia.
Qed.

(** Without wrap-around, [align_size] rounds up by less than the
    alignment, whatever the alignment is. *)
Lemma align_size_bounds size alignment :
  0 <= size -> 1 <= alignment -> size + alignment - 1 < modulus ->
  size <= align_size size alignment <= size + alignment - 1.
Proof.
  intros Hs Ha Hlt. unfold align_size.
  rewrite (wrap_small (size + alignment - 1)) by lia.
  rewrite (wrap_small (alignment - 1)) by lia.
  rewrite land_lnot64 by lia. rewrite ldiff_as_sub.
  pose proof (land_bounds (size + alignment - 1) (alignment - 1)). lia.
Qed.

Lemma align_size_range size alignment : in_range (align_size size alignment).
Proof.
  unfold align_size, in_range.
  pose proof (wrap_range (size + alignment - 1)) as H1.
  pose proof (wrap_range (Z.lnot (wrap (alignment - 1)))) as H2.
  pose proof (land_bounds _ _ (proj1 H1) (proj1 H2)) as H3.
  unfold lnot64. lia.
Qed.

Lemma power_of_two_shape a :
  is_power_of_two a = true -> a < modulus -> exists k, 0 <= k < 64 /\ a = 2 ^ k.
Proof.
  unfold is_power_of_two. intros H Hlt.
  apply andb_true_iff in H. destruct H as [Hpos Hand].
  apply Z.ltb_lt in Hpos. apply Z.eqb_eq in Hand.
  rewrite wrap_small in Hand by lia.
  exists (Z.log2 a). pose proof (Z.log2_spec a Hpos) as [Hlo Hhi].
  pose proof (Z.log2_nonneg a) as Hk.
  assert (Hk64 : Z.log2 a < 64).
  { apply Z.log2_lt_pow2; [ lia | exact Hlt ]. }
  split; [ lia | ].
  destruct (Z.eq_dec a (2 ^ Z.log2 a)) as [ | Hne ]; [ assumption | exfalso ].
  assert (Hbit : Z.testbit (Z.land a (a - 1)) (Z.log2 a) = true).
  { rewrite Z.land_spec, (Z.bit_log2 a Hpos). simpl.
    assert (Hl : Z.log2 (a - 1) = Z.log2 a).
    { apply Z.log2_unique; [ lia | ]. rewrite Z.pow_succ_r in Hhi by lia.
      rewrite <- Z.add_1_r. rewrite Z.pow_add_r by lia. lia. }
    rewrite <- Hl. apply Z.bit_log2. lia. }
  rewrite Hand, Z.bits_0 in Hbit. discriminate.
Qed.

(** For a power-of-two alignment the result is a multiple of it. *)
Lemma align_size_multiple size alignment :
  is_power_of_two alignment = true -> alignment < modulus ->
  align_size size alignment mod alignment = 0.
Proof.
  intros Hp Hlt. destruct (power_of_two_shape _ Hp Hlt) as (k & Hk & ->).
  unfold align_size.
  assert (H1 : 0 < 2 ^ k) by (apply Z.pow_pos_nonneg; lia).
  rewrite (wrap_small (2 ^ k - 1)) by lia.
  rewrite land_lnot64 by apply wrap_range.
  replace (2 ^ k - 1) with (Z.ones k) by (rewrite Z.ones_equiv; lia).
  rewrite Z.ldiff_ones_r by lia. rewrite Z.shiftl_mul_pow2 by lia.
  apply Z.mod_mul. lia.
Qed.

End WordFacts.

(** ** Facts about memory *)

Module MemFacts.
Import Mem.

Lemma load_bytes_range n m a : 0 <= load_bytes n m a < 2 ^ (8 * Z.of_nat n).
Proof.
  revert a. induction n as [ | k IH ]; intros a.
  - simpl. lia.
  - cbn [load_bytes]. specialize (IH (a + 1)).
    replace (8 * Z.of_nat (S k)) with (8 + 8 * Z.of_nat k) by lia.
    rewrite Z.pow_add_r by lia. change (2 ^ 8) with 256.
    pose proof (Z.mod_pos_bound (m a) 256). nia.
Qed.

Lemma load64_range m a : Word.in_range (load64 m a).
Proof. apply (load_bytes_range 8). Qed.

Lemma byte_of_succ v i : 0 <= i -> byte_of v (i + 1) = byte_of (v / 256) i.
Proof.
  intros Hi. unfold byte_of.
  replace (8 * (i + 1)) with (8 + 8 * i) by lia.
  rewrite Z.pow_add_r by lia. change (2 ^ 8) with 256.
  rewrite Z.div_div by (try lia; apply Z.pow_pos_nonneg; lia). reflexivity.
Qed.

Lemma load_bytes_of_value n m a v :
  (forall i, 0 <= i < Z.of_nat n -> m (a + i) = byte_of v i) ->
  load_bytes n m a = v mod 2 ^ (8 * Z.of_nat n).
Proof.
  revert a v. induction n as [ | k IH ]; intros a v H.
  - simpl. now rewrite Z.mod_1_r.
  - cbn [load_bytes]. rewrite (IH (a + 1) (v / 256)).
    + rewrite <- (Z.add_0_r a) at 1. rewrite (H 0) by lia.
      unfold byte_of. simpl (8 * 0). rewrite Z.pow_0_r, Z.div_1_r.
      rewrite Z.mod_mod by lia.
      replace (8 * Z.of_nat (S k)) with (8 + 8 * Z.of_nat k) by lia.
      rewrite Z.pow_add_r by lia. change (2 ^ 8) with 256.
      rewrite Z.rem_mul_r; [ reflexivity | lia | apply Z.pow_pos_nonneg; lia ].
    + intros i Hi. rewrite <- byte_of_succ by lia.
      rewrite <- H by lia. f_equal. lia.
Qed.

Lemma load_bytes_ext n m1 m2 a :
  (forall i, 0 <= i < Z.of_nat n -> m1 (a + i) = m2 (a + i)) ->
  load_bytes n m1 a = load_bytes n m2 a.
Proof.
  revert a. induction n as [ | k IH ]; intros a H; [ reflexivity | ].
  cbn [load_bytes]. rewrite (IH (a + 1)).
  - rewrite <- (Z.add_0_r a) at 1 3. rewrite (H 0) by lia. reflexivity.
  - intros i Hi. replace (a + 1 + i) with (a + (i + 1)) by lia. apply H. lia.
Qed.

Lemma store64_inside m a v i :
  0 <= i < 8 -> store64 m a v (a + i) = byte_of v i.
Proof.
  intros Hi. unfold store64.
  replace ((a <=? a + i) && (a + i <? a + 8)) with true.
  - f_equal. lia.
  - symmetry. apply andb_true_iff. split; [ apply Z.leb_le | apply Z.ltb_lt ]; lia.
Qed.

Lemma store64_outside m a v x :
  x < a \/ a + 8 <= x -> store64 m a v x = m x.
Proof.
  intros Hx. unfold store64.
  replace ((a <=? x) && (x <? a + 8)) with false; [ reflexivity | ].
  symmetry. apply andb_false_iff.
  destruct Hx; [ left; apply Z.leb_gt | right; apply Z.ltb_ge ]; lia.
Qed.

(** A field that has just been written reads back as the value written. *)
Lemma load_store_same m a v : load64 (store64 m a v) a = Word.wrap v.
Proof.
  unfold load64. rewrite (load_bytes_of_value 8 _ a v).
  - reflexivity.
  - intros i Hi. apply store64_inside. lia.
Qed.

(** A write leaves every field that does not overlap it as it was. *)
Lemma load_store_other m a v b :
  b + 8 <= a \/ a + 8 <= b -> load64 (store64 m a v) b = load64 m b.
Proof.
  intros H. unfold load64. apply load_bytes_ext.
  intros i Hi. apply store64_outside. change (Z.of_nat 8) with 8 in Hi. lia.
Qed.

(** Writing twice the same value is writing it once. *)
Lemma store64_idem m a v : store64 (store64 m a v) a v = store64 m a v.
Proof.
  apply functional_extensionality. intros x. unfold store64.
  destruct ((a <=? x) && (x <? a + 8)); reflexivity.
Qed.

End MemFacts.

(** ** The stack allocator *)

Module StackProps.
Import Stack.

Lemma allocate_inv st size alignment t p st' :
  no_wrap st size alignment ->
  0 <= m_current_offset st <= m_total_size st ->
  allocate st size alignment t = (p, st') -> p <> 0 ->
  exists adj, allocated st size adj p st'.
Proof.
  intros (Ha & Hs & Hm & Ht & Hsum) Hcur Hal Hp.
  unfold allocate in Hal.
  destruct ((m_memory st =? 0) || (size =? 0)) eqn:Hz.
  { inversion Hal. congruence. }
  apply orb_false_iff in Hz. destruct Hz as [Hz1 Hz2].
  apply Z.eqb_neq in Hz1, Hz2.
  unfold header_size in *.
  rewrite (WordFacts.wrap_small (m_memory st + m_current_offset st)) in Hal
    by (unfold Word.modulus in *; lia).
  pose proof (WordFacts.align_size_bounds (m_memory st + m_current_offset st) alignment)
    as Hb.
  specialize (Hb ltac:(lia) ltac:(lia) ltac:(lia)).
  set (aligned := Word.align_size (m_memory st + m_current_offset st) alignment) in *.
  set (adj := aligned - (m_memory st + m_current_offset st)) in *.
  rewrite (WordFacts.wrap_small adj) in Hal by (unfold adj; lia).
  rewrite (WordFacts.wrap_small (adj + 24)) in Hal by (unfold adj; lia).
  rewrite (WordFacts.wrap_small (adj + 24 + size)) in Hal by (unfold adj; lia).
  rewrite (WordFacts.wrap_small (m_current_offset st + (adj + 24 + size))) in Hal
    by (unfold adj; lia).
  destruct (m_total_size st <? m_current_offset st + (adj + 24 + size)) eqn:Hfull.
  { inversion Hal. congruence. }
  apply Z.ltb_ge in Hfull.
  rewrite (WordFacts.wrap_small (m_current_offset st + adj)) in Hal by (unfold adj; lia).
  rewrite (WordFacts.wrap_small (m_memory st + (m_current_offset st + adj))) in Hal
    by (unfold adj; lia).
  rewrite (WordFacts.wrap_small (m_memory st + (m_current_offset st + adj) + 24)) in Hal
    by (unfold adj; lia).
  rewrite (WordFacts.wrap_small (m_current_offset st + adj + 24)) in Hal
    by (unfold adj; lia).
  rewrite (WordFacts.wrap_small (m_current_offset st + adj + 24 + size)) in Hal
    by (unfold adj; lia).
  inversion Hal as [[Hptr Hst]]. clear Hal.
  exists adj. subst p st'.
  split; cbn; unfold m_total_size, header_size in *; cbn;
    try reflexivity; try (unfold adj; lia).
  replace (m_memory st + (m_current_offset st + adj) + 24 - 24)
    with (m_memory st + (m_current_offset st + adj)) by lia.
  reflexivity.
Qed.

(** Releasing the block on top of the stack. *)
Lemma deallocate_top st ptr t :
  ptr <> 0 -> m_memory st <> 0 ->
  expected_offset st ptr = m_current_offset st ->
  m_current_offset (deallocate st ptr t) = m_previous_offset st /\
  m_previous_offset (deallocate st ptr t) =
    (if 0 <? m_previous_offset st
     then Mem.load64 (heap st) (Word.wrap (ptr - header_size) + 16) else 0) /\
  heap (deallocate st ptr t) = heap st /\
  m_memory (deallocate st ptr t) = m_memory st.
Proof.
  intros Hp Hm He. unfold deallocate.
  apply Z.eqb_neq in Hp, Hm. rewrite Hp, Hm. cbn [orb].
  apply Z.eqb_eq in He. rewrite He. cbn [negb]. cbn. auto.
Qed.

(** C5. From an empty stack, two successful allocations followed by the
    release of the second and then of the first block leave
    [m_current_offset] and [m_previous_offset] at [0]. *)
Theorem stack_lifo st0 s1 a1 t1 p1 st1 s2 a2 t2 p2 st2 t3 t4 :
  m_current_offset st0 = 0 -> m_previous_offset st0 = 0 ->
  no_wrap st0 s1 a1 -> no_wrap st0 s2 a2 ->
  allocate st0 s1 a1 t1 = (p1, st1) -> p1 <> 0 ->
  allocate st1 s2 a2 t2 = (p2, st2) -> p2 <> 0 ->
  let st4 := deallocate (deallocate st2 p2 t3) p1 t4 in
  m_current_offset st4 = 0 /\ m_previous_offset st4 = 0.
Proof.
  intros Hc0 Hp0 Hw1 Hw2 Hal1 Hn1 Hal2 Hn2.
  pose proof Hw1 as (Ha1 & Hs1 & Hm & Ht & Hsum1).
  pose proof Hw2 as (Ha2 & Hs2 & _ & _ & Hsum2).
  destruct (allocate_inv _ _ _ _ _ _ Hw1 ltac:(lia) Hal1 Hn1) as [adj1 A1].
  destruct A1 as [Hadj1 Hsz1 Hptr1 Hcur1 Hfit1 Hprev1 Hmem1 Htot1 Hheap1].
  assert (Hw2' : no_wrap st1 s2 a2).
  { unfold no_wrap. rewrite Hmem1, Htot1. exact Hw2. }
  destruct (allocate_inv _ _ _ _ _ _ Hw2' ltac:(unfold header_size in *; lia) Hal2 Hn2)
    as [adj2 A2].
  destruct A2 as [Hadj2 Hsz2 Hptr2 Hcur2 Hfit2 Hprev2 Hmem2 Htot2 Hheap2].
  unfold header_size in *.
  assert (Hmem : m_memory st0 <> 0).
  { intros E. unfold allocate in Hal1. rewrite E in Hal1. cbn in Hal1.
    inversion Hal1. congruence. }
  (* the second block is on top *)
  assert (Hload2 : Mem.load64 (heap st2) (p2 - 24) = s2).
  { rewrite Hheap2. rewrite !MemFacts.load_store_other by lia.
    rewrite MemFacts.load_store_same. apply WordFacts.wrap_small. unfold Word.modulus in *. lia. }
  assert (Hprev2' : Mem.load64 (heap st2) (p2 - 24 + 16) = 0).
  { rewrite Hheap2. rewrite MemFacts.load_store_same. rewrite Hprev1, Hc0. reflexivity. }
  assert (He2 : expected_offset st2 p2 = m_current_offset st2).
  { unfold expected_offset, header_size.
    rewrite (WordFacts.wrap_small (p2 - 24)) by lia. rewrite Hload2.
    rewrite Hmem2, Hmem1. rewrite (WordFacts.wrap_small (p2 - m_memory st0)) by lia.
    rewrite WordFacts.wrap_small by lia. lia. }
  destruct (deallocate_top st2 p2 t3 Hn2 ltac:(congruence) He2)
    as (Hc3 & Hp3 & Hh3 & Hm3).
  set (st3 := deallocate st2 p2 t3) in *.
  assert (Hp3' : m_previous_offset st3 = 0).
  { rewrite Hp3. unfold header_size. rewrite (WordFacts.wrap_small (p2 - 24)) by lia.
    rewrite Hprev2'. now destruct (0 <? m_previous_offset st2). }
  (* the first block is on top again *)
  assert (Hload1 : Mem.load64 (heap st3) (p1 - 24) = s1).
  { rewrite Hh3, Hheap2. rewrite !MemFacts.load_store_other by lia.
    rewrite Hheap1. rewrite !MemFacts.load_store_other by lia.
    rewrite MemFacts.load_store_same. apply WordFacts.wrap_small. unfold Word.modulus in *. lia. }
  assert (He1 : expected_offset st3 p1 = m_current_offset st3).
  { unfold expected_offset, header_size.
    rewrite (WordFacts.wrap_small (p1 - 24)) by lia. rewrite Hload1.
    rewrite Hm3, Hmem2, Hmem1. rewrite (WordFacts.wrap_small (p1 - m_memory st0)) by lia.
    rewrite WordFacts.wrap_small by lia. lia. }
  destruct (deallocate_top st3 p1 t4 Hn1 ltac:(congruence) He1)
    as (Hc4 & Hp4 & _ & _).
  cbv zeta. rewrite Hc4, Hp4, Hp3'. split; reflexivity.
Qed.

(** C6. A [deallocate] whose implied end offset is not the top of the
    stack changes nothing: offsets, memory, statistics and history are
    those of before. *)
Theorem deallocate_out_of_order st ptr t :
  expected_offset st ptr <> m_current_offset st ->
  deallocate st ptr t = st.
Proof.
  intros Hne. unfold deallocate.
  destruct ((ptr =? 0) || (m_memory st =? 0)); [ reflexivity | ].
  apply Z.eqb_neq in Hne. rewrite Hne. reflexivity.
Qed.

End StackProps.

(** ** The pool allocator *)

Module PoolProps.
Import Pool.

Lemma block_addr_exact memory bs count i :
  0 < memory -> 0 <= bs -> memory + bs * count < Word.modulus ->
  0 <= i < count -> block_addr memory bs i = memory + i * bs.
Proof.
  intros Hm Hb Hr Hi. unfold block_addr.
  assert (i * bs <= bs * count) by nia.
  rewrite (WordFacts.wrap_small (i * bs)) by nia.
  apply WordFacts.wrap_small. nia.
Qed.

Lemma blocks_apart memory bs count b1 b2 :
  8 <= bs -> blockp memory bs count b1 -> blockp memory bs count b2 ->
  b1 = b2 \/ b1 + 8 <= b2 \/ b2 + 8 <= b1.
Proof.
  intros Hb (i & Hi & ->) (j & Hj & ->).
  destruct (Z.lt_trichotomy i j) as [ H | [ -> | H ] ]; [ right; left | left | right; right ]; nia.
Qed.

Lemma block_in_range memory bs count b :
  0 < memory -> 0 <= bs -> memory + bs * count < Word.modulus ->
  blockp memory bs count b -> 0 < b < Word.modulus.
Proof. intros Hm Hb Hr (i & Hi & ->). nia. Qed.

(** The loop of [initialize_free_list] leaves a list of blocks. *)
Lemma link_blocks_links memory bs count :
  0 < memory -> 8 <= bs -> memory + bs * count < Word.modulus ->
  forall n fl h,
    Z.of_nat n <= count ->
    (fl = 0 \/ blockp memory bs count fl) ->
    (forall b, blockp memory bs count b ->
       (exists i, Z.of_nat n <= i < count /\ b = memory + i * bs) ->
       Mem.load64 h b = 0 \/ blockp memory bs count (Mem.load64 h b)) ->
    let '(fl', h') := link_blocks n memory bs fl h in
    (fl' = 0 \/ blockp memory bs count fl') /\
    (forall b, blockp memory bs count b ->
       Mem.load64 h' b = 0 \/ blockp memory bs count (Mem.load64 h' b)).
Proof.
  intros Hm Hb Hr. induction n as [ | k IH ]; intros fl h Hn Hfl Hl.
  - cbn. split; [ exact Hfl | ]. intros b Hbk. apply Hl; [ exact Hbk | ].
    destruct Hbk as (i & Hi & ->). exists i. split; [ lia | reflexivity ].
  - cbn [link_blocks].
    assert (Hk : 0 <= Z.of_nat k < count) by lia.
    rewrite (block_addr_exact memory bs count (Z.of_nat k)) by lia.
    assert (Hblk : blockp memory bs count (memory + Z.of_nat k * bs)).
    { exists (Z.of_nat k). split; [ lia | reflexivity ]. }
    apply IH; [ lia | right; exact Hblk | ].
    intros b Hbk (i & Hi & Hbi).
    destruct (blocks_apart memory bs count b (memory + Z.of_nat k * bs)
                ltac:(lia) Hbk Hblk) as [ -> | Hfar ].
    + rewrite MemFacts.load_store_same.
      destruct Hfl as [ -> | Hfl ]; [ left; reflexivity | right ].
      rewrite WordFacts.wrap_small; [ exact Hfl | ].
      pose proof (block_in_range memory bs count fl Hm ltac:(lia) Hr Hfl). lia.
    + rewrite MemFacts.load_store_other by lia.
      apply Hl; [ exact Hbk | ]. exists i. split; [ | exact Hbi ].
      assert (i <> Z.of_nat k) by (intros ->; lia). lia.
Qed.

Lemma initialize_free_list_invariant st :
  Word.is_power_of_two (m_alignment st) = true -> 8 <= m_block_size st ->
  m_block_size st mod m_alignment st = 0 -> 0 <= m_block_count st ->
  0 < m_memory st -> m_memory st mod m_alignment st = 0 ->
  m_memory st + m_block_size st * m_block_count st < Word.modulus ->
  invariant (initialize_free_list st).
Proof.
  intros H1 H2 H3 H4 H5 H6 H7. unfold initialize_free_list.
  pose proof (link_blocks_links (m_memory st) (m_block_size st) (m_block_count st)
                H5 H2 H7 (Z.to_nat (m_block_count st)) 0 (heap st)) as L.
  destruct (link_blocks _ _ _ _ _) as [fl h].
  destruct L as [Lh Ll].
  - lia.
  - left; reflexivity.
  - intros b _ (i & Hi & _). lia.
  - split; cbn; auto.
Qed.

Lemma construct_invariant block_size block_count alignment buffer heap0 :
  constructible block_size block_count alignment buffer ->
  invariant (construct block_size block_count alignment buffer heap0).
Proof.
  intros [C1 C2 C3 C4 C5 C6]. unfold construct.
  replace (buffer =? 0) with false by (symmetry; apply Z.eqb_neq; lia).
  apply initialize_free_list_invariant; cbn; auto.
  apply WordFacts.align_size_multiple; [ exact C1 | ].
  pose proof (WordFacts.align_size_range block_size alignment) as R.
  unfold Word.is_power_of_two in C1. apply andb_true_iff in C1.
  destruct C1 as [P _]. apply Z.ltb_lt in P.
  destruct (Z.mod_divide buffer alignment ltac:(lia)) as [D _].
  destruct (D C5) as [q Hq].
  assert (0 <= Word.align_size block_size alignment * block_count) by nia.
  assert (1 <= q) by nia. nia.
Qed.

Lemma allocate_invariant st size alignment t :
  invariant st -> invariant (snd (allocate st size alignment t)).
Proof.
  intros I. unfold allocate.
  destruct ((m_memory st =? 0) || (m_free_list st =? 0) || (m_block_size st <? size))
    eqn:E; [ exact I | ].
  apply orb_false_iff in E. destruct E as [E _].
  apply orb_false_iff in E. destruct E as [_ E]. apply Z.eqb_neq in E.
  destruct I as [I1 I2 I3 I4 I5 I6 I7 I8 I9]. split; cbn; auto.
  destruct I8 as [ I8 | I8 ]; [ contradiction | ]. apply I9. exact I8.
Qed.

Lemma deallocate_invariant st ptr t :
  invariant st -> is_block st ptr -> invariant (deallocate st ptr t).
Proof.
  intros I Hb. unfold deallocate.
  destruct ((ptr =? 0) || negb (owns st ptr)); [ exact I | ].
  destruct I as [I1 I2 I3 I4 I5 I6 I7 I8 I9]. split; cbn; auto.
  unfold is_block in *. cbn. intros b Hbk.
  destruct (blocks_apart _ _ _ b ptr I2 Hbk Hb) as [ -> | Hfar ].
  - rewrite MemFacts.load_store_same.
    destruct I8 as [ -> | I8 ]; [ left; reflexivity | right ].
    rewrite WordFacts.wrap_small; [ exact I8 | ].
    assert (Hbs : 0 <= m_block_size st) by lia.
    pose proof (block_in_range _ _ _ _ I5 Hbs I7 I8). lia.
  - rewrite MemFacts.load_store_other by lia. apply I9. exact Hbk.
Qed.

Lemma reset_invariant st : invariant st -> invariant (reset st).
Proof.
  intros [I1 I2 I3 I4 I5 I6 I7 I8 I9]. unfold reset.
  replace (m_memory st =? 0) with false by (symmetry; apply Z.eqb_neq; lia).
  destruct (initialize_free_list_invariant st I1 I2 I3 I4 I5 I6 I7)
    as [J1 J2 J3 J4 J5 J6 J7 J8 J9].
  split; cbn; auto.
Qed.

Lemma reachable_invariant st : reachable st -> invariant st.
Proof.
  induction 1.
  - now apply construct_invariant.
  - now apply allocate_invariant.
  - now apply deallocate_invariant.
  - now apply reset_invariant.
Qed.

Lemma power_of_two_divides a b :
  Word.is_power_of_two a = true -> Word.is_power_of_two b = true ->
  a <= b -> b < Word.modulus -> (a | b).
Proof.
  intros Ha Hb Hle Hlt.
  destruct (WordFacts.power_of_two_shape a Ha ltac:(lia)) as (j & Hj & ->).
  destruct (WordFacts.power_of_two_shape b Hb Hlt) as (k & Hk & ->).
  assert (j <= k) by (apply (Z.pow_le_mono_r_iff 2); lia).
  exists (2 ^ (k - j)). rewrite <- Z.pow_add_r by lia. f_equal. lia.
Qed.

(** C1, as amended. A pointer that the pool hands out is a multiple of
    the alignment the pool was constructed with, and so of every power
    of two that does not exceed it; the alignment of the request plays
    no part. *)
Theorem pool_alignment st size alignment t p st' :
  reachable st -> allocate st size alignment t = (p, st') -> p <> 0 ->
  p mod m_alignment st = 0 /\
  (Word.is_power_of_two alignment = true -> alignment <= m_alignment st ->
   p mod alignment = 0).
Proof.
  intros R Hal Hp. apply reachable_invariant in R.
  destruct R as [I1 I2 I3 I4 I5 I6 I7 I8 I9].
  unfold allocate in Hal.
  destruct ((m_memory st =? 0) || (m_free_list st =? 0) || (m_block_size st <? size));
    inversion Hal; subst; [ contradiction | ].
  destruct I8 as [ I8 | (i & Hi & Hpi) ]; [ contradiction | ].
  assert (Hpos : 0 < m_alignment st).
  { unfold Word.is_power_of_two in I1. apply andb_true_iff in I1.
    destruct I1 as [P _]. now apply Z.ltb_lt in P. }
  assert (Hdiv : (m_alignment st | m_free_list st)).
  { rewrite Hpi. apply Z.divide_add_r.
    - apply Z.mod_divide; [ lia | exact I6 ].
    - apply Z.divide_mul_r. apply Z.mod_divide; [ lia | exact I3 ]. }
  split.
  - apply Z.mod_divide; [ lia | exact Hdiv ].
  - intros Ha Hle.
    assert (Hapos : 0 < alignment).
    { unfold Word.is_power_of_two in Ha. apply andb_true_iff in Ha.
      destruct Ha as [P _]. now apply Z.ltb_lt in P. }
    apply Z.mod_divide; [ lia | ].
    apply Z.divide_trans with (m_alignment st); [ | exact Hdiv ].
    apply power_of_two_divides; auto.
    destruct (Z.mod_divide (m_memory st) (m_alignment st) ltac:(lia)) as [D _].
    destruct (D I6) as [q Hq].
    assert (0 <= m_block_size st * m_block_count st) by nia.
    assert (1 <= q) by nia. nia.
Qed.

End PoolProps.

(** ** The free-list allocator *)

Module FreeListProps.
Import FreeList.

(** *** Segments of a linked list *)

Lemma lseg_app h l1 l2 p q :
  lseg h p (l1 ++ l2) q <-> exists m, lseg h p l1 m /\ lseg h m l2 q.
Proof.
  revert p. induction l1 as [ | [a s] r IH ]; intros p; cbn [lseg app].
  - split.
    + intros H. exists p. split; [ reflexivity | exact H ].
    + intros (m & -> & H). exact H.
  - rewrite IH. split.
    + intros (Hp & Ha & Hs & m & H1 & H2). exists m. tauto.
    + intros (m & (Hp & Ha & Hs & H1) & H2). repeat split; trivial. exists m. tauto.
Qed.

(** A segment only depends on the two fields of each of its nodes. *)
Lemma lseg_ext h h' l p q :
  (forall a s, In (a, s) l ->
     Mem.load64 h' a = Mem.load64 h a /\
     Mem.load64 h' (a + 8) = Mem.load64 h (a + 8)) ->
  lseg h p l q -> lseg h' p l q.
Proof.
  revert p. induction l as [ | [a s] r IH ]; intros p Hext; cbn [lseg]; [ trivial | ].
  intros (Hp & Ha & Hs & Hr).
  destruct (Hext a s (or_introl eq_refl)) as [E1 E2].
  rewrite E1, E2. repeat split; trivial.
  apply IH; [ | exact Hr ]. intros a' s' Hin. apply (Hext a' s'). now right.
Qed.

Lemma chain_In lo l hi a s :
  chain lo l hi -> In (a, s) l -> lo <= a /\ 16 <= s /\ a + s <= hi.
Proof.
  revert lo. induction l as [ | [a' s'] r IH ]; intros lo Hc Hin; [ destruct Hin | ].
  cbn [chain] in Hc. destruct Hc as (H1 & H2 & H3).
  assert (Hhi : a' + s' <= hi).
  { clear - H3. revert H3. generalize (a' + s'). induction r as [ | [x y] r IH ];
      intros z; cbn [chain]; [ trivial | ].
    intros (K1 & K2 & K3). specialize (IH _ K3). lia. }
  destruct Hin as [ E | Hin ].
  - inversion E; subst. lia.
  - specialize (IH _ H3 Hin). lia.
Qed.

Lemma chain_bounds lo l hi : chain lo l hi -> lo <= hi.
Proof.
  revert lo. induction l as [ | [a s] r IH ]; intros lo; cbn [chain]; [ trivial | ].
  intros (H1 & H2 & H3). specialize (IH _ H3). lia.
Qed.

Lemma chain_weaken lo lo' l hi hi' :
  chain lo l hi -> lo' <= lo -> hi <= hi' -> chain lo' l hi'.
Proof.
  revert lo lo'. induction l as [ | [a s] r IH ]; intros lo lo'; cbn [chain].
  - lia.
  - intros (H1 & H2 & H3) Hlo Hhi. repeat split; try lia.
    apply (IH (a + s)); trivial. lia.
Qed.

Lemma chain_app lo l1 l2 hi :
  chain lo (l1 ++ l2) hi <-> exists mid, chain lo l1 mid /\ chain mid l2 hi.
Proof.
  revert lo. induction l1 as [ | [a s] r IH ]; intros lo; cbn [chain app].
  - split.
    + intros H. exists lo. split; [ lia | exact H ].
    + intros (mid & H1 & H2). apply (chain_weaken mid lo l2 hi hi); trivial. lia.
  - rewrite IH. split.
    + intros (H1 & H2 & mid & H3 & H4). exists mid. tauto.
    + intros (mid & (H1 & H2 & H3) & H4). repeat split; trivial. exists mid. tauto.
Qed.

(** A write outside the span of a chain leaves its list as it was. *)
Lemma lseg_store_away h x v lo l hi p q :
  chain lo l hi -> x + 8 <= lo \/ hi <= x ->
  lseg h p l q -> lseg (Mem.store64 h x v) p l q.
Proof.
  intros Hc Hx. apply lseg_ext. intros a s Hin.
  destruct (chain_In _ _ _ _ _ Hc Hin) as (H1 & H2 & H3).
  split; apply MemFacts.load_store_other; lia.
Qed.

Lemma lseg_nil_head h l q : lseg h 0 l q -> l = [] /\ q = 0.
Proof.
  destruct l as [ | [a s] r ]; cbn [lseg].
  - intros <-. split; reflexivity.
  - intros (-> & Ha & _). contradiction.
Qed.

(** *** Segments of the region *)

Lemma total_app s1 s2 : total (s1 ++ s2) = total s1 + total s2.
Proof.
  induction s1 as [ | [s f] r IH ]; cbn [total app]; [ reflexivity | ].
  rewrite IH. lia.
Qed.

Lemma total_bound segs :
  Forall (fun sg : segment => 16 <= fst sg) segs ->
  16 * Z.of_nat (length segs) <= total segs.
Proof.
  induction 1 as [ | [s f] r H _ IH ]; cbn [total length]; [ lia | ].
  cbn in H. lia.
Qed.

Lemma nodes_app tag a s1 s2 :
  nodes tag a (s1 ++ s2) = nodes tag a s1 ++ nodes tag (a + total s1) s2.
Proof.
  revert a. induction s1 as [ | [s f] r IH ]; intros a; cbn [nodes total app].
  - f_equal. lia.
  - rewrite IH. replace (a + s + total r) with (a + (s + total r)) by lia.
    destruct (eqb f tag); reflexivity.
Qed.

Lemma nodes_length tag a segs : (length (nodes tag a segs) <= length segs)%nat.
Proof.
  revert a. induction segs as [ | [s f] r IH ]; intros a; cbn [nodes length]; [ lia | ].
  specialize (IH (a + s)). destruct (eqb f tag); cbn [length]; lia.
Qed.

Lemma nodes_chain tag a segs :
  Forall (fun sg : segment => 16 <= fst sg) segs ->
  chain a (nodes tag a segs) (a + total segs).
Proof.
  intros H. revert a. induction H as [ | [s f] r H _ IH ]; intros a;
    cbn [nodes total chain]; [ lia | ].
  cbn in H. specialize (IH (a + s)).
  replace (a + (s + total r)) with (a + s + total r) by lia.
  destruct (eqb f tag); cbn [chain].
  - repeat split; trivial; lia.
  - apply (chain_weaken (a + s) a _ (a + s + total r) (a + s + total r)); trivial; lia.
Qed.

(** A node of the list of nodes is a segment of the region. *)
Lemma nodes_split tag a segs l1 b s l2 :
  nodes tag a segs = l1 ++ (b, s) :: l2 ->
  exists s1 s2, segs = s1 ++ (s, tag) :: s2 /\ nodes tag a s1 = l1 /\
    b = a + total s1 /\ nodes tag (b + s) s2 = l2.
Proof.
  revert a l1. induction segs as [ | [s0 f] r IH ]; intros a l1; cbn [nodes].
  - intros H. destruct l1; discriminate.
  - destruct (eqb f tag) eqn:E.
    + apply eqb_prop in E. subst f. destruct l1 as [ | n l1 ]; cbn [app]; intros H.
      * inversion H; subst. exists [], r. cbn [app nodes total].
        repeat split; trivial. lia.
      * inversion H as [[Hn Hr]]. destruct (IH _ _ Hr) as (s1 & s2 & -> & E1 & E2 & E3).
        exists ((s0, tag) :: s1), s2. cbn [app nodes total].
        rewrite eqb_reflx, E1. repeat split; trivial. lia.
    + intros H. destruct (IH _ _ H) as (s1 & s2 & -> & E1 & E2 & E3).
      exists ((s0, f) :: s1), s2. cbn [app nodes total]. rewrite E.
      repeat split; trivial. lia.
Qed.

(** Free and used segments do not overlap. *)
Lemma nodes_apart a segs a1 s1 a2 s2 :
  Forall (fun sg : segment => 16 <= fst sg) segs ->
  In (a1, s1) (nodes true a segs) -> In (a2, s2) (nodes false a segs) ->
  a1 + s1 <= a2 \/ a2 + s2 <= a1.
Proof.
  intros H. revert a. induction H as [ | [s f] r H HF IH ]; intros a;
    cbn [nodes]; [ intros [] | ].
  cbn in H. pose proof (nodes_chain true (a + s) r HF) as C1.
  pose proof (nodes_chain false (a + s) r HF) as C2.
  destruct f; cbn [eqb].
  - intros [ E | H1 ] H2.
    + inversion E; subst. destruct (chain_In _ _ _ _ _ C2 H2). lia.
    + now apply (IH (a + s)).
  - intros H1 [ E | H2 ].
    + inversion E; subst. destruct (chain_In _ _ _ _ _ C1 H1). lia.
    + now apply (IH (a + s)).
Qed.

(** *** The loops over the free list *)

Lemma last_snoc (l : list Z) x d : List.last (l ++ [x]) d = x.
Proof. apply last_last. Qed.

Lemma position_snoc done a s r req block prev :
  position ((done ++ [(a, s)]) ++ r) req block prev ->
  position (done ++ (a, s) :: r) req block prev.
Proof. now rewrite <- app_assoc. Qed.

Lemma first_fit_loop_position l :
  forall done h cur prev fuel req,
    flist h cur l -> prev = List.last (map fst done) 0 -> (length l < fuel)%nat ->
    exists block pb,
      first_fit_loop fuel h req cur prev = Some (block, pb) /\
      position (done ++ l) req block pb.
Proof.
  induction l as [ | [a s] r IH ]; intros done h cur prev fuel req Hl Hp Hf;
    (destruct fuel as [ | f ]; [ cbn in Hf; lia | ]); cbn [first_fit_loop].
  - cbn in Hl. subst cur. cbn. exists 0, 0. split; [ reflexivity | left; tauto ].
  - cbn [flist lseg] in Hl. destruct Hl as (-> & Ha & Hs & Hr).
    apply Z.eqb_neq in Ha. rewrite Ha, Hs.
    destruct (req <=? s) eqn:E.
    + exists a, prev. split; [ reflexivity | right ].
      exists done, s, r. apply Z.leb_le in E. tauto.
    + destruct (IH (done ++ [(a, s)]) h (Mem.load64 h (a + 8)) a f req Hr)
        as (block & pb & E1 & E2).
      * rewrite map_app. cbn [map fst]. now rewrite last_snoc.
      * cbn in Hf. lia.
      * exists block, pb. split; [ exact E1 | now apply position_snoc ].
Qed.

Lemma best_fit_loop_position l :
  forall done h cur prev best bp bs fuel req,
    flist h cur l -> prev = List.last (map fst done) 0 ->
    position (done ++ l) req best bp -> (length l < fuel)%nat ->
    exists block pb,
      best_fit_loop fuel h req cur prev best bp bs = Some (block, pb) /\
      position (done ++ l) req block pb.
Proof.
  induction l as [ | [a s] r IH ]; intros done h cur prev best bp bs fuel req Hl Hp Hb Hf;
    (destruct fuel as [ | f ]; [ cbn in Hf; lia | ]); cbn [best_fit_loop].
  - cbn in Hl. subst cur. cbn. exists best, bp. split; [ reflexivity | exact Hb ].
  - cbn [flist lseg] in Hl. destruct Hl as (-> & Ha & Hs & Hr).
    apply Z.eqb_neq in Ha. rewrite Ha, Hs. cbv zeta.
    assert (Hprev : a = List.last (map fst (done ++ [(a, s)])) 0).
    { rewrite map_app. cbn [map fst]. now rewrite last_snoc. }
    assert (Hf' : (length r < f)%nat) by (cbn in Hf; lia).
    destruct ((req <=? s) && (s <? bs)) eqn:E.
    + apply andb_true_iff in E. destruct E as [E _]. apply Z.leb_le in E.
      destruct (IH (done ++ [(a, s)]) h (Mem.load64 h (a + 8)) a a prev s f req
                  Hr Hprev) as (block & pb & E1 & E2); trivial.
      * rewrite <- app_assoc. right. exists done, s, r. tauto.
      * exists block, pb. split; [ exact E1 | now apply position_snoc ].
    + destruct (IH (done ++ [(a, s)]) h (Mem.load64 h (a + 8)) a best bp bs f req
                  Hr Hprev) as (block & pb & E1 & E2); trivial.
      * now rewrite <- app_assoc.
      * exists block, pb. split; [ exact E1 | now apply position_snoc ].
Qed.

Lemma worst_fit_loop_position l :
  forall done h cur prev worst wp ws fuel req,
    flist h cur l -> prev = List.last (map fst done) 0 ->
    position (done ++ l) req worst wp -> (length l < fuel)%nat ->
    exists block pb,
      worst_fit_loop fuel h req cur prev worst wp ws = Some (block, pb) /\
      position (done ++ l) req block pb.
Proof.
  induction l as [ | [a s] r IH ]; intros done h cur prev worst wp ws fuel req Hl Hp Hb Hf;
    (destruct fuel as [ | f ]; [ cbn in Hf; lia | ]); cbn [worst_fit_loop].
  - cbn in Hl. subst cur. cbn. exists worst, wp. split; [ reflexivity | exact Hb ].
  - cbn [flist lseg] in Hl. destruct Hl as (-> & Ha & Hs & Hr).
    apply Z.eqb_neq in Ha. rewrite Ha, Hs. cbv zeta.
    assert (Hprev : a = List.last (map fst (done ++ [(a, s)])) 0).
    { rewrite map_app. cbn [map fst]. now rewrite last_snoc. }
    assert (Hf' : (length r < f)%nat) by (cbn in Hf; lia).
    destruct ((req <=? s) && (ws <? s)) eqn:E.
    + apply andb_true_iff in E. destruct E as [E _]. apply Z.leb_le in E.
      destruct (IH (done ++ [(a, s)]) h (Mem.load64 h (a + 8)) a a prev s f req
                  Hr Hprev) as (block & pb & E1 & E2); trivial.
      * rewrite <- app_assoc. right. exists done, s, r. tauto.
      * exists block, pb. split; [ exact E1 | now apply position_snoc ].
    + destruct (IH (done ++ [(a, s)]) h (Mem.load64 h (a + 8)) a worst wp ws f req
                  Hr Hprev) as (block & pb & E1 & E2); trivial.
      * now rewrite <- app_assoc.
      * exists block, pb. split; [ exact E1 | now apply position_snoc ].
Qed.

(** Whatever the policy, the search answers with a position of the
    free list. *)
Lemma find_fit_position st l fuel req :
  flist (heap st) (m_free_list st) l -> (length l < fuel)%nat ->
  exists block pb,
    find_fit fuel st req = Some (block, pb) /\ position l req block pb.
Proof.
  intros Hl Hf. unfold find_fit. destruct (m_policy st).
  - apply (first_fit_loop_position l []); trivial.
  - apply (best_fit_loop_position l []); trivial. left. tauto.
  - apply (worst_fit_loop_position l []); trivial. left. tauto.
Qed.

Lemma available_loop_value l :
  forall h cur acc fuel,
    flist h cur l -> (length l < fuel)%nat ->
    available_loop fuel h cur acc =
      Some (fold_left (fun t n => Word.wrap (t + snd n)) l acc).
Proof.
  induction l as [ | [a s] r IH ]; intros h cur acc fuel Hl Hf;
    (destruct fuel as [ | f ]; [ cbn in Hf; lia | ]); cbn [available_loop].
  - cbn in Hl. subst cur. reflexivity.
  - cbn [flist lseg] in Hl. destruct Hl as (-> & Ha & Hs & Hr).
    apply Z.eqb_neq in Ha. rewrite Ha, Hs. cbn [fold_left snd].
    apply IH; [ exact Hr | cbn in Hf; lia ].
Qed.

Lemma count_loop_value l :
  forall h cur acc fuel,
    flist h cur l -> (length l < fuel)%nat ->
    count_loop fuel h cur acc =
      Some (fold_left (fun c _ => Word.wrap (c + 1)) l acc).
Proof.
  induction l as [ | [a s] r IH ]; intros h cur acc fuel Hl Hf;
    (destruct fuel as [ | f ]; [ cbn in Hf; lia | ]); cbn [count_loop].
  - cbn in Hl. subst cur. reflexivity.
  - cbn [flist lseg] in Hl. destruct Hl as (-> & Ha & Hs & Hr).
    apply Z.eqb_neq in Ha. rewrite Ha. cbn [fold_left].
    apply IH; [ exact Hr | cbn in Hf; lia ].
Qed.

Lemma largest_loop_value l :
  forall h cur acc fuel,
    flist h cur l -> (length l < fuel)%nat ->
    largest_loop fuel h cur acc =
      Some (fold_left (fun m n => if m <? snd n then snd n else m) l acc).
Proof.
  induction l as [ | [a s] r IH ]; intros h cur acc fuel Hl Hf;
    (destruct fuel as [ | f ]; [ cbn in Hf; lia | ]); cbn [largest_loop].
  - cbn in Hl. subst cur. reflexivity.
  - cbn [flist lseg] in Hl. destruct Hl as (-> & Ha & Hs & Hr).
    apply Z.eqb_neq in Ha. rewrite Ha, Hs. cbn [fold_left snd].
    apply IH; [ exact Hr | cbn in Hf; lia ].
Qed.

(** With the free list in order, [update_fragmentation] finishes and
    touches nothing but the estimate. *)
Lemma update_fragmentation_total st l fuel :
  flist (heap st) (m_free_list st) l -> (length l < fuel)%nat ->
  exists v,
    update_fragmentation fuel st =
      Some (mkFreeList (set_fragmentation (base st) v) (m_policy st)
              (m_memory st) (m_free_list st) (heap st)).
Proof.
  intros Hl Hf. unfold update_fragmentation, available, largest_free_block.
  rewrite (available_loop_value l), (largest_loop_value l) by trivial.
  eexists. reflexivity.
Qed.

(** The loop of [insert_free_block] stops at the last node in front of
    the block. *)
Lemma insert_loop_last l :
  forall c cs h cur q b fuel,
    lseg h cur (l ++ [(c, cs)]) q ->
    Forall (fun n => fst n < b) (l ++ [(c, cs)]) ->
    q = 0 \/ b <= q -> (length l < fuel)%nat ->
    insert_loop fuel h b cur = Some c.
Proof.
  induction l as [ | [a s] r IH ]; intros c cs h cur q b fuel Hl Hlt Hq Hf;
    (destruct fuel as [ | f ]; [ cbn in Hf; lia | ]); cbn [insert_loop].
  - cbn [app lseg] in Hl. destruct Hl as (-> & Hc & Hs & Hn). rewrite Hn.
    replace (negb (q =? 0) && (q <? b)) with false; [ reflexivity | ].
    symmetry. destruct Hq as [ -> | Hq ]; [ reflexivity | ].
    apply andb_false_iff. right. apply Z.ltb_ge. exact Hq.
  - cbn [app lseg] in Hl. destruct Hl as (-> & Ha & Hs & Hr).
    inversion Hlt as [ | ? ? _ Hlt' ]; subst.
    assert (Hnext : Mem.load64 h (a + 8) <> 0 /\ Mem.load64 h (a + 8) < b).
    { destruct r as [ | [a' s'] r' ]; cbn [app lseg] in Hr;
        destruct Hr as (-> & Hn & _); inversion Hlt' as [ | ? ? K _ ]; subst;
        cbn in K; tauto. }
    destruct Hnext as [N1 N2]. apply Z.eqb_neq in N1. apply Z.ltb_lt in N2.
    rewrite N1, N2. cbn [negb andb].
    apply (IH c cs h _ q b f Hr Hlt' Hq). cbn in Hf. lia.
Qed.

(** *** Coalescing *)

Lemma load64_ext h h' a :
  (forall x, a <= x < a + 8 -> h' x = h x) -> Mem.load64 h' a = Mem.load64 h a.
Proof.
  intros H. unfold Mem.load64. apply MemFacts.load_bytes_ext.
  intros i Hi. apply H. change (Z.of_nat 8) with 8 in Hi. lia.
Qed.

Lemma coalesce_loop_spec rest :
  forall a s h fuel lo hi,
    lseg h a ((a, s) :: rest) 0 -> chain lo ((a, s) :: rest) hi ->
    0 < lo -> hi < Word.modulus -> (length rest < fuel)%nat ->
    exists h',
      coalesce_loop fuel h a = Some h' /\
      lseg h' a (coalesce_from (a, s) rest) 0 /\
      (forall x, off_nodes ((a, s) :: rest) x -> h' x = h x).
Proof.
  induction rest as [ | [a' s'] r IH ]; intros a s h fuel lo hi Hl Hc Hlo Hhi Hf;
    (destruct fuel as [ | f ]; [ cbn in Hf; lia | ]); cbn [coalesce_loop];
    cbn [lseg] in Hl; destruct Hl as (_ & Ha & Hs & Hr).
  - apply Z.eqb_neq in Ha. rewrite Ha, Hr. cbn.
    exists h. repeat split; trivial. now apply Z.eqb_neq.
  - destruct Hr as (Hn & Ha' & Hs' & Hr).
    cbn [chain] in Hc. destruct Hc as (C1 & C2 & C3 & C4 & C5).
    pose proof (chain_bounds _ _ _ C5) as C6.
    pose proof Ha as Ha0. apply Z.eqb_neq in Ha0. rewrite Ha0.
    pose proof Ha' as Ha'0. rewrite <- Hn in Ha'0. apply Z.eqb_neq in Ha'0.
    rewrite Ha'0. rewrite Hs, Hn.
    rewrite (WordFacts.wrap_small (a + s)) by lia.
    cbn [coalesce_from fst snd].
    assert (Hf' : (length r < f)%nat) by (cbn in Hf; lia).
    destruct (a + s =? a') eqn:E.
    + apply Z.eqb_eq in E. rewrite Hs'.
      rewrite (WordFacts.wrap_small (s + s')) by lia.
      set (h1 := Mem.store64 h a (s + s')).
      assert (E1 : Mem.load64 h1 (a + 8) = a').
      { unfold h1. rewrite MemFacts.load_store_other by lia. exact Hn. }
      rewrite E1.
      assert (E2 : Mem.load64 h1 (a' + 8) = Mem.load64 h (a' + 8)).
      { unfold h1. rewrite MemFacts.load_store_other by lia. reflexivity. }
      rewrite E2.
      set (h2 := Mem.store64 h1 (a + 8) (Mem.load64 h (a' + 8))).
      pose proof (MemFacts.load64_range h (a' + 8)) as Rn.
      assert (Hl2 : lseg h2 a ((a, s + s') :: r) 0).
      { cbn [lseg]. repeat split; trivial.
        - unfold h2, h1. rewrite MemFacts.load_store_other by lia.
          rewrite MemFacts.load_store_same. apply WordFacts.wrap_small. lia.
        - unfold h2. rewrite MemFacts.load_store_same.
          rewrite WordFacts.wrap_small by exact Rn.
          apply (lseg_store_away _ _ _ (a' + s') r hi); [ exact C5 | lia | ].
          apply (lseg_store_away _ _ _ (a' + s') r hi); [ exact C5 | lia | exact Hr ]. }
      assert (Hc2 : chain lo ((a, s + s') :: r) hi).
      { cbn [chain]. repeat split; try lia.
        replace (a + (s + s')) with (a' + s') by lia. exact C5. }
      destruct (IH a (s + s') h2 f lo hi Hl2 Hc2 Hlo Hhi Hf') as (h' & R1 & R2 & R3).
      exists h'. repeat split; trivial.
      intros x Hx. inversion Hx as [ | ? ? X1 X2 ]; subst.
      inversion X2 as [ | ? ? X3 X4 ]; subst. cbn [fst] in *.
      rewrite R3 by (constructor; trivial).
      unfold h2, h1. rewrite !MemFacts.store64_outside by lia. reflexivity.
    + apply Z.eqb_neq in E.
      assert (Hl' : lseg h a' ((a', s') :: r) 0).
      { cbn [lseg]. repeat split; trivial. }
      assert (Hc' : chain (a + s) ((a', s') :: r) hi).
      { cbn [chain]. repeat split; trivial. }
      assert (Hlo' : 0 < a + s) by lia.
      destruct (IH a' s' h f (a + s) hi Hl' Hc' Hlo' Hhi Hf') as (h' & R1 & R2 & R3).
      exists h'. split; [ exact R1 | ].
      assert (Hoff : forall x, a <= x < a + 16 -> off_nodes ((a', s') :: r) x).
      { intros x Hx. constructor; [ cbn; lia | ].
        apply List.Forall_forall. intros [b t] Hin.
        destruct (chain_In _ _ _ _ _ C5 Hin). cbn. lia. }
      split.
      * cbn [lseg]. repeat split; trivial.
        -- rewrite <- Hs. apply load64_ext. intros x Hx. apply R3, Hoff. lia.
        -- replace (Mem.load64 h' (a + 8)) with a'; [ exact R2 | ].
           rewrite <- Hn. symmetry. apply load64_ext.
           intros x Hx. apply R3, Hoff. lia.
      * intros x Hx. inversion Hx; subst. now apply R3.
Qed.

(** *** Merging free segments *)

Lemma nodes_lower tag a segs b s :
  Forall (fun sg : segment => 16 <= fst sg) segs ->
  In (b, s) (nodes tag a segs) -> a <= b.
Proof.
  intros H Hin. destruct (chain_In _ _ _ _ _ (nodes_chain tag a segs H) Hin). lia.
Qed.

Lemma merge_free_nodes segs :
  Forall (fun sg : segment => 16 <= fst sg) segs ->
  forall a acc,
    nodes true (a - run_of acc) (merge_free acc segs) =
      match acc with
      | Some run => coalesce_from (a - run, run) (nodes true a segs)
      | None => coalesce_nodes (nodes true a segs)
      end.
Proof.
  induction 1 as [ | [s f] r Hs Hr IH ]; intros a acc.
  - destruct acc; reflexivity.
  - cbn in Hs. destruct f; cbn [merge_free nodes eqb].
    + destruct acc as [ run | ]; cbn [run_of coalesce_nodes coalesce_from fst snd].
      * replace (a - run + run =? a) with true by (symmetry; apply Z.eqb_eq; lia).
        replace (a - run) with (a + s - (run + s)) by lia.
        exact (IH (a + s) (Some (run + s))).
      * replace (a - 0) with (a + s - s) by lia.
        replace a with (a + s - s) at 2 by lia.
        exact (IH (a + s) (Some s)).
    + destruct acc as [ run | ]; cbn [run_of flush app nodes eqb].
      * replace (a - run + run + s) with (a + s - run_of None) by (cbn; lia).
        rewrite IH.
        destruct (nodes true (a + s) r) as [ | [b t] l ] eqn:E;
          cbn [coalesce_nodes coalesce_from fst snd]; [ reflexivity | ].
        assert (a + s <= b).
        { apply (nodes_lower true (a + s) r b t Hr). rewrite E. now left. }
        replace (a - run + run =? b) with false by (symmetry; apply Z.eqb_neq; lia).
        reflexivity.
      * replace (a - 0 + s) with (a + s - run_of None) by (cbn; lia).
        apply IH.
Qed.

Lemma merge_free_used segs :
  forall a acc,
    nodes false (a - run_of acc) (merge_free acc segs) = nodes false a segs.
Proof.
  induction segs as [ | [s f] r IH ]; intros a acc.
  - destruct acc; reflexivity.
  - destruct f; cbn [merge_free nodes eqb].
    + rewrite <- (IH (a + s) (Some (match acc with Some run => run + s | None => s end))).
      f_equal. destruct acc; cbn [run_of]; lia.
    + destruct acc as [ run | ]; cbn [run_of flush app nodes eqb].
      * f_equal; [ f_equal; lia | ].
        rewrite <- (IH (a + s) None). f_equal. cbn. lia.
      * f_equal; [ f_equal; lia | ].
        rewrite <- (IH (a + s) None). f_equal. cbn. lia.
Qed.

Lemma merge_free_total segs :
  forall acc, total (merge_free acc segs) = run_of acc + total segs.
Proof.
  induction segs as [ | [s f] r IH ]; intros acc.
  - destruct acc; cbn; lia.
  - destruct f; cbn [merge_free total].
    + rewrite IH. destruct acc; cbn; lia.
    + rewrite total_app. cbn [total]. rewrite IH. destruct acc; cbn; lia.
Qed.

Lemma merge_free_sizes segs :
  Forall (fun sg : segment => 16 <= fst sg) segs ->
  forall acc, 16 <= run_of acc \/ acc = None ->
    Forall (fun sg : segment => 16 <= fst sg) (merge_free acc segs).
Proof.
  induction 1 as [ | [s f] r Hs Hr IH ]; intros acc Hacc.
  - destruct acc as [ run | ]; cbn; [ | constructor ].
    constructor; [ | constructor ]. cbn. destruct Hacc; [ trivial | discriminate ].
  - cbn in Hs. destruct f; cbn [merge_free].
    + apply IH. left. destruct acc as [ run | ]; cbn; [ | lia ].
      destruct Hacc as [ Hacc | ]; [ cbn in Hacc; lia | discriminate ].
    + apply List.Forall_app. split.
      * destruct acc as [ run | ]; cbn; [ | constructor ].
        constructor; [ | constructor ]. cbn.
        destruct Hacc; [ trivial | discriminate ].
      * constructor; [ exact Hs | ]. apply IH. now right.
Qed.

(** When no segment is in use, merging leaves one free segment. *)
Lemma merge_free_all_free segs :
  forall a acc,
    nodes false a segs = [] -> acc <> None \/ segs <> [] ->
    merge_free acc segs = [(run_of acc + total segs, true)].
Proof.
  induction segs as [ | [s f] r IH ]; intros a acc Hu Hne.
  - destruct acc as [ run | ]; cbn; [ f_equal; f_equal; lia | ].
    destruct Hne; contradiction.
  - destruct f; cbn [nodes eqb] in Hu; [ | discriminate ].
    cbn [merge_free total]. rewrite (IH (a + s)); trivial.
    + f_equal. f_equal. destruct acc; cbn; lia.
    + left. discriminate.
Qed.

(** *** Taking a block out of the free list *)

Lemma list_rev_cases {A} (l : list A) : l = [] \/ exists l' x, l = l' ++ [x].
Proof.
  destruct l as [ | a l ] using rev_ind; [ now left | right ]. now exists l, a.
Qed.

Lemma total_nonneg segs :
  Forall (fun sg : segment => 16 <= fst sg) segs -> 0 <= total segs.
Proof. intros H. pose proof (total_bound segs H). lia. Qed.

Ltac mem_simpl :=
  repeat first
    [ rewrite MemFacts.load_store_same
    | rewrite MemFacts.load_store_other by lia ].

Lemma used_store_away h x v lo l hi :
  chain lo l hi -> x + 8 <= lo \/ hi <= x ->
  Forall (fun n => Mem.load64 h (fst n) = snd n) l ->
  Forall (fun n => Mem.load64 (Mem.store64 h x v) (fst n) = snd n) l.
Proof.
  intros Hc Hx Hu. apply List.Forall_forall. intros [a s] Hin.
  destruct (chain_In _ _ _ _ _ Hc Hin) as (H1 & H2 & H3).
  rewrite List.Forall_forall in Hu. specialize (Hu _ Hin). cbn [fst snd] in *.
  rewrite MemFacts.load_store_other by lia. exact Hu.
Qed.

(** A write into the link of a free node leaves the used headers of
    the same layout as they were. *)
Lemma used_store_link h a segs c cs v :
  Forall (fun sg : segment => 16 <= fst sg) segs ->
  In (c, cs) (nodes true a segs) ->
  Forall (fun n => Mem.load64 h (fst n) = snd n) (nodes false a segs) ->
  Forall (fun n => Mem.load64 (Mem.store64 h (c + 8) v) (fst n) = snd n)
    (nodes false a segs).
Proof.
  intros Hs Hc Hu. apply List.Forall_forall. intros [b t] Hin.
  rewrite List.Forall_forall in Hu. specialize (Hu _ Hin). cbn [fst snd] in *.
  destruct (nodes_apart a segs c cs b t Hs Hc Hin) as [ H | H ];
    destruct (chain_In _ _ _ _ _ (nodes_chain true a segs Hs) Hc) as (_ & K1 & _);
    destruct (chain_In _ _ _ _ _ (nodes_chain false a segs Hs) Hin) as (_ & K2 & _);
    rewrite MemFacts.load_store_other by lia; exact Hu.
Qed.

Lemma carve_layout h fl M S1 s S2 r :
  0 < M -> M + total (S1 ++ (s, true) :: S2) < Word.modulus ->
  Forall (fun sg : segment => 16 <= fst sg) (S1 ++ (s, true) :: S2) ->
  flist h fl (nodes true M (S1 ++ (s, true) :: S2)) ->
  Forall (fun n => Mem.load64 h (fst n) = snd n)
    (nodes false M (S1 ++ (s, true) :: S2)) ->
  16 <= r <= s ->
  let block := M + total S1 in
  let pb := List.last (map fst (nodes true M S1)) 0 in
  let mid := if 32 <=? s - r then [(r, false); (s - r, true)] else [(s, false)] in
  exists head h',
    carve h fl block pb r = (if 32 <=? s - r then r else s, head, h') /\
    let h3 :=
      Mem.store64 (Mem.store64 h' block (if 32 <=? s - r then r else s))
        (block + 8) 0 in
    flist h3 head (nodes true M (S1 ++ mid ++ S2)) /\
    Forall (fun n => Mem.load64 h3 (fst n) = snd n)
      (nodes false M (S1 ++ mid ++ S2)).
Proof.
  intros HM Hreg Hsz Hfl Hused Hr block pb mid.
  apply List.Forall_app in Hsz. destruct Hsz as [Hsz1 Hsz2].
  inversion Hsz2 as [ | ? ? Hs16 Hsz3 ]; subst. cbn [fst] in Hs16.
  pose proof (total_nonneg S1 Hsz1) as T1. pose proof (total_nonneg S2 Hsz3) as T2.
  rewrite total_app in Hreg. cbn [total] in Hreg.
  rewrite nodes_app in Hfl, Hused. cbn [nodes eqb] in Hfl, Hused.
  fold block in Hfl, Hused.
  apply List.Forall_app in Hused. destruct Hused as [Hu1 Hu2].
  unfold flist in Hfl. apply lseg_app in Hfl. destruct Hfl as (m & Hl1 & Hl2).
  cbn [lseg] in Hl2. destruct Hl2 as (-> & Hb0 & Hbs & Hl2).
  pose proof (nodes_chain true M S1 Hsz1) as C1. fold block in C1.
  pose proof (nodes_chain false M S1 Hsz1) as D1. fold block in D1.
  pose proof (nodes_chain true (block + s) S2 Hsz3) as C2.
  pose proof (nodes_chain false (block + s) S2 Hsz3) as D2.
  pose proof (MemFacts.load64_range h (block + 8)) as Rn. unfold Word.in_range in Rn.
  unfold carve. rewrite Hbs.
  rewrite (WordFacts.wrap_small (s - r)) by lia.
  change (free_block_size + MIN_BLOCK_SIZE) with 32.
  unfold mid. clear mid.
  rewrite !nodes_app. fold block.
  destruct (32 <=? s - r) eqn:Esplit.
  - (* the block is split *)
    apply Z.leb_le in Esplit.
    rewrite (WordFacts.wrap_small (block + r)) by lia.
    cbn [nodes eqb total app].
    replace (block + (r + (s - r + 0))) with (block + s) by lia.
    replace (block + r + (s - r)) with (block + s) by lia.
    rewrite (MemFacts.load_store_other h (block + r)) by lia.
    destruct (list_rev_cases (nodes true M S1)) as [ E | (l' & [c cs] & E) ].
    + (* the block is the head of the list *)
      subst pb. rewrite E in *. cbn [map List.last]. cbn [lseg] in Hl1. subst fl.
      rewrite Z.eqb_refl. do 2 eexists. split; [ reflexivity | ]. cbv zeta. split.
      * unfold flist. cbn [app lseg]. repeat split; try lia.
        -- mem_simpl. apply WordFacts.wrap_small. lia.
        -- mem_simpl. rewrite WordFacts.wrap_small by lia.
           repeat (apply (lseg_store_away _ _ _ (block + s) _ _ _ _ C2);
                   [ lia | ]).
           exact Hl2.
      * apply List.Forall_app. split; [ | constructor ].
        -- repeat (apply (used_store_away _ _ _ M _ block D1); [ lia | ]).
           exact Hu1.
        -- cbn [fst snd]. mem_simpl. apply WordFacts.wrap_small. lia.
        -- repeat (apply (used_store_away _ _ _ (block + s) _ _ D2); [ lia | ]).
           exact Hu2.
    + (* the block follows the node [c] *)
      assert (Hin : In (c, cs) (nodes true M S1)).
      { rewrite E. apply in_or_app. right. now left. }
      destruct (chain_In _ _ _ _ _ C1 Hin) as (K1 & K2 & K3).
      subst pb. rewrite E in *. rewrite map_app. cbn [map fst]. rewrite last_snoc.
      assert (Hin0 : In (c, cs) (nodes true M S1)) by (rewrite E; exact Hin).
      replace (c =? 0) with false by (symmetry; apply Z.eqb_neq; lia).
      apply lseg_app in Hl1. destruct Hl1 as (m & Hl1 & Hc).
      cbn [lseg] in Hc. destruct Hc as (-> & Hc0 & Hcs & Hcn).
      apply chain_app in C1. destruct C1 as (mid & C1 & C1').
      cbn [chain] in C1'.
      do 2 eexists. split; [ reflexivity | ]. cbv zeta. split.
      * unfold flist. rewrite <- app_assoc. apply lseg_app. exists c. split.
        -- repeat (apply (lseg_store_away _ _ _ M _ mid _ _ C1); [ lia | ]).
           exact Hl1.
        -- cbn [app lseg]. repeat split; try lia.
           ++ mem_simpl. exact Hcs.
           ++ mem_simpl. apply WordFacts.wrap_small. lia.
           ++ mem_simpl. apply WordFacts.wrap_small. lia.
           ++ mem_simpl. rewrite WordFacts.wrap_small by lia.
              repeat (apply (lseg_store_away _ _ _ (block + s) _ _ _ _ C2);
                      [ lia | ]).
              exact Hl2.
      * apply List.Forall_app. split; [ | constructor ].
        -- repeat (apply (used_store_away _ _ _ M _ block D1); [ lia | ]).
           apply (used_store_link _ M S1 c cs); trivial.
           repeat (apply (used_store_away _ _ _ M _ block D1); [ lia | ]).
           exact Hu1.
        -- cbn [fst snd]. mem_simpl. apply WordFacts.wrap_small. lia.
        -- repeat (apply (used_store_away _ _ _ (block + s) _ _ D2); [ lia | ]).
           exact Hu2.
  - (* the block is used whole *)
    apply Z.leb_gt in Esplit.
    cbn [nodes eqb total app].
    replace (block + (s + 0)) with (block + s) by lia.
    destruct (list_rev_cases (nodes true M S1)) as [ E | (l' & [c cs] & E) ].
    + subst pb. rewrite E in *. cbn [map List.last]. cbn [lseg] in Hl1. subst fl.
      rewrite Z.eqb_refl. do 2 eexists. split; [ reflexivity | ]. cbv zeta. split.
      * unfold flist. cbn [app].
        repeat (apply (lseg_store_away _ _ _ (block + s) _ _ _ _ C2); [ lia | ]).
        exact Hl2.
      * apply List.Forall_app. split; [ | constructor ].
        -- repeat (apply (used_store_away _ _ _ M _ block D1); [ lia | ]).
           exact Hu1.
        -- cbn [fst snd]. mem_simpl. apply WordFacts.wrap_small. lia.
        -- repeat (apply (used_store_away _ _ _ (block + s) _ _ D2); [ lia | ]).
           exact Hu2.
    + assert (Hin : In (c, cs) (nodes true M S1)).
      { rewrite E. apply in_or_app. right. now left. }
      destruct (chain_In _ _ _ _ _ C1 Hin) as (K1 & K2 & K3).
      subst pb. rewrite E in *. rewrite map_app. cbn [map fst]. rewrite last_snoc.
      assert (Hin0 : In (c, cs) (nodes true M S1)) by (rewrite E; exact Hin).
      replace (c =? 0) with false by (symmetry; apply Z.eqb_neq; lia).
      apply lseg_app in Hl1. destruct Hl1 as (m & Hl1 & Hc).
      cbn [lseg] in Hc. destruct Hc as (-> & Hc0 & Hcs & Hcn).
      apply chain_app in C1. destruct C1 as (mid & C1 & C1').
      cbn [chain] in C1'.
      do 2 eexists. split; [ reflexivity | ]. cbv zeta. split.
      * unfold flist. rewrite <- app_assoc. apply lseg_app. exists c. split.
        -- repeat (apply (lseg_store_away _ _ _ M _ mid _ _ C1); [ lia | ]).
           exact Hl1.
        -- cbn [app lseg]. repeat split; try lia.
           ++ mem_simpl. exact Hcs.
           ++ mem_simpl. rewrite WordFacts.wrap_small by lia.
              repeat (apply (lseg_store_away _ _ _ (block + s) _ _ _ _ C2);
                      [ lia | ]).
              exact Hl2.
      * apply List.Forall_app. split; [ | constructor ].
        -- repeat (apply (used_store_away _ _ _ M _ block D1); [ lia | ]).
           apply (used_store_link _ M S1 c cs); trivial.
        -- cbn [fst snd]. mem_simpl. apply WordFacts.wrap_small. lia.
        -- repeat (apply (used_store_away _ _ _ (block + s) _ _ D2); [ lia | ]).
           exact Hu2.
Qed.

(** *** The operations keep the layout *)

Lemma fuel_covers tag a segs T fuel :
  Forall (fun sg : segment => 16 <= fst sg) segs -> total segs = T ->
  (Z.to_nat T < fuel)%nat -> (length (nodes tag a segs) < fuel)%nat.
Proof.
  intros Hs Ht Hf. pose proof (total_bound segs Hs).
  pose proof (nodes_length tag a segs). lia.
Qed.

Lemma construct_represents size policy buffer heap0 :
  0 < buffer -> free_block_size <= size -> buffer + size < Word.modulus ->
  represents (construct size policy buffer heap0) [(size, true)].
Proof.
  unfold free_block_size. intros Hb Hs Hr. unfold construct.
  replace (buffer =? 0) with false by (symmetry; apply Z.eqb_neq; lia).
  split; cbn; trivial.
  - lia.
  - constructor; [ cbn; lia | constructor ].
  - discriminate.
  - unfold flist. cbn [lseg]. repeat split; try lia.
    + mem_simpl. apply WordFacts.wrap_small. lia.
    + mem_simpl. reflexivity.
Qed.

Lemma reset_represents st segs :
  represents st segs -> represents (reset st) [(m_total_size st, true)].
Proof.
  intros [R1 R2 R3 R4 R5 R6 R7 R9 R8]. unfold reset.
  replace (m_memory st =? 0) with false by (symmetry; apply Z.eqb_neq; lia).
  pose proof (total_bound segs R4) as Hb.
  assert (0 < length segs)%nat by (destruct segs; [ contradiction | cbn; lia ]).
  unfold m_total_size in *.
  split; cbn; trivial.
  - lia.
  - constructor; [ cbn; lia | constructor ].
  - discriminate.
  - unfold flist. cbn [lseg]. repeat split; try lia.
    + mem_simpl. apply WordFacts.wrap_small. lia.
    + mem_simpl. reflexivity.
Qed.

Lemma set_policy_represents st segs policy :
  represents st segs -> represents (set_policy st policy) segs.
Proof. intros [R1 R2 R3 R4 R5 R6 R7 R9 R8]. split; trivial. Qed.

Lemma position_layout M segs req block pb :
  position (nodes true M segs) req block pb -> block <> 0 ->
  exists S1 s S2,
    segs = S1 ++ (s, true) :: S2 /\ block = M + total S1 /\ req <= s /\
    pb = List.last (map fst (nodes true M S1)) 0.
Proof.
  intros [ [Hb _] | (l1 & s & l2 & E & Hreq & Hpb) ] Hne; [ contradiction | ].
  destruct (nodes_split _ _ _ _ _ _ _ E) as (S1 & S2 & -> & E1 & E2 & E3).
  exists S1, s, S2. rewrite E1. tauto.
Qed.

Lemma request_size size alignment :
  request_ok size alignment -> size <> 0 ->
  size + header_size <=
    Word.align_size (Word.wrap (size + header_size)) alignment < Word.modulus.
Proof.
  unfold request_ok, header_size. intros (Ha & Hs & Hsum) Hne.
  rewrite (WordFacts.wrap_small (size + 16)) by lia.
  pose proof (WordFacts.align_size_bounds (size + 16) alignment
                ltac:(lia) ltac:(lia) ltac:(lia)). lia.
Qed.

Lemma allocate_represents st segs size alignment t fuel p st' :
  represents st segs -> request_ok size alignment -> enough_fuel st fuel ->
  allocate st size alignment t fuel = Some (p, st') ->
  (p = 0 /\ st' = st) \/
  (p <> 0 /\ exists segs',
     represents st' segs' /\ m_memory st' = m_memory st /\
     m_total_size st' = m_total_size st /\
     Permutation (live_of (m_memory st) segs') (p :: live_of (m_memory st) segs)).
Proof.
  intros [R1 R2 R3 R4 R5 R6 R7 R9 R8] Hreq Hfuel Hal. unfold allocate in Hal.
  replace (m_memory st =? 0) with false in Hal by (symmetry; apply Z.eqb_neq; lia).
  destruct (size =? 0) eqn:Ez; cbn [orb] in Hal.
  { inversion Hal. left. tauto. }
  apply Z.eqb_neq in Ez.
  pose proof (request_size size alignment Hreq Ez) as Hr.
  destruct Hreq as (_ & Hsize & _).
  set (r := Word.align_size (Word.wrap (size + header_size)) alignment) in *.
  unfold header_size in Hr.
  destruct (find_fit_position st _ fuel r R6
              (fuel_covers true _ segs _ fuel R4 R3 Hfuel))
    as (block & pb & Efind & Hpos).
  rewrite Efind in Hal.
  destruct (block =? 0) eqn:Eb.
  { inversion Hal. left. tauto. }
  apply Z.eqb_neq in Eb. right.
  destruct (position_layout _ _ _ _ _ Hpos Eb) as (S1 & s & S2 & -> & Hblock & Hrs & Hpb).
  rewrite <- R3 in R2.
  destruct (carve_layout (heap st) (m_free_list st) (m_memory st) S1 s S2 r
              R1 R2 R4 R6 R7 ltac:(lia)) as (head & h' & Ecarve & Hfl & Hused).
  rewrite <- Hblock in Ecarve, Hfl, Hused. rewrite <- Hpb in Ecarve.
  rewrite Ecarve in Hal. cbv zeta in Hfl, Hused.
  set (sz := if 32 <=? s - r then r else s) in *.
  set (mid := if 32 <=? s - r then [(r, false); (s - r, true)] else [(s, false)]) in *.
  set (h3 := Mem.store64 (Mem.store64 h' block sz) (block + 8) 0) in *.
  assert (Hsz : Forall (fun sg : segment => 16 <= fst sg) (S1 ++ mid ++ S2)).
  { apply List.Forall_app in R4. destruct R4 as [A1 A2].
    inversion A2 as [ | ? ? A3 A4 ]; subst. cbn [fst] in A3.
    apply List.Forall_app. split; [ exact A1 | ].
    apply List.Forall_app. split; [ | exact A4 ].
    unfold mid. destruct (32 <=? s - r) eqn:E.
    - apply Z.leb_le in E. repeat constructor; cbn [fst]; lia.
    - repeat constructor; cbn [fst]; lia. }
  assert (Htot : total (S1 ++ mid ++ S2) = m_total_size st).
  { rewrite <- R3. rewrite !total_app. cbn [total]. f_equal. f_equal.
    unfold mid. destruct (32 <=? s - r); cbn [total]; lia. }
  pose proof (total_nonneg S1 ltac:(apply List.Forall_app in R4; tauto)) as T1.
  assert (Hs16 : 16 <= s).
  { apply List.Forall_app in R4. destruct R4 as [_ A2]. now inversion A2. }
  assert (HT2 : 0 <= total S2).
  { apply total_nonneg. apply List.Forall_app in R4. destruct R4 as [_ A2].
    now inversion A2. }
  rewrite total_app in R2, R3. cbn [total] in R2, R3.
  match type of Hal with
  | context [update_fragmentation fuel ?x] =>
      destruct (update_fragmentation_total x _ fuel Hfl
                  (fuel_covers true _ _ _ fuel Hsz Htot Hfuel)) as (v & Eu)
  end.
  rewrite Eu in Hal. cbn [base m_policy m_memory m_free_list heap] in Hal.
  rewrite (WordFacts.wrap_small (block + header_size)) in Hal
    by (unfold header_size; lia).
  inversion Hal as [[Hp Hst]]. clear Hal Eu Efind Ecarve.
  split; [ unfold header_size; lia | ].
  assert (Hlive : nodes false (m_memory st) (S1 ++ mid ++ S2) =
                  nodes false (m_memory st) S1 ++
                  (block, sz) :: nodes false (block + s) S2).
  { rewrite !nodes_app. rewrite <- Hblock. f_equal.
    unfold mid, sz. destruct (32 <=? s - r); cbn [nodes eqb total app];
      repeat f_equal; lia. }
  exists (S1 ++ mid ++ S2). repeat split; cbn; trivial.
  - unfold m_total_size in *. cbn. lia.
  - intros E. destruct S1; discriminate || (destruct mid eqn:Em; [ | discriminate ]).
    unfold mid in Em. destruct (32 <=? s - r); discriminate.
  - rewrite Hlive. rewrite nodes_app in R9. cbn [nodes eqb] in R9.
    rewrite <- Hblock in R9. apply List.Forall_app in R9. destruct R9 as [A1 A2].
    apply List.Forall_app. split; [ exact A1 | ]. constructor; [ | exact A2 ].
    cbn [snd]. unfold sz, header_size. destruct (32 <=? s - r); lia.
  - rewrite Hlive. intros E. destruct (nodes false (m_memory st) S1); discriminate.
  - unfold live_of. rewrite Hlive. rewrite nodes_app. cbn [nodes eqb].
    rewrite <- Hblock. rewrite !map_app. cbn [map fst].
    symmetry. apply Permutation_middle.
Qed.

(** *** Giving a block back to the free list *)

Lemma lseg_head h p a s r q : lseg h p ((a, s) :: r) q -> p = a.
Proof. cbn [lseg]. tauto. Qed.

Lemma chain_lt lo l hi b :
  chain lo l hi -> hi <= b -> Forall (fun n => fst n < b) l.
Proof.
  intros Hc Hb. apply List.Forall_forall. intros [a s] Hin.
  destruct (chain_In _ _ _ _ _ Hc Hin). cbn. lia.
Qed.

Lemma insert_layout h fl M S1 s S2 fuel :
  0 < M -> M + total (S1 ++ (s, false) :: S2) < Word.modulus ->
  Forall (fun sg : segment => 16 <= fst sg) (S1 ++ (s, false) :: S2) ->
  flist h fl (nodes true M (S1 ++ (s, false) :: S2)) ->
  Forall (fun n => Mem.load64 h (fst n) = snd n)
    (nodes false M (S1 ++ (s, false) :: S2)) ->
  (length (nodes true M S1) < fuel)%nat ->
  let b := M + total S1 in
  exists head h',
    insert_free_block fuel fl (Mem.store64 h b s) b = Some (head, h') /\
    flist h' head (nodes true M (S1 ++ (s, true) :: S2)) /\
    Forall (fun n => Mem.load64 h' (fst n) = snd n)
      (nodes false M (S1 ++ (s, true) :: S2)).
Proof.
  intros HM Hreg Hsz Hfl Hused Hfuel b.
  apply List.Forall_app in Hsz. destruct Hsz as [Hsz1 Hsz2].
  inversion Hsz2 as [ | ? ? Hs16 Hsz3 ]; subst. cbn [fst] in Hs16.
  pose proof (total_nonneg S1 Hsz1) as T1. pose proof (total_nonneg S2 Hsz3) as T2.
  rewrite total_app in Hreg. cbn [total] in Hreg.
  rewrite nodes_app in Hfl, Hused. cbn [nodes eqb] in Hfl, Hused.
  rewrite !nodes_app. cbn [nodes eqb]. fold b in Hfl, Hused |- *.
  apply List.Forall_app in Hused. destruct Hused as [Hu1 Hu2].
  inversion Hu2 as [ | ? ? Hbs Hu3 ]; subst. cbn [fst snd] in Hbs. clear Hu2.
  unfold flist in Hfl. apply lseg_app in Hfl. destruct Hfl as (m & Hl1 & Hl2).
  pose proof (nodes_chain true M S1 Hsz1) as C1. fold b in C1.
  pose proof (nodes_chain false M S1 Hsz1) as D1. fold b in D1.
  pose proof (nodes_chain true (b + s) S2 Hsz3) as C2.
  pose proof (nodes_chain false (b + s) S2 Hsz3) as D2.
  assert (Hm : m = 0 \/ b + s <= m).
  { destruct (nodes true (b + s) S2) as [ | [a2 s2] l2 ] eqn:E2.
    - cbn in Hl2. now left.
    - right. rewrite (lseg_head _ _ _ _ _ _ Hl2). cbn [chain] in C2. lia. }
  assert (Rm : 0 <= m < Word.modulus).
  { destruct Hm as [ -> | Hm ]; [ unfold Word.modulus; lia | ].
    destruct (nodes true (b + s) S2) as [ | [a2 s2] l2 ] eqn:E2.
    - cbn in Hl2. subst m. unfold Word.modulus. lia.
    - rewrite (lseg_head _ _ _ _ _ _ Hl2) in *.
      assert (Hin : In (a2, s2) (nodes true (b + s) S2)) by (rewrite E2; now left).
      rewrite <- E2 in C2.
      destruct (chain_In _ _ _ _ _ C2 Hin). lia. }
  unfold insert_free_block.
  destruct (list_rev_cases (nodes true M S1)) as [ E | (l' & [c cs] & E) ].
  - (* the block goes in front of the list *)
    rewrite E in *. cbn [lseg] in Hl1. subst m.
    replace ((fl =? 0) || (b <? fl)) with true.
    2:{ symmetry. apply orb_true_iff. destruct Hm as [ -> | Hm ]; [ now left | right ].
        apply Z.ltb_lt. lia. }
    do 2 eexists. split; [ reflexivity | ]. split.
    + unfold flist. cbn [app lseg]. repeat split; try lia.
      * mem_simpl. apply WordFacts.wrap_small. lia.
      * mem_simpl. rewrite WordFacts.wrap_small by lia.
        repeat (apply (lseg_store_away _ _ _ (b + s) _ _ _ _ C2); [ lia | ]).
        exact Hl2.
    + apply List.Forall_app. split.
      * repeat (apply (used_store_away _ _ _ M _ b D1); [ lia | ]). exact Hu1.
      * repeat (apply (used_store_away _ _ _ (b + s) _ _ D2); [ lia | ]). exact Hu3.
  - (* the block goes behind the node [c] *)
    assert (Hin : In (c, cs) (nodes true M S1)).
    { rewrite E. apply in_or_app. right. now left. }
    destruct (chain_In _ _ _ _ _ C1 Hin) as (K1 & K2 & K3).
    assert (Hfl : M <= fl < b).
    { rewrite E in Hl1, C1. destruct l' as [ | [a0 s0] l0 ]; cbn [app] in Hl1, C1;
        rewrite (lseg_head _ _ _ _ _ _ Hl1); cbn [chain] in C1.
      - lia.
      - destruct C1 as (X1 & X2 & X3). pose proof (chain_bounds _ _ _ X3). lia. }
    replace ((fl =? 0) || (b <? fl)) with false.
    2:{ symmetry. apply orb_false_iff. split; [ apply Z.eqb_neq | apply Z.ltb_ge ]; lia. }
    assert (Hl1' : lseg (Mem.store64 h b s) fl (nodes true M S1) m).
    { apply (lseg_store_away _ _ _ M _ b _ _ C1); [ lia | exact Hl1 ]. }
    rewrite (insert_loop_last l' c cs (Mem.store64 h b s) fl m b fuel).
    2:{ rewrite <- E. exact Hl1'. }
    2:{ rewrite <- E. apply (chain_lt M _ b); [ exact C1 | lia ]. }
    2:{ destruct Hm; [ now left | right; lia ]. }
    2:{ rewrite E, length_app in Hfuel. cbn in Hfuel. lia. }
    rewrite E in Hl1, C1. apply lseg_app in Hl1. destruct Hl1 as (m0 & Hl1 & Hc).
    cbn [lseg] in Hc. destruct Hc as (-> & Hc0 & Hcs & Hcn).
    apply chain_app in C1. destruct C1 as (mid & C1 & C1'). cbn [chain] in C1'.
    rewrite (MemFacts.load_store_other h b) by lia. rewrite Hcn.
    do 2 eexists. split; [ reflexivity | ]. split.
    + unfold flist. rewrite E, <- app_assoc. apply lseg_app. exists c. split.
      * repeat (apply (lseg_store_away _ _ _ M _ mid _ _ C1); [ lia | ]). exact Hl1.
      * cbn [app lseg]. repeat split; try lia.
        -- mem_simpl. exact Hcs.
        -- mem_simpl. apply WordFacts.wrap_small. lia.
        -- mem_simpl. apply WordFacts.wrap_small. lia.
        -- mem_simpl. rewrite WordFacts.wrap_small by lia.
           repeat (apply (lseg_store_away _ _ _ (b + s) _ _ _ _ C2); [ lia | ]).
           exact Hl2.
    + apply List.Forall_app. split.
      * apply (used_store_link _ M S1 c cs); trivial.
        repeat (apply (used_store_away _ _ _ M _ b D1); [ lia | ]). exact Hu1.
      * repeat (apply (used_store_away _ _ _ (b + s) _ _ D2); [ lia | ]). exact Hu3.
Qed.

Lemma used_off_nodes M segs a sz x :
  Forall (fun sg : segment => 16 <= fst sg) segs ->
  In (a, sz) (nodes false M segs) -> a <= x < a + 8 ->
  off_nodes (nodes true M segs) x.
Proof.
  intros Hs Hin Hx. apply List.Forall_forall. intros [c cs] Hc. cbn [fst].
  destruct (chain_In _ _ _ _ _ (nodes_chain true M segs Hs) Hc) as (_ & K1 & _).
  destruct (chain_In _ _ _ _ _ (nodes_chain false M segs Hs) Hin) as (_ & K2 & _).
  destruct (nodes_apart M segs c cs a sz Hs Hc Hin); lia.
Qed.

Lemma deallocate_represents st segs p t fuel :
  represents st segs -> In p (live_of (m_memory st) segs) -> enough_fuel st fuel ->
  exists st' segs' la lb,
    deallocate st p t fuel = Some st' /\ represents st' segs' /\
    m_memory st' = m_memory st /\ m_total_size st' = m_total_size st /\
    live_of (m_memory st) segs = la ++ p :: lb /\
    live_of (m_memory st) segs' = la ++ lb.
Proof.
  intros [R1 R2 R3 R4 R5 R6 R7 R9 R8] Hin Hfuel.
  unfold live_of in Hin. apply in_map_iff in Hin.
  destruct Hin as ([b s] & Hp & Hin). cbn [fst] in Hp.
  apply in_split in Hin. destruct Hin as (U1 & U2 & EU).
  destruct (nodes_split _ _ _ _ _ _ _ EU) as (S1 & S2 & -> & E1 & Eb & E2).
  set (M := m_memory st) in *.
  set (segs1 := S1 ++ (s, true) :: S2).
  assert (Hsz1 : Forall (fun sg : segment => 16 <= fst sg) segs1).
  { unfold segs1. apply List.Forall_app in R4. destruct R4 as [A1 A2].
    inversion A2; subst. apply List.Forall_app. split; [ exact A1 | ].
    constructor; trivial. }
  assert (Htot1 : total segs1 = m_total_size st).
  { rewrite <- R3. unfold segs1. rewrite !total_app. reflexivity. }
  assert (Hused1 : nodes false M segs1 = U1 ++ U2).
  { unfold segs1. rewrite nodes_app. cbn [nodes eqb]. rewrite <- Eb, E1, E2.
    reflexivity. }
  assert (Hs17 : header_size < s).
  { rewrite EU in R9. apply List.Forall_app in R9. destruct R9 as [_ A].
    now inversion A. }
  unfold header_size in *.
  pose proof (total_nonneg S1 ltac:(apply List.Forall_app in R4; tauto)) as T1.
  assert (T2 : 0 <= total S2).
  { apply total_nonneg. apply List.Forall_app in R4. destruct R4 as [_ A2].
    now inversion A2. }
  pose proof R3 as R3'. rewrite total_app in R3'. cbn [total] in R3'.
  assert (Hload : Mem.load64 (heap st) b = s).
  { rewrite EU in R7. apply List.Forall_app in R7. destruct R7 as [_ A].
    now inversion A. }
  (* the guards of [deallocate] *)
  unfold deallocate.
  assert (Eown : owns st p = true).
  { unfold owns. fold M.
    replace (M =? 0) with false by (symmetry; apply Z.eqb_neq; lia).
    replace (p =? 0) with false by (symmetry; apply Z.eqb_neq; lia).
    cbn [orb]. rewrite WordFacts.wrap_small by lia.
    apply andb_true_iff. split; [ apply Z.leb_le | apply Z.ltb_lt ]; lia. }
  rewrite Eown.
  replace (p =? 0) with false by (symmetry; apply Z.eqb_neq; lia).
  cbn [orb negb]. unfold header_size.
  replace (Word.wrap (p - 16)) with b by (rewrite WordFacts.wrap_small; lia).
  rewrite Hload.
  (* the block is linked in *)
  rewrite <- R3 in R2.
  destruct (insert_layout (heap st) (m_free_list st) M S1 s S2 fuel R1 R2 R4 R6 R7)
    as (head & h2 & Eins & Hfl2 & Hu2).
  { apply (fuel_covers true M S1 (total S1) fuel).
    - apply List.Forall_app in R4. tauto.
    - reflexivity.
    - unfold enough_fuel in Hfuel. lia. }
  rewrite <- Eb in Eins. rewrite Eins. fold segs1 in Hfl2, Hu2.
  (* the list is coalesced *)
  destruct (nodes true M segs1) as [ | [a0 s0] rest ] eqn:EL.
  { exfalso. unfold segs1 in EL. rewrite nodes_app in EL. cbn [nodes eqb] in EL.
    destruct (nodes true M S1); discriminate. }
  pose proof (lseg_head _ _ _ _ _ _ Hfl2) as ->.
  pose proof (nodes_chain true M segs1 Hsz1) as C. rewrite EL, Htot1 in C.
  destruct (coalesce_loop_spec rest a0 s0 h2 fuel M (M + m_total_size st) Hfl2 C R1)
    as (h3 & Ecoal & Hfl3 & Hframe).
  { lia. }
  { pose proof (fuel_covers true M segs1 _ fuel Hsz1 Htot1 Hfuel) as F.
    rewrite EL in F. cbn in F. lia. }
  rewrite Ecoal.
  set (segs' := merge_free None segs1).
  assert (Hfree' : nodes true M segs' = coalesce_from (a0, s0) rest).
  { pose proof (merge_free_nodes segs1 Hsz1 M None) as F. cbn [run_of] in F.
    rewrite Z.sub_0_r, EL in F. exact F. }
  assert (Hused' : nodes false M segs' = U1 ++ U2).
  { pose proof (merge_free_used segs1 M None) as F. cbn [run_of] in F.
    rewrite Z.sub_0_r in F. unfold segs'. rewrite F. exact Hused1. }
  assert (Hsz' : Forall (fun sg : segment => 16 <= fst sg) segs').
  { apply merge_free_sizes; [ exact Hsz1 | now right ]. }
  assert (Htot' : total segs' = m_total_size st).
  { unfold segs'. rewrite merge_free_total. cbn [run_of]. lia. }
  match goal with
  | |- context [update_fragmentation fuel ?x] =>
      destruct (update_fragmentation_total x (nodes true M segs') fuel) as (v & Eu)
  end.
  { cbn [heap m_free_list]. rewrite Hfree'. exact Hfl3. }
  { apply (fuel_covers true M segs' _ fuel Hsz' Htot' Hfuel). }
  rewrite Eu. cbn [base m_policy m_memory m_free_list heap].
  eexists. exists segs', (map (fun n => fst n + 16) U1), (map (fun n => fst n + 16) U2).
  split; [ reflexivity | ].
  repeat split; cbn; fold M; trivial.
  - unfold m_total_size in *. cbn. lia.
  - intros E. rewrite E in Htot'. cbn in Htot'. lia.
  - rewrite Hfree'. exact Hfl3.
  - rewrite Hused'. rewrite <- Hused1. apply List.Forall_forall.
    intros [a sz] Ha. cbn [fst snd].
    rewrite List.Forall_forall in Hu2. pose proof (Hu2 _ Ha) as K.
    cbn [fst snd] in K. rewrite <- K.
    apply load64_ext. intros x Hx. apply Hframe.
    rewrite <- EL. apply (used_off_nodes M segs1 a sz x Hsz1 Ha Hx).
  - rewrite Hused'. rewrite EU in R9. apply List.Forall_app in R9.
    destruct R9 as [A1 A2]. inversion A2; subst.
    apply List.Forall_app. split; trivial.
  - rewrite Hused'. intros E.
    unfold segs'. rewrite (merge_free_all_free segs1 M None).
    + cbn [run_of]. rewrite Htot1. reflexivity.
    + rewrite Hused1. exact E.
    + right. unfold segs1. destruct S1; discriminate.
  - unfold live_of, header_size. rewrite EU, map_app. cbn [map fst].
    rewrite Hp. reflexivity.
  - unfold live_of. rewrite Hused', map_app. reflexivity.
Qed.

(** *** Reachable states *)

Lemma reachable_represents st live :
  reachable st live ->
  exists segs, represents st segs /\ Permutation live (live_of (m_memory st) segs).
Proof.
  induction 1 as
    [ size policy buffer heap0 Hb Hs Hr
    | st live size alignment t fuel p st' _ IH Hreq Hfuel Hal Hp
    | st live size alignment t fuel st' _ IH Hreq Hfuel Hal
    | st live1 p live2 t fuel st' _ IH Hfuel Hde
    | st live policy _ IH
    | st live _ IH ].
  - exists [(size, true)]. split; [ now apply construct_represents | ].
    cbn. constructor.
  - destruct IH as (segs & R & P).
    destruct (allocate_represents _ _ _ _ _ _ _ _ R Hreq Hfuel Hal)
      as [ [E _] | (_ & segs' & R' & Em & _ & P') ]; [ contradiction | ].
    exists segs'. split; [ exact R' | ]. rewrite Em.
    rewrite P'. now constructor.
  - destruct IH as (segs & R & P).
    destruct (allocate_represents _ _ _ _ _ _ _ _ R Hreq Hfuel Hal)
      as [ [_ ->] | (E & _) ]; [ | contradiction ].
    exists segs. tauto.
  - destruct IH as (segs & R & P).
    assert (Hin : In p (live_of (m_memory st) segs)).
    { apply (Permutation_in _ P). apply in_or_app. right. now left. }
    destruct (deallocate_represents _ _ _ t fuel R Hin Hfuel)
      as (st1 & segs' & la & lb & E & R' & Em & _ & L1 & L2).
    rewrite E in Hde. inversion Hde; subst st1.
    exists segs'. split; [ exact R' | ]. rewrite Em, L2.
    rewrite L1 in P. now apply Permutation_app_inv in P.
  - destruct IH as (segs & R & P). exists segs.
    split; [ now apply set_policy_represents | exact P ].
  - destruct IH as (segs & R & P). exists [(m_total_size st, true)].
    split; [ now apply (reset_represents st segs) | ]. cbn. constructor.
Qed.

Lemma deallocate_all_represents calls :
  forall st segs fuel,
    represents st segs -> enough_fuel st fuel ->
    Permutation (map fst calls) (live_of (m_memory st) segs) ->
    exists st' segs',
      deallocate_all st calls fuel = Some st' /\ represents st' segs' /\
      m_memory st' = m_memory st /\ m_total_size st' = m_total_size st /\
      live_of (m_memory st) segs' = [].
Proof.
  induction calls as [ | [p t] rest IH ]; intros st segs fuel R Hfuel P;
    cbn [deallocate_all map fst] in *.
  - apply Permutation_nil in P. exists st, segs. tauto.
  - assert (Hin : In p (live_of (m_memory st) segs)).
    { apply (Permutation_in _ P). now left. }
    destruct (deallocate_represents _ _ _ t fuel R Hin Hfuel)
      as (st1 & segs1 & la & lb & E & R1 & Em & Et & L1 & L2).
    rewrite E. rewrite L1 in P. apply Permutation_cons_app_inv in P.
    destruct (IH st1 segs1 fuel R1) as (st' & segs' & E' & R' & Em' & Et' & L').
    + unfold enough_fuel in *. now rewrite Et.
    + now rewrite Em, L2.
    + exists st', segs'. rewrite Em in *. rewrite Et in *. tauto.
Qed.

(** C4. From a reachable state, handing back every address on loan, in
    any order, leaves a free list of exactly one node, which starts at
    the region and has the size of the region. *)
Theorem coalescing st live calls fuel :
  reachable st live -> Permutation (map fst calls) live -> enough_fuel st fuel ->
  exists st',
    deallocate_all st calls fuel = Some st' /\
    flist (heap st') (m_free_list st') [(m_memory st, m_total_size st)] /\
    free_block_count fuel st' = Some 1 /\
    available fuel st' = Some (m_total_size st).
Proof.
  intros Hreach P Hfuel.
  destruct (reachable_represents st live Hreach) as (segs & R & PL).
  destruct (deallocate_all_represents calls st segs fuel R Hfuel)
    as (st' & segs' & E & R' & Em & Et & L).
  { now rewrite P. }
  exists st'. split; [ exact E | ].
  destruct R' as [R1 R2 R3 R4 R5 R6 R7 R9 R8].
  unfold live_of in L. apply map_eq_nil in L. rewrite <- Em in L.
  specialize (R8 L). subst segs'. cbn [nodes eqb] in R6.
  rewrite Em, Et in R6.
  assert (HT : 16 <= m_total_size st).
  { rewrite <- Et. inversion R4; subst. cbn [fst] in *. lia. }
  assert (Hf : (length [(m_memory st, m_total_size st)] < fuel)%nat).
  { unfold enough_fuel in Hfuel. cbn. lia. }
  split; [ exact R6 | ]. split.
  - unfold free_block_count. rewrite (count_loop_value _ _ _ _ _ R6 Hf). reflexivity.
  - unfold available. rewrite (available_loop_value _ _ _ _ _ R6 Hf).
    cbn [fold_left snd]. f_equal. apply WordFacts.wrap_small.
    rewrite Et in R2. lia.
Qed.

End FreeListProps.

(** ** The baseline allocator *)

Module StandardProps.
Import Standard.

(** C10. [reset] hands every tracked block back to the system and
    clears the map, the statistics and the history: afterwards no
    pointer is owned and the statistics are all zero, whatever was still
    on loan. *)
Theorem reset_releases (st : StandardAllocator) :
  (forall p, owns (reset st) p = false) /\
  Base.m_stats (base (reset st)) = Base.stats_zero /\
  Base.m_allocation_history (base (reset st)) = [] /\
  m_allocations (reset st) = ∅ /\
  (forall p, owns st p = true -> p ∉ sys_blocks (reset st)).
Proof.
  split; [ | split; [ | split; [ | split ] ] ].
  - intros p. unfold owns, reset. cbn [m_allocations].
    now rewrite lookup_empty.
  - reflexivity.
  - reflexivity.
  - reflexivity.
  - intros p Hp. unfold owns in Hp. unfold reset. cbn [sys_blocks].
    destruct (m_allocations st !! p) as [ v | ] eqn:E; [ | discriminate ].
    assert (Hd : p ∈ dom (m_allocations st)) by (apply elem_of_dom; eauto).
    intros Hin. apply elem_of_difference in Hin. tauto.
Qed.

End StandardProps.

(** ** The reducer of samples *)

Module StatisticsProps.
Import Statistics.






Lemma insert_head x l :
  exists r, insert x l = x :: r \/
    exists y r', l = y :: r' /\ PrimFloat.ltb y x = true /\ insert x l = y :: r.
Proof.
  destruct l as [ | y r ]; cbn [insert]; [ exists []; now left | ].
  destruct (PrimFloat.ltb y x) eqn:E.
  - exists (insert x r). right. exists y, r. tauto.
  - exists (y :: r). now left.
Qed.





End StatisticsProps.

(** ** Properties of all variants *)

Module AllocatorProps.
Import Allocator.

(** *** Reset *)

Lemma store_all_pointwise ws x :
  (exists v, forall m, Mem.store_all m ws x = v) \/
  (forall m, Mem.store_all m ws x = m x).
Proof.
  induction ws as [ | [a v] r IH ]; cbn [Mem.store_all].
  - right. reflexivity.
  - destruct IH as [ (v0 & H) | H ].
    + left. exists v0. intros m. apply H.
    + unfold Mem.store64 in *.
      destruct ((a <=? x) && (x <? a + 8)) eqn:E.
      * left. exists (Mem.byte_of v (x - a)). intros m. rewrite H.
        unfold Mem.store64. now rewrite E.
      * right. intros m. rewrite H. unfold Mem.store64. now rewrite E.
Qed.

(** Doing the same writes again changes nothing. *)
Lemma store_all_idem m ws :
  Mem.store_all (Mem.store_all m ws) ws = Mem.store_all m ws.
Proof.
  apply functional_extensionality. intros x.
  destruct (store_all_pointwise ws x) as [ (v & H) | H ].
  - now rewrite !H.
  - now rewrite H.
Qed.

Lemma link_blocks_writes n :
  forall memory bs fl h,
    Pool.link_blocks n memory bs fl h =
      (Pool.link_head n memory bs fl,
       Mem.store_all h (Pool.link_writes n memory bs fl)).
Proof.
  induction n as [ | k IH ]; intros memory bs fl h;
    cbn [Pool.link_blocks Pool.link_head Pool.link_writes Mem.store_all].
  - reflexivity.
  - apply IH.
Qed.

Lemma pool_reset_idem st : Pool.reset (Pool.reset st) = Pool.reset st.
Proof.
  unfold Pool.reset. destruct (Pool.m_memory st =? 0) eqn:E.
  - cbn. rewrite E. reflexivity.
  - unfold Pool.initialize_free_list. rewrite link_blocks_writes.
    cbn. rewrite E. rewrite link_blocks_writes. cbn.
    rewrite store_all_idem. reflexivity.
Qed.

Lemma stack_reset_idem st : Stack.reset (Stack.reset st) = Stack.reset st.
Proof. reflexivity. Qed.

Lemma freelist_reset_idem st :
  FreeList.reset (FreeList.reset st) = FreeList.reset st.
Proof.
  unfold FreeList.reset. destruct (FreeList.m_memory st =? 0) eqn:E; cbn; rewrite E.
  - reflexivity.
  - f_equal. unfold FreeList.m_total_size. cbn.
    apply (store_all_idem (FreeList.heap st)
             [(FreeList.m_memory st, Base.m_total_size (FreeList.base st));
              (FreeList.m_memory st + 8, 0)]).
Qed.

Lemma standard_reset_idem st :
  Standard.reset (Standard.reset st) = Standard.reset st.
Proof.
  unfold Standard.reset. cbn. f_equal.
  rewrite dom_empty_L. apply difference_empty_L.
Qed.

Lemma reset_idem a : reset (reset a) = reset a.
Proof.
  destruct a; cbn [reset];
    [ rewrite standard_reset_idem | rewrite pool_reset_idem
    | rewrite stack_reset_idem | rewrite freelist_reset_idem ];
    reflexivity.
Qed.

(** *** What the calls leave alone *)

Lemma update_fragmentation_frame fuel st st' :
  FreeList.update_fragmentation fuel st = Some st' ->
  FreeList.m_total_size st' = FreeList.m_total_size st /\
  FreeList.m_memory st' = FreeList.m_memory st /\
  FreeList.m_free_list st' = FreeList.m_free_list st /\
  Base.m_allocation_history (FreeList.base st') =
    Base.m_allocation_history (FreeList.base st).
Proof.
  unfold FreeList.update_fragmentation.
  destruct (FreeList.available fuel st); [ | discriminate ].
  destruct (FreeList.largest_free_block fuel st); [ | discriminate ].
  intros H. inversion H. cbn. tauto.
Qed.

Lemma freelist_allocate_frame st size alignment t fuel p st' :
  FreeList.allocate st size alignment t fuel = Some (p, st') ->
  FreeList.m_total_size st' = FreeList.m_total_size st /\
  FreeList.m_memory st' = FreeList.m_memory st /\
  (FreeList.m_memory st = 0 -> st' = st).
Proof.
  unfold FreeList.allocate.
  destruct (FreeList.m_memory st =? 0) eqn:E; cbn [orb].
  { intros H. inversion H. tauto. }
  apply Z.eqb_neq in E.
  destruct (size =? 0).
  { intros H. inversion H. tauto. }
  destruct (FreeList.find_fit _ _ _) as [ [block pb] | ]; [ | discriminate ].
  destruct (block =? 0).
  { intros H. inversion H. tauto. }
  destruct (FreeList.carve _ _ _ _ _) as [[sz head] h'].
  destruct (FreeList.update_fragmentation _ _) as [ st1 | ] eqn:Eu; [ | discriminate ].
  intros H. inversion H; subst.
  destruct (update_fragmentation_frame _ _ _ Eu) as (H1 & H2 & _).
  cbn in H1, H2. unfold FreeList.m_total_size in *. cbn in H1. tauto.
Qed.

Lemma freelist_deallocate_frame st ptr t fuel st' :
  FreeList.deallocate st ptr t fuel = Some st' ->
  FreeList.m_total_size st' = FreeList.m_total_size st /\
  FreeList.m_memory st' = FreeList.m_memory st /\
  (FreeList.m_memory st = 0 -> st' = st).
Proof.
  unfold FreeList.deallocate, FreeList.owns.
  destruct (FreeList.m_memory st =? 0) eqn:E; cbn [orb negb].
  { rewrite orb_true_r. intros H. inversion H. tauto. }
  apply Z.eqb_neq in E.
  destruct ((ptr =? 0) || _).
  { intros H. inversion H. tauto. }
  destruct (FreeList.insert_free_block _ _ _ _) as [ [head h2] | ]; [ | discriminate ].
  destruct (FreeList.coalesce_loop _ _ _) as [ h3 | ]; [ | discriminate ].
  intros Eu.
  destruct (update_fragmentation_frame _ _ _ Eu) as (H1 & H2 & _).
  cbn in H1, H2. unfold FreeList.m_total_size in *. cbn in H1. tauto.
Qed.

Lemma same_region_refl a : constructed a -> same_region a a.
Proof.
  destruct 1; cbn; try tauto.
  unfold FreeList.construct. repeat split.
  destruct (buffer =? 0) eqn:E; cbn; [ reflexivity | ].
  apply Z.eqb_neq in E. contradiction.
Qed.

Lemma same_region_step a0 a a' : same_region a0 a -> step a a' -> same_region a0 a'.
Proof.
  intros S H.
  destruct H as [ a size alignment e p a' H | a ptr e a' H | a | st m | st pol ].
  - destruct a as [ st | st | st | st ], a0 as [ s0 | s0 | s0 | s0 ];
      cbn [same_region] in S; try contradiction; cbn [allocate] in H.
    + destruct (Standard.allocate _ _ _ _ _). inversion H. exact I.
    + unfold Pool.allocate in H.
      destruct (_ || _ || _) in H; inversion H; cbn; tauto.
    + unfold Stack.allocate in H.
      destruct (_ || _) in H; [ inversion H; cbn; tauto | ].
      destruct (_ <? _) in H; inversion H; cbn; tauto.
    + destruct (FreeList.allocate _ _ _ _ _) as [ [q st'] | ] eqn:E; [ | discriminate ].
      inversion H; subst. cbn.
      destruct (freelist_allocate_frame _ _ _ _ _ _ _ E) as (H1 & H2 & H3).
      destruct S as (S1 & S2 & S3). rewrite H1, H2. repeat split; trivial.
      intros Z. rewrite (H3 Z). apply S3. exact Z.
  - destruct a as [ st | st | st | st ], a0 as [ s0 | s0 | s0 | s0 ];
      cbn [same_region] in S; try contradiction; cbn [deallocate] in H.
    + inversion H. exact I.
    + inversion H. unfold Pool.deallocate.
      repeat match goal with
             | |- context [if ?c then _ else _] => destruct c
             end; cbn; tauto.
    + inversion H. unfold Stack.deallocate.
      repeat match goal with
             | |- context [if ?c then _ else _] => destruct c
             end; cbn; tauto.
    + destruct (FreeList.deallocate _ _ _ _) as [ st' | ] eqn:E; [ | discriminate ].
      inversion H; subst. cbn.
      destruct (freelist_deallocate_frame _ _ _ _ _ E) as (H1 & H2 & H3).
      destruct S as (S1 & S2 & S3). rewrite H1, H2. repeat split; trivial.
      intros Z. rewrite (H3 Z). apply S3. exact Z.
  - destruct a as [ st | st | st | st ], a0 as [ s0 | s0 | s0 | s0 ];
      cbn [same_region] in S; try contradiction; cbn [reset same_region].
    + exact I.
    + unfold Pool.reset, Pool.initialize_free_list.
      destruct (Pool.m_memory st =? 0); [ cbn; tauto | ].
      destruct (Pool.link_blocks _ _ _ _ _). cbn. tauto.
    + exact S.
    + destruct S as (S1 & S2 & S3). unfold FreeList.reset.
      destruct (FreeList.m_memory st =? 0) eqn:E; cbn.
      * apply Z.eqb_eq in E. repeat split; trivial.
      * apply Z.eqb_neq in E. repeat split; trivial.
  - destruct a0 as [ s0 | s0 | s0 | s0 ]; cbn [same_region] in S |- *;
      try contradiction.
    unfold Stack.rollback_to_marker.
    destruct (_ <? _); [ exact S | ].
    unfold Stack.m_total_size in *. cbn. exact S.
  - destruct a0 as [ s0 | s0 | s0 | s0 ]; cbn [same_region] in S |- *;
      try contradiction. exact S.
Qed.

Lemma same_region_steps a0 a : constructed a0 -> steps a0 a -> same_region a0 a.
Proof.
  intros C H. induction H as [ | a b c _ IH Hs ].
  - now apply same_region_refl.
  - apply (same_region_step a b c); auto.
Qed.

Lemma pool_available_fresh st :
  Pool.m_allocated_blocks st = 0 ->
  Pool.available st = Word.wrap (Word.wrap (Pool.m_block_count st - 0) * Pool.m_block_size st).
Proof. intros H. unfold Pool.available, Pool.free_blocks. now rewrite H. Qed.

Lemma pool_reset_fields st :
  Pool.m_allocated_blocks (Pool.reset st) = 0 /\
  Pool.m_block_count (Pool.reset st) = Pool.m_block_count st /\
  Pool.m_block_size (Pool.reset st) = Pool.m_block_size st.
Proof.
  unfold Pool.reset, Pool.initialize_free_list.
  destruct (Pool.m_memory st =? 0); [ cbn; tauto | ].
  destruct (Pool.link_blocks _ _ _ _ _). cbn. tauto.
Qed.

Lemma pool_construct_fields block_size block_count alignment buffer heap0 :
  let st := Pool.construct block_size block_count alignment buffer heap0 in
  Pool.m_allocated_blocks st = 0 /\
  Pool.m_block_count st = block_count /\
  Pool.m_block_size st = Word.align_size block_size alignment.
Proof.
  unfold Pool.construct, Pool.initialize_free_list.
  destruct (buffer =? 0); [ cbn; tauto | ].
  cbn. destruct (Pool.link_blocks _ _ _ _ _). cbn. tauto.
Qed.

Lemma freelist_available_one h memory size fuel :
  memory <> 0 -> (1 < fuel)%nat ->
  FreeList.available_loop fuel
    (Mem.store64 (Mem.store64 h memory size) (memory + 8) 0) memory 0 =
    Some (Word.wrap (Word.wrap size)).
Proof.
  intros Hm Hf. destruct fuel as [ | [ | f ] ]; try lia.
  cbn [FreeList.available_loop].
  replace (memory =? 0) with false by (symmetry; now apply Z.eqb_neq).
  rewrite MemFacts.load_store_same.
  rewrite (MemFacts.load_store_other _ (memory + 8)) by lia.
  rewrite MemFacts.load_store_same.
  change (Word.wrap 0) with 0. cbn [Z.eqb]. rewrite Z.add_0_l. reflexivity.
Qed.

(** C8. Whatever calls an allocator has seen since its construction,
    a second [reset] changes nothing after a first one, and after a
    [reset] as much is available as was after the construction. *)
Theorem reset_idempotent a0 a fuel :
  constructed a0 -> steps a0 a -> (1 < fuel)%nat ->
  reset (reset a) = reset a /\
  available (reset a) fuel = available a0 fuel /\
  exists n, available a0 fuel = Some n.
Proof.
  intros C S Hf. split; [ apply reset_idem | ].
  pose proof (same_region_steps a0 a C S) as R.
  destruct C as [ blocks | bs cnt al buf h0 | size al buf h0 | size pol buf h0 ];
    destruct a as [ st | st | st | st ]; cbn [same_region] in R; try contradiction;
    cbn [reset available].
  - split; [ reflexivity | eauto ].
  - destruct R as [R1 R2].
    destruct (pool_reset_fields st) as (A1 & A2 & A3).
    destruct (pool_construct_fields bs cnt al buf h0) as (B1 & B2 & B3).
    rewrite (pool_available_fresh _ A1), (pool_available_fresh _ B1).
    rewrite A2, A3, R1, R2. split; [ reflexivity | eauto ].
  - unfold Stack.available. unfold Stack.m_total_size in *. cbn in *.
    rewrite R. split; [ reflexivity | eauto ].
  - destruct R as (R1 & R2 & R3).
    unfold FreeList.available, FreeList.reset, FreeList.construct in *.
    unfold FreeList.m_total_size in *.
    destruct (buf =? 0) eqn:Eb; cbn in R1, R2, R3 |- *.
    + apply Z.eqb_eq in Eb. subst buf. rewrite R2. cbn.
      rewrite (R3 R2). destruct fuel; [ lia | ]. cbn. split; [ reflexivity | eauto ].
    + apply Z.eqb_neq in Eb. rewrite R2.
      replace (buf =? 0) with false by (symmetry; now apply Z.eqb_neq).
      cbn. rewrite R1. rewrite !freelist_available_one by trivial.
      split; [ reflexivity | eauto ].
Qed.

(** *** Requests of no bytes *)

(** The baseline, stack and free-list variants answer a request of no
bytes with [nullptr] and stay as they are. *)
Lemma allocate_zero_null a alignment e :
(forall st, a <> Pool st) -> allocate a 0 alignment e = Some (0, a).
Proof.
intros Hp. destruct a as [ st | st | st | st ]; cbn [allocate].
- reflexivity.
- exfalso. now apply (Hp st).
- unfold Stack.allocate. cbn [Z.eqb]. now rewrite orb_true_r.
- unfold FreeList.allocate. cbn [Z.eqb]. now rewrite orb_true_r.
Qed.

(** *** The history *)

(** An allocation that succeeds appends one entry, marked active. *)
Lemma allocate_appends a size alignment e p a' :
allocate a size alignment e = Some (p, a') -> p <> 0 ->
exists sz al,
  allocation_history a' =
    allocation_history a ++ [Base.mkInfo p sz al 0 true].
Proof.
intros H Hp. destruct a as [ st | st | st | st ]; cbn [allocate] in H;
  unfold allocation_history; cbn [base].
- unfold Standard.allocate in H.
  repeat match type of H with
         | context [if ?c then _ else _] => destruct c
         end; inversion H; subst; try contradiction; cbn; eauto.
- unfold Pool.allocate in H.
  repeat match type of H with
         | context [if ?c then _ else _] => destruct c
         end; inversion H; subst; try contradiction; cbn; eauto.
- unfold Stack.allocate in H.
  repeat match type of H with
         | context [if ?c then _ else _] => destruct c
         end; inversion H; subst; try contradiction; cbn; eauto.
- destruct (FreeList.allocate _ _ _ _ _) as [ [q st'] | ] eqn:E; [ | discriminate ].
  inversion H; subst. clear H. unfold FreeList.allocate in E.
  destruct (_ || _) in E; [ inversion E; subst; contradiction | ].
  destruct (FreeList.find_fit _ _ _) as [ [block pb] | ]; [ | discriminate ].
  destruct (block =? 0); [ inversion E; subst; contradiction | ].
  destruct (FreeList.carve _ _ _ _ _) as [[sz head] h'].
  destruct (FreeList.update_fragmentation _ _) as [ st1 | ] eqn:Eu; [ | discriminate ].
  inversion E; subst.
  destruct (update_fragmentation_frame _ _ _ Eu) as (_ & _ & _ & Hh).
  cbn [base]. rewrite Hh. cbn. eauto.
Qed.

(** No deallocation touches the history: an entry that was appended as
active stays active. *)
Lemma deallocate_keeps_history a ptr e a' :
deallocate a ptr e = Some a' -> allocation_history a' = allocation_history a.
Proof.
intros H. destruct a as [ st | st | st | st ]; cbn [deallocate] in H;
  unfold allocation_history.
- inversion H. cbn [base]. unfold Standard.deallocate.
  destruct (ptr =? 0); [ reflexivity | ].
  destruct (Standard.m_allocations st !! ptr) as [ [sz al] | ]; reflexivity.
- inversion H. cbn [base]. unfold Pool.deallocate.
  destruct (_ || _); reflexivity.
- inversion H. cbn [base]. unfold Stack.deallocate.
  destruct (_ || _); [ reflexivity | ]. destruct (negb _); reflexivity.
- destruct (FreeList.deallocate _ _ _ _) as [ st' | ] eqn:E; [ | discriminate ].
  inversion H; subst. cbn [base]. unfold FreeList.deallocate in E.
  destruct (_ || _) in E; [ now inversion E | ].
  destruct (FreeList.insert_free_block _ _ _ _) as [ [head h2] | ]; [ | discriminate ].
  destruct (FreeList.coalesce_loop _ _ _) as [ h3 | ]; [ | discriminate ].
  destruct (update_fragmentation_frame _ _ _ E) as (_ & _ & _ & Hh).
  rewrite Hh. reflexivity.
Qed.

End AllocatorProps.

(** ** The scenarios *)

Module Scenarios.
Import Scenario.

(** *** The stack *)

Lemma stack0_no_wrap size alignment :
0 < alignment -> 0 <= size -> alignment + size <= 1000000 ->
Stack.no_wrap stack0 size alignment.
Proof.
intros Ha Hs Hsum. unfold Stack.no_wrap, Stack.header_size.
change (Stack.m_memory stack0) with 4096.
change (Stack.m_total_size stack0) with 1024.
change Word.modulus with 18446744073709551616. lia.
Qed.

(** Scenario S2: [allocate(100, 8)], [allocate(200, 8)], then the
second block and the first block handed back. *)
Lemma stack_lifo_witness :
Stack.m_current_offset
  (Stack.deallocate (Stack.deallocate (snd stack2) (fst stack2) tick)
     (fst stack1) tick) = 0 /\
Stack.m_previous_offset
  (Stack.deallocate (Stack.deallocate (snd stack2) (fst stack2) tick)
     (fst stack1) tick) = 0.
Proof.
apply (StackProps.stack_lifo stack0 100 8 tick (fst stack1) (snd stack1)
         200 8 tick (fst stack2) (snd stack2) tick tick).
- reflexivity.
- reflexivity.
- apply stack0_no_wrap; lia.
- apply stack0_no_wrap; lia.
- apply surjective_pairing.
- apply Z.eqb_neq. vm_compute. reflexivity.
- apply surjective_pairing.
- apply Z.eqb_neq. vm_compute. reflexivity.
Defined.

(** Scenario S2: with both blocks on loan, handing back the first one
does nothing. *)
Lemma deallocate_out_of_order_witness :
Stack.deallocate (snd stack2) (fst stack1) tick = snd stack2.
Proof.
apply StackProps.deallocate_out_of_order.
apply Z.eqb_neq. vm_compute. reflexivity.
Defined.

(** A payload of the stack variant that is not aligned as asked: the
header is. *)
Lemma stack_payload_misaligned :
fst (Stack.allocate stack0 8 16 tick) = 4120 /\ 4120 mod 16 = 8 /\
(4120 - Stack.header_size) mod 16 = 0.
Proof. vm_compute. repeat split; reflexivity. Qed.

(** *** The pool *)

Lemma pool0_constructible : Pool.constructible 64 4 16 4112.
Proof. split; vm_compute; first [ reflexivity | discriminate ]. Qed.

Lemma pool0_reachable : Pool.reachable pool0.
Proof. apply Pool.reach_construct. exact pool0_constructible. Qed.

(** The first block of the pool, asked for with an alignment of 8. *)
Lemma pool_alignment_witness :
fst (Pool.allocate pool0 8 8 tick) mod Pool.m_alignment pool0 = 0 /\
(Word.is_power_of_two 8 = true -> 8 <= Pool.m_alignment pool0 ->
 fst (Pool.allocate pool0 8 8 tick) mod 8 = 0).
Proof.
apply (PoolProps.pool_alignment pool0 8 8 tick _ (snd (Pool.allocate pool0 8 8 tick))).
- exact pool0_reachable.
- apply surjective_pairing.
- apply Z.eqb_neq. vm_compute. reflexivity.
Defined.

(** C1 fails as stated: the pool, built for an alignment of 16 over a
region at 4112, answers a request with an alignment of 32 with the
address 4112, which is not a multiple of 32. *)
Lemma alignment_counterexample :
~ (forall (a : Allocator.Allocator) size alignment e p a',
     Word.is_power_of_two alignment = true ->
     Allocator.allocate a size alignment e = Some (p, a') -> p <> 0 ->
     p mod alignment = 0).
Proof.
intros H.
specialize (H (Allocator.Pool pool0) 8 32 env
              (fst (Pool.allocate pool0 8 32 tick))
              (Allocator.Pool (snd (Pool.allocate pool0 8 32 tick)))).
assert (E : fst (Pool.allocate pool0 8 32 tick) = 4112) by (vm_compute; reflexivity).
rewrite E in H.
assert (K : 4112 mod 32 = 0); [ | vm_compute in K; discriminate ].
apply H.
- vm_compute. reflexivity.
- rewrite <- E. cbn [Allocator.allocate Allocator.time_ns env].
  now destruct (Pool.allocate pool0 8 32 tick).
- discriminate.
Qed.

(** C2 fails on the pool: a request of no bytes takes the first block. *)
Lemma pool_lends_for_zero_bytes :
fst (Pool.allocate pool0 0 16 tick) = 4112 /\
Pool.m_allocated_blocks (snd (Pool.allocate pool0 0 16 tick)) = 1 /\
Base.total_allocations (Base.m_stats (Pool.base (snd (Pool.allocate pool0 0 16 tick))))
  = 1 /\
Base.current_bytes_used (Base.m_stats (Pool.base (snd (Pool.allocate pool0 0 16 tick))))
  = 64.
Proof. vm_compute. repeat split; reflexivity. Qed.

(** *** The free list *)

Lemma some_default {A : Type} (o : option A) (d : A) :
is_some o = true -> o = Some (match o with Some r => r | None => d end).
Proof. destruct o; [ reflexivity | discriminate ]. Qed.

Lemma freelist_allocate_run st size alignment :
is_some (FreeList.allocate st size alignment tick 1025) = true ->
FreeList.allocate st size alignment tick 1025 =
  Some (fst (freelist_allocate st size alignment),
        snd (freelist_allocate st size alignment)).
Proof.
intros H. unfold freelist_allocate. rewrite <- surjective_pairing.
now apply some_default.
Qed.

Lemma reach_allocate_run st live size alignment :
FreeList.reachable st live -> FreeList.request_ok size alignment ->
(Z.to_nat (FreeList.m_total_size st) <? 1025)%nat = true ->
is_some (FreeList.allocate st size alignment tick 1025) = true ->
(fst (freelist_allocate st size alignment) =? 0) = false ->
FreeList.reachable (snd (freelist_allocate st size alignment))
  (fst (freelist_allocate st size alignment) :: live).
Proof.
intros R Hreq Hfuel Hsome Hp.
apply (FreeList.reach_allocate st live size alignment tick 1025); trivial.
- now apply Nat.ltb_lt.
- now apply freelist_allocate_run.
- now apply Z.eqb_neq.
Qed.

Lemma request_100_16 : FreeList.request_ok 100 16.
Proof. unfold FreeList.request_ok. vm_compute. repeat split; discriminate. Qed.

(** Scenario S3: three blocks of 100 bytes on loan. *)
Lemma freelist3_reachable :
FreeList.reachable (snd freelist3) [fst freelist3; fst freelist2; fst freelist1].
Proof.
assert (R0 : FreeList.reachable freelist0 []).
{ apply FreeList.reach_construct; vm_compute; first [ reflexivity | discriminate ]. }
assert (R1 : FreeList.reachable (snd freelist1) [fst freelist1]).
{ apply reach_allocate_run;
    [ exact R0 | exact request_100_16 | vm_compute; reflexivity .. ]. }
assert (R2 : FreeList.reachable (snd freelist2) [fst freelist2; fst freelist1]).
{ apply reach_allocate_run;
    [ exact R1 | exact request_100_16 | vm_compute; reflexivity .. ]. }
apply reach_allocate_run;
  [ exact R2 | exact request_100_16 | vm_compute; reflexivity .. ].
Qed.

(** Scenario S3: the three blocks handed back, the middle one first. *)
Lemma coalescing_witness :
exists st',
  FreeList.deallocate_all (snd freelist3)
    [(fst freelist2, tick); (fst freelist1, tick); (fst freelist3, tick)] 1025
    = Some st' /\
  FreeList.flist (FreeList.heap st') (FreeList.m_free_list st')
    [(FreeList.m_memory (snd freelist3), FreeList.m_total_size (snd freelist3))] /\
  FreeList.free_block_count 1025 st' = Some 1 /\
  FreeList.available 1025 st' = Some (FreeList.m_total_size (snd freelist3)).
Proof.
apply (FreeListProps.coalescing (snd freelist3)
         [fst freelist3; fst freelist2; fst freelist1]).
- exact freelist3_reachable.
- cbn [map fst]. apply Permutation_sym.
  apply (Permutation_cons_app [fst freelist2; fst freelist1] []). reflexivity.
- apply Nat.ltb_lt. vm_compute. reflexivity.
Defined.

(** Scenario S3 as the specification tells it: one free node while the
three blocks are on loan, two when the middle one is back, one of 1024
bytes when all are. *)
Lemma freelist_scenario :
let st4 := freelist_deallocate (snd freelist3) (fst freelist2) in
let st6 := freelist_deallocate (freelist_deallocate st4 (fst freelist1)) (fst freelist3) in
FreeList.free_block_count 1025 (snd freelist3) = Some 1 /\
FreeList.free_block_count 1025 st4 = Some 2 /\
FreeList.free_block_count 1025 st6 = Some 1 /\
FreeList.available 1025 st6 = Some 1024.
Proof. vm_compute. repeat split; reflexivity. Qed.

(** C3 fails on the free list: [allocate(1, 16)] counts one byte in
use, and handing the block back takes sixteen off, so that the bytes in
use wrap around and exceed the peak. *)
Lemma freelist_bytes_underflow :
fst freelist_one <> 0 /\
Base.current_bytes_used (Base.m_stats (FreeList.base (snd freelist_one))) = 1 /\
Base.current_bytes_used (Base.m_stats (FreeList.base freelist_one_back))
  = Word.modulus - 15 /\
Base.peak_bytes_used (Base.m_stats (FreeList.base freelist_one_back)) = 1 /\
~ Base.conserved (Base.m_stats (FreeList.base freelist_one_back)).
Proof.
assert (E1 : Base.current_bytes_used (Base.m_stats (FreeList.base freelist_one_back))
             = Word.modulus - 15) by (vm_compute; reflexivity).
assert (E2 : Base.peak_bytes_used (Base.m_stats (FreeList.base freelist_one_back)) = 1)
  by (vm_compute; reflexivity).
split; [ apply Z.eqb_neq; vm_compute; reflexivity | ].
split; [ vm_compute; reflexivity | ].
split; [ exact E1 | ]. split; [ exact E2 | ].
unfold Base.conserved. rewrite E1, E2. intros [_ H]. vm_compute in H. now apply H.
Qed.

(** A payload of the free-list variant that is not aligned as asked. *)
Lemma freelist_payload_misaligned :
fst (freelist_allocate freelist0 8 32) = 4112 /\ 4112 mod 32 = 16.
Proof. vm_compute. split; reflexivity. Qed.

(** *** Every variant *)

(** C7 fails: the entry of a block that has been handed back is still
marked active. *)
Lemma history_stays_active :
map Base.is_active
  (Base.m_allocation_history
     (Stack.base (Stack.deallocate (snd stack1) (fst stack1) tick))) = [true] /\
Base.current_allocations
  (Base.m_stats (Stack.base (Stack.deallocate (snd stack1) (fst stack1) tick))) = 0 /\
map Base.is_active (Base.m_allocation_history (FreeList.base freelist_one_back))
  = [true].
Proof. vm_compute. repeat split; reflexivity. Qed.

(** The pool after its first block went out. *)
Lemma reset_idempotent_witness :
let a := Allocator.Pool (snd (Pool.allocate pool0 64 16 tick)) in
Allocator.reset (Allocator.reset a) = Allocator.reset a /\
Allocator.available (Allocator.reset a) 2 =
  Allocator.available (Allocator.Pool pool0) 2 /\
exists n, Allocator.available (Allocator.Pool pool0) 2 = Some n.
Proof.
apply (AllocatorProps.reset_idempotent (Allocator.Pool pool0)).
- apply Allocator.constructed_pool.
- apply (Allocator.steps_more _ (Allocator.Pool pool0)); [ apply Allocator.steps_none | ].
  apply (Allocator.step_allocate _ 64 16 env (fst (Pool.allocate pool0 64 16 tick))).
  cbn [Allocator.allocate Allocator.time_ns env].
  now destruct (Pool.allocate pool0 64 16 tick).
- apply Nat.ltb_lt. reflexivity.
Defined.

End Scenarios.

(** ** More properties *)

Module MemoryUtilsProps.
Import Word WordFacts MemoryUtils.

Lemma smear_filled k d y :
  0 <= d -> filled k d y -> filled k (2 * d + 1) (smear y (d + 1)).
Proof.
  intros Hd (Hy & Hk & Hb). unfold smear.
  assert (Hs : 0 <= Z.shiftr y (d + 1)) by (apply Z.shiftr_nonneg; lia).
  assert (Hle : Z.shiftr y (d + 1) <= y).
  { rewrite Z.shiftr_div_pow2 by lia.
    assert (0 < 2 ^ (d + 1)) by (apply Z.pow_pos_nonneg; lia).
    apply Z.div_le_upper_bound; [lia|nia]. }
  split; [|split].
  - assert (0 <= Z.lor y (Z.shiftr y (d + 1))) by (apply Z.lor_nonneg; lia).
    assert (Z.lor y (Z.shiftr y (d + 1)) <> 0); [|lia].
    intros E. apply Z.lor_eq_0_iff in E. lia.
  - rewrite Z.log2_lor by lia. rewrite Hk.
    apply Z.max_l. rewrite <- Hk. now apply Z.log2_le_mono.
  - intros i Hi Hr. rewrite Z.lor_spec.
    destruct (Z_le_gt_dec (k - d) i) as [Hc|Hc].
    + rewrite Hb by lia. reflexivity.
    + rewrite Z.shiftr_spec by lia. rewrite (Hb (i + (d + 1))) by lia.
      apply orb_true_r.
Qed.

Lemma filled_ones k d y : 0 <= k <= d -> filled k d y -> y = Z.ones (k + 1).
Proof.
  intros Hk (Hy & Hl & Hb). apply Z.bits_inj'. intros i Hi.
  destruct (Z_le_gt_dec i k) as [Hc|Hc].
  - rewrite Hb by lia. symmetry. apply Z.ones_spec_low. lia.
  - rewrite Z.bits_above_log2 by lia. symmetry. apply Z.ones_spec_high. lia.
Qed.

(** What the six shifts leave of a word that is not zero. *)
Lemma smear_all w :
  0 < w < modulus ->
  smear (smear (smear (smear (smear (smear w 1) 2) 4) 8) 16) 32
  = Z.ones (Z.log2 w + 1).
Proof.
  intros Hw.
  assert (Hk : 0 <= Z.log2 w < 64).
  { split; [apply Z.log2_nonneg|]. apply Z.log2_lt_pow2; [lia|apply Hw]. }
  assert (F0 : filled (Z.log2 w) 0 w).
  { split; [lia|split; [reflexivity|]]. intros i Hi Hr.
    replace i with (Z.log2 w) by lia. apply Z.bit_log2. lia. }
  pose proof (smear_filled _ 0 _ ltac:(lia) F0) as F1.
  pose proof (smear_filled _ 1 _ ltac:(lia) F1) as F2.
  pose proof (smear_filled _ 3 _ ltac:(lia) F2) as F3.
  pose proof (smear_filled _ 7 _ ltac:(lia) F3) as F4.
  pose proof (smear_filled _ 15 _ ltac:(lia) F4) as F5.
  pose proof (smear_filled _ 31 _ ltac:(lia) F5) as F6.
  cbn in F1, F2, F3, F4, F5, F6.
  apply (filled_ones _ 63); [lia|exact F6].
Qed.

Lemma smear_zero s : smear 0 s = 0.
Proof. unfold smear. now rewrite Z.shiftr_0_l. Qed.


(** X1. [next_power_of_two] rounds up to a power of two: for a value from 1
    to [2^63] the result is the least power of two that is not below the
    value (the value itself when it is a power of two). *)
Theorem next_power_of_two_least v :
  1 <= v <= 2 ^ 63 ->
  exists k, 0 <= k <= 63 /\ next_power_of_two v = 2 ^ k /\
    v <= 2 ^ k /\ 2 ^ k < 2 * v.
Proof.
  intros Hv. unfold next_power_of_two.
  rewrite (wrap_small (v - 1)) by (rewrite modulus_eq; lia).
  destruct (Z.eq_dec v 1) as [->|Hne].
  - exists 0. cbn. repeat split; first [lia | reflexivity].
  - assert (Hw : 0 < v - 1 < modulus) by (rewrite modulus_eq; lia).
    rewrite (smear_all _ Hw).
    pose proof (Z.log2_spec (v - 1) ltac:(lia)) as [Hlo Hhi].
    assert (Hk : 0 <= Z.log2 (v - 1) < 63).
    { split; [apply Z.log2_nonneg|]. apply Z.log2_lt_pow2; lia. }
    exists (Z.log2 (v - 1) + 1).
    rewrite Z.ones_equiv. replace (Z.succ (Z.log2 (v - 1))) with (Z.log2 (v - 1) + 1) in Hhi by lia.
    assert (Hp : 2 ^ (Z.log2 (v - 1) + 1) = 2 * 2 ^ Z.log2 (v - 1)).
    { rewrite Z.pow_add_r by lia. lia. }
    assert (Hb : 2 ^ (Z.log2 (v - 1) + 1) <= 2 ^ 63) by (apply Z.pow_le_mono_r; lia).
    replace (Z.pred (2 ^ (Z.log2 (v - 1) + 1)) + 1) with (2 ^ (Z.log2 (v - 1) + 1)) by lia.
    rewrite wrap_small by (rewrite modulus_eq; lia).
    repeat split; lia.
Qed.

(** X2. Outside that range there is no such power of two below [2^64]:
    for zero and for a value above [2^63] the result is zero. *)
Theorem next_power_of_two_overflow v :
  v = 0 \/ 2 ^ 63 < v < 2 ^ 64 -> next_power_of_two v = 0.
Proof.
  intros Hv. unfold next_power_of_two.
  assert (Hw : 2 ^ 63 <= wrap (v - 1) < modulus).
  { destruct Hv as [->|Hv]; [vm_compute; split; [discriminate|reflexivity]|].
    rewrite wrap_small by (rewrite modulus_eq; lia). rewrite modulus_eq. lia. }
  rewrite (smear_all (wrap (v - 1))) by lia.
  assert (Hk : Z.log2 (wrap (v - 1)) = 63).
  { apply Z.log2_unique; [lia|]. rewrite modulus_eq in Hw. lia. }
  rewrite Hk. reflexivity.
Qed.

(** X3. [align_forward] with a power of two rounds the address up to a
    multiple of the alignment, modulo [2^64]; when the sum
    [address + alignment - 1] fits, the result is the least multiple of
    the alignment that is not below the address. *)
Theorem align_forward_least address alignment :
  is_power_of_two alignment = true -> in_range alignment -> in_range address ->
  align_forward address alignment
    = wrap ((address + alignment - 1) / alignment * alignment) /\
  (address + alignment - 1 < modulus ->
   align_forward address alignment mod alignment = 0 /\
   address <= align_forward address alignment < address + alignment).
Proof.
  intros Hp Ha Hx.
  destruct (power_of_two_shape alignment Hp ltac:(apply Ha)) as (k & Hk & ->).
  assert (Hpos : 0 < 2 ^ k) by (apply Z.pow_pos_nonneg; lia).
  assert (Hdiv : modulus = 2 ^ k * 2 ^ (64 - k)).
  { unfold modulus. rewrite <- Z.pow_add_r by lia. f_equal. lia. }
  assert (Hform : forall y, 0 <= y < modulus ->
            Z.land y (lnot64 (wrap (2 ^ k - 1))) = y / 2 ^ k * 2 ^ k).
  { intros y Hy. rewrite land_lnot64 by exact Hy. rewrite ldiff_as_sub.
    rewrite (wrap_small (2 ^ k - 1)) by (destruct Ha; lia).
    replace (2 ^ k - 1) with (Z.ones k) by (rewrite Z.ones_equiv; lia).
    rewrite Z.land_ones by lia.
    pose proof (Z.div_mod y (2 ^ k) ltac:(lia)). lia. }
  assert (E : align_forward address (2 ^ k)
              = wrap ((address + 2 ^ k - 1) / 2 ^ k * 2 ^ k)).
  { unfold align_forward. rewrite Hform by apply wrap_range.
    destruct (Z_lt_ge_dec (address + 2 ^ k - 1) modulus) as [Hs|Hs].
    - rewrite (wrap_small (address + 2 ^ k - 1)) by (destruct Hx; lia).
      symmetry. apply wrap_small.
      pose proof (Z.mul_div_le (address + 2 ^ k - 1) (2 ^ k) Hpos).
      assert (0 <= (address + 2 ^ k - 1) / 2 ^ k) by (apply Z.div_pos; destruct Hx; lia).
      nia.
    - assert (Ew : wrap (address + 2 ^ k - 1) = address + 2 ^ k - 1 - modulus).
      { unfold wrap. symmetry. apply Z.mod_unique with 1; destruct Hx, Ha; lia. }
      rewrite Ew.
      assert (Eq : (address + 2 ^ k - 1) / 2 ^ k
                   = (address + 2 ^ k - 1 - modulus) / 2 ^ k + 2 ^ (64 - k)).
      { rewrite <- Z.div_add by lia. f_equal. rewrite Hdiv. lia. }
      rewrite Eq, Z.mul_add_distr_r.
      replace (2 ^ (64 - k) * 2 ^ k) with (1 * modulus) by (rewrite Hdiv; lia).
      unfold wrap at 1. rewrite Z.mod_add by (rewrite modulus_eq; lia).
      symmetry. apply Z.mod_small.
      assert (0 <= (address + 2 ^ k - 1 - modulus) / 2 ^ k) by (apply Z.div_pos; lia).
      pose proof (Z.mul_div_le (address + 2 ^ k - 1 - modulus) (2 ^ k) Hpos).
      destruct Hx, Ha. nia. }
  split; [exact E|]. intros Hs.
  split.
  - apply (align_size_multiple address (2 ^ k) Hp). apply Ha.
  - pose proof (align_size_bounds address (2 ^ k) ltac:(apply Hx) ltac:(lia) Hs) as B.
    unfold align_size in B. unfold align_forward. lia.
Qed.

(** X4. [is_power_of_two] holds exactly of the powers of two below [2^64];
    the member of [BaseAllocator] with that name computes the same. *)
Theorem is_power_of_two_exact v :
  in_range v ->
  (is_power_of_two v = true <-> exists k, 0 <= k < 64 /\ v = 2 ^ k) /\
  Word.is_power_of_two v = is_power_of_two v.
Proof.
  intros Hv. split; [|reflexivity]. split.
  - intros H. apply power_of_two_shape; [exact H|apply Hv].
  - intros (k & Hk & ->). unfold is_power_of_two.
    assert (Hpos : 0 < 2 ^ k) by (apply Z.pow_pos_nonneg; lia).
    apply andb_true_intro. split; [now apply Z.ltb_lt|].
    apply Z.eqb_eq. rewrite wrap_small by (destruct Hv; lia).
    replace (2 ^ k - 1) with (Z.ones k) by (rewrite Z.ones_equiv; lia).
    rewrite Z.land_ones by lia. apply Z.mod_same. lia.
Qed.


Lemma next_power_of_two_least_witness :
exists k, 0 <= k <= 63 /\ next_power_of_two 100 = 2 ^ k /\
  100 <= 2 ^ k /\ 2 ^ k < 2 * 100.
Proof. apply (next_power_of_two_least 100). lia. Defined.

Lemma next_power_of_two_overflow_witness :
next_power_of_two (2 ^ 63 + 1) = 0.
Proof. apply (next_power_of_two_overflow (2 ^ 63 + 1)). right. lia. Defined.

Lemma align_forward_least_witness :
align_forward 4097 16 = wrap ((4097 + 16 - 1) / 16 * 16) /\
(4097 + 16 - 1 < modulus ->
 align_forward 4097 16 mod 16 = 0 /\
 4097 <= align_forward 4097 16 < 4097 + 16).
Proof.
apply (align_forward_least 4097 16).
- reflexivity.
- unfold in_range, modulus. lia.
- unfold in_range, modulus. lia.
Defined.

Lemma is_power_of_two_exact_witness :
(is_power_of_two 4096 = true <-> exists k, 0 <= k < 64 /\ 4096 = 2 ^ k) /\
Word.is_power_of_two 4096 = is_power_of_two 4096.
Proof. apply (is_power_of_two_exact 4096). unfold in_range, modulus. lia. Defined.

End MemoryUtilsProps.

Module TimerProps.
Import Timer.

Lemma int64_small z : - 2 ^ 63 <= z < 2 ^ 63 -> int64 z = z.
Proof. intros H. unfold int64. rewrite Z.mod_small; lia. Qed.

Lemma span_nonneg intervals :
  Forall (fun i : Z * Z => fst i <= snd i) intervals -> 0 <= span intervals.
Proof.
  induction 1 as [|[a b] r H _ IH]; cbn in *; lia.
Qed.

(** X5. A stopped timer adds up the intervals it is run over: after any
    number of [start] / [stop] pairs it is stopped again and
    [m_elapsed] has grown by the total length of the intervals, as long
    as that total fits an [int64_t]. *)
Theorem timer_accumulates intervals :
  forall t,
    m_running t = false -> 0 <= m_elapsed t ->
    Forall (fun i : Z * Z => 0 <= fst i <= snd i /\ snd i < 2 ^ 63) intervals ->
    m_elapsed t + span intervals < 2 ^ 63 ->
    m_running (run t intervals) = false /\
    m_elapsed (run t intervals) = m_elapsed t + span intervals /\
    forall now, elapsed_count (run t intervals) now = m_elapsed t + span intervals.
Proof.
  induction intervals as [|[a b] r IH]; intros t Hr He Hi Hs.
  - cbn. split; [exact Hr|]. split; [lia|].
    intros now. unfold elapsed_count. rewrite Hr. lia.
  - inversion Hi as [|x l [Ha Hb] Hi']; subst. cbn [fst snd] in *.
    assert (Hpos : 0 <= span r).
    { apply span_nonneg. eapply List.Forall_impl; [|exact Hi']. cbn. intros; lia. }
    cbn [run span] in *.
    assert (E : stop (start t a) b = mkTimer a false (m_elapsed t + (b - a))).
    { unfold start. rewrite Hr. unfold stop, since_start. cbn.
      rewrite (int64_small (b - a)) by lia. rewrite int64_small by lia.
      reflexivity. }
    rewrite E.
    destruct (IH (mkTimer a false (m_elapsed t + (b - a)))) as (R1 & R2 & R3);
      cbn; try lia; try reflexivity; try exact Hi'.
    cbn in R2, R3. split; [exact R1|]. split; [lia|]. intros now.
    rewrite R3. lia.
Qed.

(** [start] on a running timer and [stop] on a stopped one do nothing:
    a second [start] keeps the first start point, and a second [stop]
    adds nothing; the reading of a stopped timer does not depend on the
    clock. *)
Theorem timer_ignores_repeats t a b :
  start (start t a) b = start t a /\
  stop (stop t a) b = stop t a /\
  elapsed_count (stop t a) b = m_elapsed (stop t a) /\
  is_running (start t a) = true /\ is_running (stop t a) = false.
Proof.
  unfold start, stop, elapsed_count, is_running.
  destruct t as [s [|] e]; cbn; repeat split; reflexivity.
Qed.

(** X6. [restart] forgets what was measured, whatever the timer was doing:
    the reading taken at [b] after a [restart] at [a] is [b - a]. *)
Theorem restart_measures t a b :
  0 <= a <= b -> b < 2 ^ 63 ->
  elapsed_count (restart t a) b = b - a /\
  elapsed_count (stop (restart t a) b) a = b - a /\
  scoped a b = int64_to_double (b - a).
Proof.
  intros H1 H2. unfold scoped, elapsed_ns, restart, reset, start, stop, elapsed_count, since_start, construct.
  cbn [m_running m_elapsed m_start]. rewrite !Z.add_0_l.
  rewrite !(int64_small (b - a)) by lia. repeat split; reflexivity.
Qed.

Lemma timer_accumulates_witness :
m_running (run construct [(10, 25); (40, 100)]) = false /\
m_elapsed (run construct [(10, 25); (40, 100)])
  = m_elapsed construct + span [(10, 25); (40, 100)] /\
forall now, elapsed_count (run construct [(10, 25); (40, 100)]) now
  = m_elapsed construct + span [(10, 25); (40, 100)].
Proof.
apply (timer_accumulates [(10, 25); (40, 100)] construct).
- reflexivity.
- cbn. lia.
- repeat constructor; cbn; lia.
- cbn. lia.
Defined.

Lemma restart_measures_witness :
elapsed_count (restart construct 10) 25 = 25 - 10 /\
elapsed_count (stop (restart construct 10) 25) 10 = 25 - 10 /\
scoped 10 25 = int64_to_double (25 - 10).
Proof. apply (restart_measures construct 10 25); lia. Defined.

End TimerProps.

Module StackRunProps.
Import Stack StackRun Runs.

Lemma no_wrap_same st st' size alignment :
  m_memory st' = m_memory st -> m_total_size st' = m_total_size st ->
  no_wrap st size alignment -> no_wrap st' size alignment.
Proof. unfold no_wrap. intros -> ->. tauto. Qed.

(** What a successful [allocate] computed. *)
Lemma allocate_success st size alignment t p st' :
  no_wrap st size alignment ->
  0 <= m_current_offset st <= m_total_size st ->
  allocate st size alignment t = (p, st') -> p <> 0 ->
  allocated st size
    (Word.align_size (m_memory st + m_current_offset st) alignment
     - (m_memory st + m_current_offset st)) p st' /\
  base st' = Base.record_allocation (base st) p size alignment t /\
  m_memory st <> 0 /\ m_alignment st' = m_alignment st.
Proof.
  intros (Ha & Hs & Hm & Ht & Hsum) Hcur Hal Hp.
  unfold allocate in Hal.
  destruct ((m_memory st =? 0) || (size =? 0)) eqn:Hz.
  { inversion Hal. congruence. }
  apply orb_false_iff in Hz. destruct Hz as [Hz1 Hz2].
  apply Z.eqb_neq in Hz1, Hz2.
  unfold header_size in *.
  rewrite (WordFacts.wrap_small (m_memory st + m_current_offset st)) in Hal
    by (unfold Word.modulus in *; lia).
  pose proof (WordFacts.align_size_bounds (m_memory st + m_current_offset st) alignment)
    as Hb.
  specialize (Hb ltac:(lia) ltac:(lia) ltac:(lia)).
  set (aligned := Word.align_size (m_memory st + m_current_offset st) alignment) in *.
  set (adj := aligned - (m_memory st + m_current_offset st)) in *.
  rewrite (WordFacts.wrap_small adj) in Hal by (unfold adj; lia).
  rewrite (WordFacts.wrap_small (adj + 24)) in Hal by (unfold adj; lia).
  rewrite (WordFacts.wrap_small (adj + 24 + size)) in Hal by (unfold adj; lia).
  rewrite (WordFacts.wrap_small (m_current_offset st + (adj + 24 + size))) in Hal
    by (unfold adj; lia).
  destruct (m_total_size st <? m_current_offset st + (adj + 24 + size)) eqn:Hfull.
  { inversion Hal. congruence. }
  apply Z.ltb_ge in Hfull.
  rewrite (WordFacts.wrap_small (m_current_offset st + adj)) in Hal by (unfold adj; lia).
  rewrite (WordFacts.wrap_small (m_memory st + (m_current_offset st + adj))) in Hal
    by (unfold adj; lia).
  rewrite (WordFacts.wrap_small (m_memory st + (m_current_offset st + adj) + 24)) in Hal
    by (unfold adj; lia).
  rewrite (WordFacts.wrap_small (m_current_offset st + adj + 24)) in Hal
    by (unfold adj; lia).
  rewrite (WordFacts.wrap_small (m_current_offset st + adj + 24 + size)) in Hal
    by (unfold adj; lia).
  inversion Hal as [[Hptr Hst]]. clear Hal.
  subst p st'. cbn [base m_alignment].
  split; [|split; [reflexivity|split; [exact Hz1|reflexivity]]].
  split; cbn; unfold m_total_size, header_size in *; cbn;
    try reflexivity; try (unfold adj; lia).
  replace (m_memory st + (m_current_offset st + adj) + 24 - 24)
    with (m_memory st + (m_current_offset st + adj)) by lia.
  reflexivity.
Qed.

(** The three fields of the header of a block that was just handed out. *)
Lemma header_fields st size adj p st' :
  allocated st size adj p st' -> 0 <= size < Word.modulus ->
  0 <= m_previous_offset st < Word.modulus ->
  Mem.load64 (heap st') (p - header_size) = size /\
  Mem.load64 (heap st') (p - header_size + 16) = m_previous_offset st /\
  forall x, x < p - header_size -> heap st' x = heap st x.
Proof.
  intros A Hs Hp. rewrite (al_heap _ _ _ _ _ A). unfold header_size.
  split; [|split].
  - rewrite MemFacts.load_store_other by lia.
    rewrite MemFacts.load_store_other by lia.
    rewrite MemFacts.load_store_same. now apply WordFacts.wrap_small.
  - rewrite MemFacts.load_store_same. now apply WordFacts.wrap_small.
  - intros x Hx. rewrite !MemFacts.store64_outside by lia. reflexivity.
Qed.

Lemma deallocate_top_state st ptr t :
  ptr <> 0 -> m_memory st <> 0 ->
  expected_offset st ptr = m_current_offset st ->
  deallocate st ptr t =
    mkStack
      (Base.record_deallocation (base st)
         (Mem.load64 (heap st) (Word.wrap (ptr - header_size))) t)
      (m_alignment st) (m_memory st) (m_previous_offset st)
      (if 0 <? m_previous_offset st
       then Mem.load64 (heap st) (Word.wrap (ptr - header_size) + 16) else 0)
      (heap st).
Proof.
  intros Hp Hm He. unfold deallocate.
  apply Z.eqb_neq in Hp, Hm. rewrite Hp, Hm. cbn [orb].
  apply Z.eqb_eq in He. rewrite He. cbn [negb]. reflexivity.
Qed.

Lemma wrap_add_sub u s :
  Word.in_range u -> Word.wrap (Word.wrap (u + s) - s) = u.
Proof.
  intros Hu. unfold Word.wrap.
  rewrite Zminus_mod_idemp_l. replace (u + s - s) with u by lia.
  now apply Z.mod_small.
Qed.

Lemma deallocate_all_app st c1 c2 :
  deallocate_all st (c1 ++ c2) = deallocate_all (deallocate_all st c1) c2.
Proof.
  revert st. induction c1 as [|[p t] r IH]; intros st; cbn; [reflexivity|].
  apply IH.
Qed.

(** X7. Any number of blocks taken from the stack and handed back in the
    opposite order leave the stack where it was: the two offsets, what
    is available, the two counters of what is in use, and the memory
    below the top it started from. *)
Theorem stack_lifo_deep reqs :
  forall st ptrs st' calls,
    0 <= m_previous_offset st <= m_current_offset st ->
    m_current_offset st <= m_total_size st ->
    Word.in_range (Base.current_allocations (stats st)) ->
    Word.in_range (Base.current_bytes_used (stats st)) ->
    requests_ok st reqs ->
    allocate_all st reqs = (ptrs, st') -> Forall (fun p => p <> 0) ptrs ->
    map fst calls = rev ptrs ->
    restored st (deallocate_all st' calls).
Proof.
  induction reqs as [|[[size alignment] t] r IH];
    intros st ptrs st' calls Hprev Hcur Hca Hcb Hok Hrun Hnz Hcalls.
  - cbn in Hrun. inversion Hrun; subst. cbn in Hcalls.
    destruct calls; [|discriminate]. cbn. split; reflexivity.
  - cbn [allocate_all] in Hrun.
    destruct (allocate st size alignment t) as [p1 st1] eqn:E1.
    destruct (allocate_all st1 r) as [ps st2] eqn:E2.
    inversion Hrun; subst ptrs st2. clear Hrun.
    inversion Hnz as [|? ? Hp1 Hps]; subst.
    inversion Hok as [|? ? Hw Hok']; subst. cbn [fst snd] in Hw.
    destruct (allocate_success _ _ _ _ _ _ Hw ltac:(lia) E1 Hp1)
      as (A & Hbase & Hmem & _).
    set (adj := Word.align_size (m_memory st + m_current_offset st) alignment
                - (m_memory st + m_current_offset st)) in *.
    pose proof Hw as (Ha & Hs & Hm & Ht & Hsum).
    pose proof (al_adj_range _ _ _ _ _ A) as Hadj.
    pose proof (al_size _ _ _ _ _ A) as Hsz.
    pose proof (al_ptr _ _ _ _ _ A) as Hptr.
    pose proof (al_cur _ _ _ _ _ A) as Hc1.
    pose proof (al_fit _ _ _ _ _ A) as Hfit.
    pose proof (al_prev _ _ _ _ _ A) as Hp1'.
    pose proof (al_mem _ _ _ _ _ A) as Hm1.
    pose proof (al_total _ _ _ _ _ A) as Ht1.
    unfold header_size in *.
    assert (Hmod : Word.modulus = 2 ^ 64) by reflexivity.
    destruct (header_fields _ _ _ _ _ A ltac:(lia) ltac:(lia)) as (Hf1 & Hf2 & Hf3).
    unfold header_size in *.
    (* the calls: those for the later blocks, then the one for this block *)
    cbn [rev] in Hcalls.
    assert (Hsplit : exists c1 t1, calls = c1 ++ [(p1, t1)] /\ map fst c1 = rev ps).
    { destruct (@FreeListProps.list_rev_cases (Z * float) calls) as [->|(c1 & [q t1] & ->)].
      - cbn in Hcalls. symmetry in Hcalls. now apply app_eq_nil in Hcalls as [_ ?].
      - rewrite map_app in Hcalls. cbn in Hcalls.
        apply app_inj_tail in Hcalls as [H1 H2]. subst q. now exists c1, t1. }
    destruct Hsplit as (c1 & t1 & -> & Hc).
    rewrite deallocate_all_app. cbn [deallocate_all].
    assert (Hok1 : requests_ok st1 r).
    { unfold requests_ok in *. eapply List.Forall_impl; [|exact Hok'].
      intros x Hx. eapply no_wrap_same; [| |exact Hx]; assumption. }
    assert (Hstats1 : stats st1 = Base.m_stats (Base.record_allocation (base st) p1 size alignment t)).
    { unfold stats. now rewrite Hbase. }
    specialize (IH st1 ps st' c1).
    destruct IH as [R1 R2 R3 R4 R5 R6 R7 R8]; try assumption; try lia.
    { rewrite Hstats1. cbn. apply WordFacts.wrap_range. }
    { rewrite Hstats1. cbn. apply WordFacts.wrap_range. }
    set (S := deallocate_all st' c1) in *.
    assert (Hload1 : Mem.load64 (heap S) (p1 - 24) = size).
    { rewrite <- Hf1. apply FreeListProps.load64_ext. intros x Hx. apply R8. lia. }
    assert (Hload2 : Mem.load64 (heap S) (p1 - 24 + 16) = m_previous_offset st).
    { rewrite <- Hf2. apply FreeListProps.load64_ext. intros x Hx. apply R8. lia. }
    assert (Hhdr : Word.wrap (p1 - 24) = p1 - 24) by (apply WordFacts.wrap_small; lia).
    assert (Hexp : expected_offset S p1 = m_current_offset S).
    { unfold expected_offset, header_size. rewrite Hhdr, Hload1, R3, Hm1, R1.
      rewrite (WordFacts.wrap_small (p1 - m_memory st)) by lia.
      rewrite WordFacts.wrap_small by lia. lia. }
    rewrite (deallocate_top_state S p1 t1 Hp1 ltac:(congruence) Hexp).
    unfold header_size. rewrite Hhdr, Hload1, Hload2, R2, Hp1'.
    split; cbn [m_current_offset m_previous_offset m_memory heap base stats].
    + reflexivity.
    + destruct (0 <? m_current_offset st) eqn:E; [reflexivity|].
      apply Z.ltb_ge in E. lia.
    + congruence.
    + unfold m_total_size in *. cbn. congruence.
    + unfold available, m_total_size in *. cbn. f_equal. f_equal. congruence.
    + cbn. unfold stats in R6. rewrite R6, Hbase. cbn.
      apply wrap_add_sub. exact Hca.
    + cbn. unfold stats in R7. rewrite R7, Hbase. cbn.
      apply wrap_add_sub. exact Hcb.
    + intros x Hx. rewrite R8 by lia. apply Hf3. lia.
Qed.


(** X8. Where a block of the stack lies: above everything handed out
    before it, inside the region, and owned.  It is the header in front
    of the block that is aligned, so the block itself is off by the
    size of the header. *)
Theorem allocate_within st size alignment t p st' :
  no_wrap st size alignment ->
  0 <= m_current_offset st <= m_total_size st ->
  allocate st size alignment t = (p, st') -> p <> 0 ->
  m_memory st + m_current_offset st + header_size <= p /\
  p + size = m_memory st + m_current_offset st' /\
  m_current_offset st' <= m_total_size st /\
  owns st' p = true /\
  (Word.is_power_of_two alignment = true ->
   (p - header_size) mod alignment = 0 /\
   p mod alignment = header_size mod alignment).
Proof.
  intros Hw Hcur Hal Hp.
  destruct (allocate_success _ _ _ _ _ _ Hw Hcur Hal Hp) as (A & _ & Hmem & _).
  pose proof Hw as (Ha & Hs & Hm & Ht & Hsum).
  pose proof (al_adj_range _ _ _ _ _ A) as Hadj.
  pose proof (al_size _ _ _ _ _ A) as Hsz.
  pose proof (al_ptr _ _ _ _ _ A) as Hptr.
  pose proof (al_cur _ _ _ _ _ A) as Hc1.
  pose proof (al_fit _ _ _ _ _ A) as Hfit.
  pose proof (al_mem _ _ _ _ _ A) as Hm1.
  pose proof (al_total _ _ _ _ _ A) as Ht1.
  unfold header_size in *.
  repeat split; try lia.
  - unfold owns. rewrite Hm1, Ht1.
    apply Z.eqb_neq in Hmem, Hp. rewrite Hmem, Hp. cbn [orb].
    rewrite WordFacts.wrap_small by lia.
    apply andb_true_intro. split; [apply Z.leb_le|apply Z.ltb_lt]; lia.
  - replace (p - 24)
      with (Word.align_size (m_memory st + m_current_offset st) alignment) by lia.
    apply WordFacts.align_size_multiple; [assumption|lia].
  - replace p
      with (24 + Word.align_size (m_memory st + m_current_offset st) alignment) by lia.
    pose proof (WordFacts.align_size_multiple
                  (m_memory st + m_current_offset st) alignment H ltac:(lia)) as Hmul.
    rewrite Z.add_mod by lia. rewrite Hmul, Z.add_0_r. apply Z.mod_mod. lia.
Qed.

Lemma allocate_all_grows reqs :
  forall st ptrs st',
    0 <= m_current_offset st <= m_total_size st ->
    requests_ok st reqs ->
    allocate_all st reqs = (ptrs, st') -> Forall (fun p => p <> 0) ptrs ->
    m_current_offset st <= m_current_offset st' <= m_total_size st /\
    (ptrs <> [] -> m_current_offset st < m_current_offset st') /\
    m_memory st' = m_memory st /\ m_total_size st' = m_total_size st.
Proof.
  induction reqs as [|[[size alignment] t] r IH]; intros st ptrs st' Hcur Hok Hrun Hnz.
  - cbn in Hrun. inversion Hrun; subst. repeat split; try lia. congruence.
  - cbn [allocate_all] in Hrun.
    destruct (allocate st size alignment t) as [p1 st1] eqn:E1.
    destruct (allocate_all st1 r) as [ps st2] eqn:E2.
    inversion Hrun; subst ptrs st2. clear Hrun.
    inversion Hnz as [|? ? Hp1 Hps]; subst.
    inversion Hok as [|? ? Hw Hok']; subst. cbn [fst snd] in Hw.
    destruct (allocate_success _ _ _ _ _ _ Hw Hcur E1 Hp1) as (A & _ & _ & _).
    pose proof (al_adj_range _ _ _ _ _ A) as Hadj.
    pose proof (al_size _ _ _ _ _ A) as Hsz.
    pose proof (al_cur _ _ _ _ _ A) as Hc1.
    pose proof (al_fit _ _ _ _ _ A) as Hfit.
    pose proof (al_mem _ _ _ _ _ A) as Hm1.
    pose proof (al_total _ _ _ _ _ A) as Ht1.
    unfold header_size in *.
    assert (Hok1 : requests_ok st1 r).
    { unfold requests_ok in *. eapply List.Forall_impl; [|exact Hok'].
      intros x Hx. eapply no_wrap_same; [| |exact Hx]; assumption. }
    destruct (IH st1 ps st' ltac:(lia) Hok1 E2 Hps) as (I1 & _ & I3 & I4).
    repeat split; try lia; congruence.
Qed.

Lemma allocate_pointer st st2 size alignment t t2 :
  m_memory st2 = m_memory st -> m_current_offset st2 = m_current_offset st ->
  m_total_size st2 = m_total_size st ->
  fst (allocate st2 size alignment t2) = fst (allocate st size alignment t).
Proof.
  intros E1 E2 E3. unfold allocate. rewrite E1, E2, E3.
  destruct ((m_memory st =? 0) || (size =? 0)); [reflexivity|].
  match goal with |- context [if ?c then _ else _] => destruct c end; reflexivity.
Qed.

(** X9. A marker taken before a run of allocations gives the memory back
    in one call: after [rollback_to_marker] the top of the stack and
    what is available are what they were at the marker, and the next
    block is handed out at the address it would have had then.  The
    number of blocks in use is not changed by the rollback, and the
    bytes in use become the marker itself. *)
Theorem rollback_restores reqs st ptrs st' :
  0 <= m_current_offset st <= m_total_size st ->
  requests_ok st reqs ->
  allocate_all st reqs = (ptrs, st') -> Forall (fun p => p <> 0) ptrs ->
  let st'' := rollback_to_marker st' (get_marker st) in
  m_current_offset st'' = m_current_offset st /\
  m_previous_offset st'' = 0 /\
  available st'' = available st /\
  (forall size alignment t,
     fst (allocate st'' size alignment t) = fst (allocate st size alignment t)) /\
  Base.current_allocations (stats st'') = Base.current_allocations (stats st') /\
  (ptrs <> [] -> Base.current_bytes_used (stats st'') = get_marker st).
Proof.
  intros Hcur Hok Hrun Hnz.
  destruct (allocate_all_grows _ _ _ _ Hcur Hok Hrun Hnz) as (G1 & G2 & G3 & G4).
  cbn zeta. unfold rollback_to_marker, get_marker.
  replace (m_current_offset st' <? m_current_offset st) with false
    by (symmetry; apply Z.ltb_ge; lia).
  cbn [m_current_offset m_previous_offset].
  split; [reflexivity|]. split; [reflexivity|]. split.
  { unfold available, m_total_size in *. cbn. now rewrite G4. }
  split.
  { intros size alignment t. apply allocate_pointer; cbn;
      try assumption; try reflexivity. }
  split.
  { unfold stats. cbn. now destruct (0 <? _). }
  intros Hne.
  assert (Hb : m_total_size st < Word.modulus).
  { destruct reqs as [|[[s a] t] r].
    - cbn in Hrun. inversion Hrun; subst. contradiction.
    - inversion Hok as [|? ? Hw _]; subst. destruct Hw as (? & ? & ? & ? & ?).
      cbn [fst snd] in *. unfold header_size in *. lia. }
  specialize (G2 Hne). unfold stats. cbn.
  rewrite WordFacts.wrap_small by lia.
  replace (0 <? m_current_offset st' - m_current_offset st) with true
    by (symmetry; apply Z.ltb_lt; lia).
  reflexivity.
Qed.


Lemma allocate_all_frame reqs :
  forall st ptrs st',
    0 <= m_current_offset st <= m_total_size st ->
    0 <= m_previous_offset st < Word.modulus ->
    requests_ok st reqs ->
    allocate_all st reqs = (ptrs, st') -> Forall (fun p => p <> 0) ptrs ->
    forall x, x < m_memory st + m_current_offset st -> heap st' x = heap st x.
Proof.
  induction reqs as [|[[size alignment] t] r IH];
    intros st ptrs st' Hcur Hprev Hok Hrun Hnz x Hx.
  - cbn in Hrun. inversion Hrun; subst. reflexivity.
  - cbn [allocate_all] in Hrun.
    destruct (allocate st size alignment t) as [p1 st1] eqn:E1.
    destruct (allocate_all st1 r) as [ps st2] eqn:E2.
    inversion Hrun; subst ptrs st2. clear Hrun.
    inversion Hnz as [|? ? Hp1 Hps]; subst.
    inversion Hok as [|? ? Hw Hok']; subst. cbn [fst snd] in Hw.
    destruct (allocate_success _ _ _ _ _ _ Hw Hcur E1 Hp1) as (A & _ & _ & _).
    pose proof Hw as (Ha & Hs & Hm & Ht & Hsum).
    pose proof (al_adj_range _ _ _ _ _ A) as Hadj.
    pose proof (al_size _ _ _ _ _ A) as Hsz.
    pose proof (al_ptr _ _ _ _ _ A) as Hptr.
    pose proof (al_cur _ _ _ _ _ A) as Hc1.
    pose proof (al_fit _ _ _ _ _ A) as Hfit.
    pose proof (al_prev _ _ _ _ _ A) as Hp1'.
    pose proof (al_mem _ _ _ _ _ A) as Hm1.
    pose proof (al_total _ _ _ _ _ A) as Ht1.
    destruct (header_fields _ _ _ _ _ A ltac:(unfold header_size in *; lia) Hprev)
      as (_ & _ & Hf3).
    unfold header_size in *.
    assert (Hok1 : requests_ok st1 r).
    { unfold requests_ok in *. eapply List.Forall_impl; [|exact Hok'].
      intros y Hy. eapply no_wrap_same; [| |exact Hy]; assumption. }
    rewrite (IH st1 ps st' ltac:(lia) ltac:(lia) Hok1 E2 Hps x ltac:(lia)).
    apply Hf3. lia.
Qed.

(** The end offset that [deallocate] computes for a block of a run
    that is not the last one is below the top of the stack. *)
Lemma allocate_all_below reqs :
  forall st ptrs q st',
    0 <= m_current_offset st <= m_total_size st ->
    0 <= m_previous_offset st < Word.modulus ->
    requests_ok st reqs ->
    allocate_all st reqs = (ptrs ++ [q], st') ->
    Forall (fun p => p <> 0) (ptrs ++ [q]) ->
    Forall (fun p => expected_offset st' p < m_current_offset st') ptrs.
Proof.
  induction reqs as [|[[size alignment] t] r IH];
    intros st ptrs q st' Hcur Hprev Hok Hrun Hnz.
  - cbn in Hrun. inversion Hrun as [[E _]]. now destruct ptrs.
  - destruct ptrs as [|p1 ptrs]; [constructor|].
    cbn [allocate_all] in Hrun.
    destruct (allocate st size alignment t) as [p1' st1] eqn:E1.
    destruct (allocate_all st1 r) as [ps st2] eqn:E2.
    cbn [app] in Hrun, Hnz.
    inversion Hrun; subst p1' ps st2. clear Hrun.
    inversion Hnz as [|? ? Hp1 Hps]; subst.
    inversion Hok as [|? ? Hw Hok']; subst. cbn [fst snd] in Hw.
    destruct (allocate_success _ _ _ _ _ _ Hw Hcur E1 Hp1) as (A & _ & _ & _).
    pose proof Hw as (Ha & Hs & Hm & Ht & Hsum).
    pose proof (al_adj_range _ _ _ _ _ A) as Hadj.
    pose proof (al_size _ _ _ _ _ A) as Hsz.
    pose proof (al_ptr _ _ _ _ _ A) as Hptr.
    pose proof (al_cur _ _ _ _ _ A) as Hc1.
    pose proof (al_fit _ _ _ _ _ A) as Hfit.
    pose proof (al_prev _ _ _ _ _ A) as Hp1'.
    pose proof (al_mem _ _ _ _ _ A) as Hm1.
    pose proof (al_total _ _ _ _ _ A) as Ht1.
    destruct (header_fields _ _ _ _ _ A ltac:(unfold header_size in *; lia) Hprev)
      as (Hf1 & _ & _).
    unfold header_size in *.
    assert (Hok1 : requests_ok st1 r).
    { unfold requests_ok in *. eapply List.Forall_impl; [|exact Hok'].
      intros y Hy. eapply no_wrap_same; [| |exact Hy]; assumption. }
    destruct (allocate_all_grows r st1 _ st' ltac:(lia) Hok1 E2 Hps) as (G1 & G2 & G3 & G4).
    pose proof (allocate_all_frame r st1 _ st' ltac:(lia) ltac:(lia) Hok1 E2 Hps) as Hfr.
    specialize (G2 ltac:(now destruct ptrs)).
    constructor.
    + unfold expected_offset, header_size.
      rewrite (WordFacts.wrap_small (p1 - 24)) by lia.
      rewrite (FreeListProps.load64_ext (heap st1) (heap st') (p1 - 24))
        by (intros y Hy; apply Hfr; lia).
      rewrite Hf1, G3, Hm1.
      rewrite (WordFacts.wrap_small (p1 - m_memory st)) by lia.
      rewrite WordFacts.wrap_small by lia. lia.
    + exact (IH st1 ptrs q st' ltac:(lia) ltac:(lia) Hok1 E2 Hps).
Qed.

Lemma deallocate_all_ignored calls :
  forall st,
    Forall (fun c : Z * float => expected_offset st (fst c) <> m_current_offset st)
      calls ->
    deallocate_all st calls = st.
Proof.
  induction calls as [|[p t] r IH]; intros st H; [reflexivity|].
  inversion H as [|? ? H1 H2]; subst. cbn [deallocate_all fst] in *.
  assert (E : deallocate st p t = st).
  { unfold deallocate. destruct ((p =? 0) || (m_memory st =? 0)); [reflexivity|].
    apply Z.eqb_neq in H1. now rewrite H1. }
  rewrite E. now apply IH.
Qed.

(** X10. Only the block on top of the stack can be handed back.  After a
    run of allocations that all succeeded, [deallocate] called on the
    blocks below the last one, in any order and any number of times,
    changes nothing at all; so handing the blocks back in the order in
    which they were allocated releases the last one only. *)
Theorem stack_keeps_lower_blocks reqs st ptrs q st' calls :
  0 <= m_current_offset st <= m_total_size st ->
  0 <= m_previous_offset st < Word.modulus ->
  requests_ok st reqs ->
  allocate_all st reqs = (ptrs ++ [q], st') ->
  Forall (fun p => p <> 0) (ptrs ++ [q]) ->
  Forall (fun c : Z * float => In (fst c) ptrs) calls ->
  deallocate_all st' calls = st' /\
  forall t, deallocate_all st' (calls ++ [(q, t)]) = deallocate st' q t.
Proof.
  intros Hcur Hprev Hok Hrun Hnz Hcalls.
  pose proof (allocate_all_below _ _ _ _ _ Hcur Hprev Hok Hrun Hnz) as Hb.
  assert (E : deallocate_all st' calls = st').
  { apply deallocate_all_ignored. eapply List.Forall_impl; [|exact Hcalls].
    intros [p t] Hin. cbn [fst] in *.
    rewrite List.Forall_forall in Hb. specialize (Hb p Hin). lia. }
  split; [exact E|]. intros t. rewrite deallocate_all_app, E. reflexivity.
Qed.

Lemma stack_reqs_ok : requests_ok Scenario.stack0 stack_reqs.
Proof.
unfold requests_ok, stack_reqs.
repeat (apply List.Forall_cons;
        [cbn [fst snd]; apply Scenarios.stack0_no_wrap; lia|]).
apply List.Forall_nil.
Qed.

Lemma stack_run_pointers : fst stack_run = [4120; 4248; 4472].
Proof. vm_compute. reflexivity. Qed.

Lemma stack_lifo_deep_witness :
restored Scenario.stack0 (deallocate_all (snd stack_run) stack_calls).
Proof.
apply (stack_lifo_deep stack_reqs Scenario.stack0 (fst stack_run) (snd stack_run)
         stack_calls).
- cbn. lia.
- cbn. lia.
- cbn. unfold Word.in_range, Word.modulus. lia.
- cbn. unfold Word.in_range, Word.modulus. lia.
- exact stack_reqs_ok.
- apply surjective_pairing.
- rewrite stack_run_pointers. repeat constructor; lia.
- rewrite stack_run_pointers. reflexivity.
Defined.

Lemma allocate_within_witness :
let p := fst (allocate Scenario.stack0 100 16 Scenario.tick) in
let st' := snd (allocate Scenario.stack0 100 16 Scenario.tick) in
m_memory Scenario.stack0 + m_current_offset Scenario.stack0 + header_size <= p /\
p + 100 = m_memory Scenario.stack0 + m_current_offset st' /\
m_current_offset st' <= m_total_size Scenario.stack0 /\
owns st' p = true /\
(Word.is_power_of_two 16 = true ->
 (p - header_size) mod 16 = 0 /\ p mod 16 = header_size mod 16).
Proof.
apply (allocate_within Scenario.stack0 100 16 Scenario.tick).
- apply Scenarios.stack0_no_wrap; lia.
- cbn. lia.
- apply surjective_pairing.
- apply Z.eqb_neq. vm_compute. reflexivity.
Defined.

Lemma rollback_restores_witness :
let st'' := rollback_to_marker (snd stack_run) (get_marker Scenario.stack0) in
m_current_offset st'' = m_current_offset Scenario.stack0 /\
m_previous_offset st'' = 0 /\
available st'' = available Scenario.stack0 /\
(forall size alignment t,
   fst (allocate st'' size alignment t)
   = fst (allocate Scenario.stack0 size alignment t)) /\
Base.current_allocations (stats st'')
  = Base.current_allocations (stats (snd stack_run)) /\
(fst stack_run <> [] ->
 Base.current_bytes_used (stats st'') = get_marker Scenario.stack0).
Proof.
apply (rollback_restores stack_reqs Scenario.stack0 (fst stack_run) (snd stack_run)).
- cbn. lia.
- exact stack_reqs_ok.
- apply surjective_pairing.
- rewrite stack_run_pointers. repeat constructor; lia.
Defined.

Lemma stack_keeps_lower_blocks_witness :
  deallocate_all (snd stack_run) [(4120, Scenario.tick); (4248, Scenario.tick)]
    = snd stack_run /\
  forall t,
    deallocate_all (snd stack_run)
      ([(4120, Scenario.tick); (4248, Scenario.tick)] ++ [(4472, t)])
    = deallocate (snd stack_run) 4472 t.
Proof.
  apply (stack_keeps_lower_blocks stack_reqs Scenario.stack0 [4120; 4248] 4472).
  - vm_compute. split; discriminate.
  - vm_compute. split; [discriminate|reflexivity].
  - exact stack_reqs_ok.
  - change (stack_run = ([4120; 4248; 4472], snd stack_run)).
    rewrite <- stack_run_pointers. apply surjective_pairing.
  - repeat (apply List.Forall_cons; [discriminate|]). apply List.Forall_nil.
  - apply List.Forall_cons; [cbn; tauto|].
    apply List.Forall_cons; [cbn; tauto|]. apply List.Forall_nil.
Defined.

End StackRunProps.

Module PoolUseProps.
Import Pool PoolUse Runs.

Lemma blocks_snoc memory bs n :
  blocks memory bs (S n) = blocks memory bs n ++ [memory + Z.of_nat n * bs].
Proof. unfold blocks. rewrite seq_S, map_app. reflexivity. Qed.

Lemma blocks_length memory bs n : length (blocks memory bs n) = n.
Proof. unfold blocks. now rewrite length_map, length_seq. Qed.

Lemma in_blocks memory bs n b :
  In b (blocks memory bs n) <->
  exists i, 0 <= i < Z.of_nat n /\ b = memory + i * bs.
Proof.
  unfold blocks. rewrite in_map_iff. split.
  - intros (i & <- & Hi). apply in_seq in Hi. exists (Z.of_nat i). split; [lia|reflexivity].
  - intros (i & Hi & ->). exists (Z.to_nat i). split.
    + now rewrite Z2Nat.id by lia.
    + apply in_seq. lia.
Qed.

Lemma blocks_NoDup memory bs n : 0 < bs -> NoDup (blocks memory bs n).
Proof.
  intros Hbs. induction n as [|n IH]; [constructor|].
  rewrite blocks_snoc. apply NoDup_app. split; [exact IH|]. split.
  - intros x Hx Hy. apply list_elem_of_In in Hx. apply in_blocks in Hx.
    destruct Hx as (i & Hi & ->). apply list_elem_of_singleton in Hy. nia.
  - apply NoDup_singleton.
Qed.

Lemma in_all_blocks st b :
  0 <= m_block_count st -> In b (all_blocks st) <-> is_block st b.
Proof.
  intros Hc. unfold all_blocks, is_block, blockp. rewrite in_blocks.
  now rewrite Z2Nat.id by lia.
Qed.

Lemma plist_ext h h' l p :
  (forall a, In a l -> Mem.load64 h' a = Mem.load64 h a) ->
  plist h p l -> plist h' p l.
Proof.
  revert p. induction l as [|a r IH]; intros p He Hl; cbn in *; [exact Hl|].
  destruct Hl as (-> & Ha & Hr). split; [reflexivity|]. split; [exact Ha|].
  rewrite He by now left. apply IH; [|exact Hr]. intros b Hb. apply He. now right.
Qed.

Lemma plist_functional h l1 : forall l2 p, plist h p l1 -> plist h p l2 -> l1 = l2.
Proof.
  induction l1 as [|a r IH]; intros [|b s] p H1 H2; cbn in *.
  - reflexivity.
  - destruct H2 as (-> & Hb & _). congruence.
  - destruct H1 as (-> & Ha & _). congruence.
  - destruct H1 as (-> & Ha & H1), H2 as (E & Hb & H2). subst b.
    f_equal. eapply IH; eassumption.
Qed.


Lemma plist_head_range h p l memory bs n :
  0 < memory -> 0 <= bs -> memory + bs * Z.of_nat n < Word.modulus ->
  plist h p l -> (forall a, In a l -> In a (blocks memory bs n)) ->
  0 <= p < Word.modulus.
Proof.
  intros Hm Hbs Hr Hl Hin. destruct l as [|a r]; cbn in Hl.
  - subst. unfold Word.modulus. lia.
  - destruct Hl as (-> & _ & _). specialize (Hin a ltac:(now left)).
    apply in_blocks in Hin. destruct Hin as (i & Hi & ->). nia.
Qed.

(** The loop of [initialize_free_list] threads the blocks in the order
    of their addresses. *)
Lemma link_blocks_plist memory bs count :
  0 < memory -> 8 <= bs -> memory + bs * count < Word.modulus ->
  forall n fl h rest,
    Z.of_nat n <= count -> plist h fl rest ->
    (forall a, In a rest ->
       exists i, Z.of_nat n <= i < count /\ a = memory + i * bs) ->
    plist (snd (link_blocks n memory bs fl h))
      (fst (link_blocks n memory bs fl h)) (blocks memory bs n ++ rest).
Proof.
  intros Hm Hbs Hr. induction n as [|k IH]; intros fl h rest Hn Hl Hrest.
  - exact Hl.
  - cbn [link_blocks].
    rewrite (PoolProps.block_addr_exact memory bs count) by lia.
    set (block := memory + Z.of_nat k * bs).
    rewrite blocks_snoc, <- app_assoc. cbn [app]. fold block.
    apply IH; [lia| |].
    + cbn. split; [reflexivity|]. split; [unfold block; nia|].
      assert (Hfl : 0 <= fl < Word.modulus).
      { destruct rest as [|a r]; cbn in Hl.
        - subst. unfold Word.modulus. lia.
        - destruct Hl as (-> & _ & _).
          destruct (Hrest a ltac:(now left)) as (i & Hi & ->). nia. }
      rewrite MemFacts.load_store_same, WordFacts.wrap_small by exact Hfl.
      apply (plist_ext h); [|exact Hl].
      intros a Ha. destruct (Hrest a Ha) as (i & Hi & ->).
      apply MemFacts.load_store_other. unfold block. nia.
    + intros a [<-|Ha].
      * exists (Z.of_nat k). split; [lia|reflexivity].
      * destruct (Hrest a Ha) as (i & Hi & ->). exists i. split; [lia|reflexivity].
Qed.

Lemma initialize_free_list_plist st :
  0 < m_memory st -> 8 <= m_block_size st -> 0 <= m_block_count st ->
  m_memory st + m_block_size st * m_block_count st < Word.modulus ->
  plist (heap (initialize_free_list st)) (m_free_list (initialize_free_list st))
    (all_blocks st) /\
  base (initialize_free_list st) = base st /\
  m_block_size (initialize_free_list st) = m_block_size st /\
  m_block_count (initialize_free_list st) = m_block_count st /\
  m_memory (initialize_free_list st) = m_memory st /\
  m_allocated_blocks (initialize_free_list st) = m_allocated_blocks st.
Proof.
  intros Hm Hbs Hc Hr.
  pose proof (link_blocks_plist _ _ _ Hm Hbs Hr (Z.to_nat (m_block_count st)) 0
                (heap st) [] ltac:(lia) eq_refl) as L.
  specialize (L ltac:(intros a [])). rewrite app_nil_r in L.
  unfold initialize_free_list.
  destruct (link_blocks (Z.to_nat (m_block_count st)) (m_memory st)
              (m_block_size st) 0 (heap st)) as [fl h'].
  cbn in *. repeat split. exact L.
Qed.

Lemma construct_tracks block_size block_count alignment buffer heap0 :
  constructible block_size block_count alignment buffer ->
  let st := construct block_size block_count alignment buffer heap0 in
  tracks st (all_blocks st) [].
Proof.
  intros [C1 C2 C3 C4 C5 C6]. cbn zeta. unfold construct.
  replace (buffer =? 0) with false by (symmetry; apply Z.eqb_neq; lia).
  set (st0 := mkPool _ _ _ _ _ _ _ _).
  destruct (initialize_free_list_plist st0) as (L & E1 & E2 & E3 & E4 & E5);
    cbn; try lia.
  unfold all_blocks. rewrite E2, E3, E4.
  assert (Ew : Word.wrap (Word.align_size block_size alignment * block_count)
               = Word.align_size block_size alignment * block_count).
  { apply WordFacts.wrap_small. nia. }
  split; unfold stats, m_total_size; rewrite ?E1, ?E2, ?E3, ?E4, ?E5; cbn;
    try lia; try assumption.
  rewrite app_nil_r. unfold all_blocks. rewrite ?E2, ?E3, ?E4. reflexivity.
Qed.

Lemma reset_tracks st free lent :
  tracks st free lent -> tracks (reset st) (all_blocks st) [].
Proof.
  intros [T1 T2 T3 T4 T5 T6 T7 T8 T9 T10 T11]. unfold reset.
  replace (m_memory st =? 0) with false by (symmetry; apply Z.eqb_neq; lia).
  destruct (initialize_free_list_plist st) as (L & E1 & E2 & E3 & E4 & E5);
    try assumption.
  unfold m_total_size in *.
  split; unfold stats, m_total_size, all_blocks; cbn;
    rewrite ?E1, ?E2, ?E3, ?E4, ?E5; cbn; try lia; try assumption.
  rewrite app_nil_r. reflexivity.
Qed.

Lemma tracks_lengths st free lent :
  tracks st free lent ->
  Z.of_nat (length free) + Z.of_nat (length lent) = m_block_count st.
Proof.
  intros T. pose proof (Permutation_length (tr_all _ _ _ T)) as E.
  rewrite length_app in E. unfold all_blocks in E. rewrite blocks_length in E.
  pose proof (tr_count _ _ _ T). lia.
Qed.

Lemma tracks_block st free lent b :
  tracks st free lent -> In b (free ++ lent) ->
  exists i, 0 <= i < m_block_count st /\ b = m_memory st + i * m_block_size st.
Proof.
  intros T Hb. pose proof (tr_count _ _ _ T).
  apply (Permutation_in _ (tr_all _ _ _ T)) in Hb.
  apply in_all_blocks in Hb; [exact Hb|lia].
Qed.

Lemma tracks_NoDup st free lent : tracks st free lent -> NoDup (free ++ lent).
Proof.
  intros T. rewrite (tr_all _ _ _ T).
  apply blocks_NoDup. pose proof (tr_block _ _ _ T). lia.
Qed.

(** What [allocate] does to a pool in use. *)
Lemma allocate_tracks st free lent size alignment t p st' :
  tracks st free lent -> allocate st size alignment t = (p, st') ->
  (p = 0 /\ st' = st /\ (free = [] \/ m_block_size st < size)) \/
  (p <> 0 /\ size <= m_block_size st /\
   exists r, free = p :: r /\ tracks st' r (p :: lent)).
Proof.
  intros T Hal. pose proof T as [T1 T2 T3 T4 T5 T6 T7 T8 T9 T10 T11].
  pose proof (tracks_lengths _ _ _ T) as Hlen.
  unfold allocate in Hal.
  replace (m_memory st =? 0) with false in Hal by (symmetry; apply Z.eqb_neq; lia).
  cbn [orb] in Hal.
  destruct free as [|a r].
  - cbn in T6. rewrite T6 in Hal. cbn in Hal. inversion Hal; subst. left. auto.
  - cbn in T6. destruct T6 as (Hh & Ha & Hr).
    replace (m_free_list st =? 0) with false in Hal
      by (symmetry; apply Z.eqb_neq; congruence).
    cbn [orb] in Hal.
    destruct (m_block_size st <? size) eqn:Hs.
    + apply Z.ltb_lt in Hs. inversion Hal; subst. left. auto.
    + apply Z.ltb_ge in Hs. inversion Hal; subst p st'. clear Hal. right.
      rewrite Hh. split; [exact Ha|]. split; [exact Hs|]. exists r.
      split; [reflexivity|].
      cbn [length] in Hlen.
      assert (Hb : Z.of_nat (length lent) + 1 <= m_block_count st) by lia.
      assert (Hmod : Word.modulus = 2 ^ 64) by reflexivity.
      split; unfold stats, m_total_size, all_blocks in *; cbn; try assumption.
      * rewrite <- T7. symmetry. apply Permutation_middle.
      * rewrite T8. rewrite WordFacts.wrap_small by nia. lia.
      * rewrite T9. rewrite WordFacts.wrap_small by nia. lia.
      * rewrite T10. rewrite WordFacts.wrap_small by nia. lia.
      * rewrite T10. rewrite WordFacts.wrap_small by nia.
        destruct (Base.peak_bytes_used (Base.m_stats (base st))
                  <? Z.of_nat (length lent) * m_block_size st + m_block_size st) eqn:E.
        -- lia.
        -- apply Z.ltb_ge in E. lia.
Qed.

(** What [deallocate] does with a block on loan. *)
Lemma deallocate_tracks st free lent1 p lent2 t :
  tracks st free (lent1 ++ p :: lent2) ->
  tracks (deallocate st p t) (p :: free) (lent1 ++ lent2).
Proof.
  intros T. pose proof T as [T1 T2 T3 T4 T5 T6 T7 T8 T9 T10 T11].
  pose proof (tracks_lengths _ _ _ T) as Hlen.
  pose proof (tracks_NoDup _ _ _ T) as Hnd.
  assert (Hp : In p (free ++ lent1 ++ p :: lent2)).
  { apply in_or_app. right. apply in_or_app. right. now left. }
  destruct (tracks_block _ _ _ _ T Hp) as (i & Hi & Hpi).
  assert (Hmod : Word.modulus = 2 ^ 64) by reflexivity.
  assert (Hown : owns st p = true).
  { unfold owns. rewrite T5.
    replace (m_memory st =? 0) with false by (symmetry; apply Z.eqb_neq; lia).
    replace (p =? 0) with false by (symmetry; apply Z.eqb_neq; nia).
    cbn [orb]. rewrite WordFacts.wrap_small by nia.
    apply andb_true_intro. split; [apply Z.leb_le|apply Z.ltb_lt]; nia. }
  unfold deallocate. rewrite Hown.
  replace (p =? 0) with false by (symmetry; apply Z.eqb_neq; nia).
  cbn [orb negb].
  rewrite length_app in *. cbn [length] in *.
  assert (Hfl : 0 <= m_free_list st < Word.modulus).
  { apply (plist_head_range (heap st) _ free (m_memory st) (m_block_size st)
             (Z.to_nat (m_block_count st))); try lia.
    - exact T6.
    - intros a Ha. apply (Permutation_in _ T7). apply in_or_app. now left. }
  assert (Hcnt : m_block_count st < Word.modulus) by nia.
  assert (Hn : 1 <= Z.of_nat (length lent1 + S (length lent2)) <= m_block_count st)
    by lia.
  assert (Hnb : Z.of_nat (length lent1 + S (length lent2)) * m_block_size st
                <= m_block_count st * m_block_size st) by nia.
  assert (Hsub : Z.of_nat (length lent1 + S (length lent2)) * m_block_size st
                 - m_block_size st
                 = Z.of_nat (length lent1 + length lent2) * m_block_size st) by nia.
  split; unfold stats, m_total_size, all_blocks in *; cbn; try assumption.
  - split; [reflexivity|]. split; [nia|].
    rewrite MemFacts.load_store_same, WordFacts.wrap_small by exact Hfl.
    apply (plist_ext (heap st)); [|exact T6].
    intros a Ha. apply MemFacts.load_store_other.
    assert (Hab : In a (free ++ lent1 ++ p :: lent2)) by (apply in_or_app; now left).
    destruct (tracks_block _ _ _ _ T Hab) as (j & Hj & Haj).
    assert (a <> p).
    { intros ->. apply NoDup_app in Hnd. destruct Hnd as (_ & Hd & _).
      apply (Hd p); [now apply list_elem_of_In|].
      apply list_elem_of_In. apply in_or_app. right. now left. }
    destruct (PoolProps.blocks_apart (m_memory st) (m_block_size st)
                (m_block_count st) a p T1) as [E|E].
    + exists j. split; [lia|exact Haj].
    + exists i. split; [lia|exact Hpi].
    + contradiction.
    + lia.
  - rewrite <- T7. cbn [app]. rewrite !app_assoc. apply Permutation_middle.
  - rewrite T8, length_app. rewrite WordFacts.wrap_small by lia. lia.
  - rewrite T9, length_app. rewrite WordFacts.wrap_small by lia. lia.
  - rewrite T10, length_app. rewrite WordFacts.wrap_small by lia. lia.
  - rewrite T10. rewrite WordFacts.wrap_small by lia. lia.
Qed.

Lemma used_tracks st lent : used st lent -> exists free, tracks st free lent.
Proof.
  induction 1 as [bs bc al buf h0 C | st lent size al t p st' U IH Hal Hp
                 | st lent size al t st' U IH Hal
                 | st l1 p l2 t U IH | st lent U IH].
  - eexists. now apply construct_tracks.
  - destruct IH as (free & T).
    destruct (allocate_tracks _ _ _ _ _ _ _ _ T Hal)
      as [(E & _)|(_ & _ & r & _ & T')]; [contradiction|].
    now exists r.
  - destruct IH as (free & T).
    destruct (allocate_tracks _ _ _ _ _ _ _ _ T Hal)
      as [(_ & -> & _)|(E & _)]; [|contradiction].
    now exists free.
  - destruct IH as (free & T). exists (p :: free). now apply deallocate_tracks.
  - destruct IH as (free & T). eexists. eapply reset_tracks. exact T.
Qed.


Lemma tracks_owns st free lent st' p :
  tracks st free lent -> In p (free ++ lent) ->
  m_memory st' = m_memory st -> m_total_size st' = m_total_size st ->
  owns st' p = true.
Proof.
  intros T Hp E1 E2. pose proof T as [T1 T2 T3 T4 T5 T6 T7 T8 T9 T10 T11].
  destruct (tracks_block _ _ _ _ T Hp) as (i & Hi & Hpi).
  unfold owns. rewrite E1, E2, T5.
  replace (m_memory st =? 0) with false by (symmetry; apply Z.eqb_neq; lia).
  replace (p =? 0) with false by (symmetry; apply Z.eqb_neq; nia).
  cbn [orb]. rewrite WordFacts.wrap_small by nia.
  apply andb_true_intro. split; [apply Z.leb_le|apply Z.ltb_lt]; nia.
Qed.

(** X11. The books of a pool whose callers hand back only what they were
    lent: the counter of the pool and the statistics both count the
    blocks on loan, what is free and what is on loan add up to the
    pool, no block is on loan twice, and every block on loan is a block
    of the pool. *)
Theorem pool_accounting st lent :
  used st lent ->
  allocated_blocks st = Z.of_nat (length lent) /\
  free_blocks st + allocated_blocks st = m_block_count st /\
  available st = free_blocks st * m_block_size st /\
  Base.current_allocations (stats st) = allocated_blocks st /\
  Base.current_bytes_used (stats st) = allocated_blocks st * m_block_size st /\
  Base.current_bytes_used (stats st) <= Base.peak_bytes_used (stats st) /\
  List.NoDup lent /\
  (forall p, In p lent -> is_block st p /\ owns st p = true).
Proof.
  intros U. destruct (used_tracks _ _ U) as (free & T).
  pose proof T as [T1 T2 T3 T4 T5 T6 T7 T8 T9 T10 T11].
  pose proof (tracks_lengths _ _ _ T) as Hlen.
  pose proof (tracks_NoDup _ _ _ T) as Hnd.
  assert (Hcnt : m_block_count st < Word.modulus) by nia.
  assert (Hfree : free_blocks st = Z.of_nat (length free)).
  { unfold free_blocks. rewrite T8. rewrite WordFacts.wrap_small by lia. lia. }
  unfold allocated_blocks. rewrite Hfree.
  repeat split; try lia.
  - unfold available. rewrite Hfree. apply WordFacts.wrap_small. nia.
  - apply NoDup_ListNoDup. apply NoDup_app in Hnd. tauto.
  - apply (in_all_blocks st p T2). apply (Permutation_in _ T7).
    apply in_or_app. now right.
  - eapply tracks_owns; [exact T| |reflexivity|reflexivity].
    apply in_or_app. now right.
Qed.

(** X12. A pool never lends a block twice: [allocate] fails exactly when
    every block is on loan or the request is larger than a block, and
    the block it hands out otherwise is a block of the pool that was
    not on loan. *)
Theorem pool_allocate_fresh st lent size alignment t p st' :
  used st lent -> allocate st size alignment t = (p, st') ->
  (p = 0 <->
   Z.of_nat (length lent) = m_block_count st \/ m_block_size st < size) /\
  (p = 0 -> st' = st) /\
  (p <> 0 -> ~ In p lent /\ is_block st p /\ owns st' p = true).
Proof.
  intros U Hal. destruct (used_tracks _ _ U) as (free & T).
  pose proof (tracks_lengths _ _ _ T) as Hlen.
  pose proof (tracks_NoDup _ _ _ T) as Hnd.
  pose proof (tr_count _ _ _ T) as Hc.
  destruct (allocate_tracks _ _ _ _ _ _ _ _ T Hal)
    as [(-> & -> & Hwhy)|(Hp & Hs & r & -> & T')].
  - split; [|split; [reflexivity|contradiction]].
    split; [|reflexivity]. intros _.
    destruct Hwhy as [->|Hs]; [left; cbn in Hlen; lia|now right].
  - split; [|split; [contradiction|]].
    + split; [contradiction|]. cbn [length] in Hlen. intros [E|E]; lia.
    + intros _. split; [|split].
      * intros Hin. apply NoDup_app in Hnd. destruct Hnd as (_ & Hd & _).
        apply (Hd p); apply list_elem_of_In; [now left|exact Hin].
      * apply (in_all_blocks st p Hc). apply (Permutation_in _ (tr_all _ _ _ T)).
        now left.
      * eapply (tracks_owns st' r (p :: lent) st' p T');
          [apply in_or_app; right; now left|reflexivity|reflexivity].
Qed.

Lemma firstn_blocks memory bs n k :
  (k <= n)%nat -> firstn k (blocks memory bs n) = blocks memory bs k.
Proof.
  intros Hk. unfold blocks. rewrite firstn_map. f_equal.
  replace n with (k + (n - k))%nat by lia. rewrite seq_app.
  rewrite firstn_app, length_seq, Nat.sub_diag. cbn [firstn].
  rewrite app_nil_r. apply firstn_all2. rewrite length_seq. lia.
Qed.

Lemma allocate_all_takes reqs :
  forall st free lent,
    tracks st free lent ->
    Forall (fun r : Z * Z * float => fst (fst r) <= m_block_size st) reqs ->
    (length reqs <= length free)%nat ->
    fst (allocate_all st reqs) = firstn (length reqs) free.
Proof.
  induction reqs as [|[[size al] t] rq IH]; intros st free lent T Hs Hl.
  - reflexivity.
  - cbn [allocate_all length].
    destruct (allocate st size al t) as [p st1] eqn:E1.
    inversion Hs as [|? ? H1 H2]; subst. cbn [fst] in H1.
    destruct (allocate_tracks _ _ _ _ _ _ _ _ T E1)
      as [(-> & -> & [->|Hbig])|(Hp & _ & r & -> & T')].
    + cbn in Hl. lia.
    + lia.
    + assert (Hbs : m_block_size st1 = m_block_size st).
      { unfold allocate in E1.
        destruct ((m_memory st =? 0) || (m_free_list st =? 0)
                  || (m_block_size st <? size)); inversion E1; subst; reflexivity. }
      specialize (IH st1 r (p :: lent) T').
      destruct (allocate_all st1 rq) as [ps st2]. cbn [fst firstn] in *.
      f_equal. apply IH.
      * rewrite Hbs. exact H2.
      * cbn in Hl. lia.
Qed.

(** X13. A fresh pool hands out its blocks in the order of their addresses:
    the pointers of the first [k] requests, none larger than a block,
    are the addresses of the first [k] blocks. *)
Theorem pool_fresh_order block_size block_count alignment buffer heap0 reqs :
  constructible block_size block_count alignment buffer ->
  let st := construct block_size block_count alignment buffer heap0 in
  Forall (fun r : Z * Z * float => fst (fst r) <= m_block_size st) reqs ->
  Z.of_nat (length reqs) <= block_count ->
  fst (allocate_all st reqs)
  = blocks buffer (Word.align_size block_size alignment) (length reqs).
Proof.
  intros C st Hs Hl. pose proof (construct_tracks _ _ _ _ heap0 C) as T.
  fold st in T.
  assert (E : all_blocks st
              = blocks buffer (Word.align_size block_size alignment)
                  (Z.to_nat block_count)).
  { unfold all_blocks, st, construct. destruct C as [C1 C2 C3 C4 C5 C6].
    replace (buffer =? 0) with false by (symmetry; apply Z.eqb_neq; lia).
    set (st0 := mkPool _ _ _ _ _ _ _ _).
    destruct (initialize_free_list_plist st0) as (_ & _ & E2 & E3 & E4 & _);
      cbn; try lia.
    now rewrite E2, E3, E4. }
  rewrite (allocate_all_takes reqs st _ _ T Hs).
  - rewrite E. apply firstn_blocks. lia.
  - rewrite E, blocks_length. lia.
Qed.

(** X14. The block that was handed back last is the block that is handed
    out next: [deallocate] followed by [allocate] returns the same
    pointer and leaves the head of the free list and the counter of
    the pool as they were; memory differs only in the link stored in
    the block. *)
Theorem pool_reuse st p size alignment t1 t2 :
  owns st p = true -> size <= m_block_size st ->
  Word.in_range (m_free_list st) -> Word.in_range (m_allocated_blocks st) ->
  let st2 := snd (allocate (deallocate st p t1) size alignment t2) in
  fst (allocate (deallocate st p t1) size alignment t2) = p /\
  m_free_list st2 = m_free_list st /\
  m_allocated_blocks st2 = m_allocated_blocks st /\
  forall x, x < p \/ p + 8 <= x -> heap st2 x = heap st x.
Proof.
  intros Hown Hs Hfl Hab. cbn zeta.
  assert (Hm : m_memory st <> 0 /\ p <> 0).
  { unfold owns in Hown.
    destruct (m_memory st =? 0) eqn:E1; [discriminate|].
    destruct (p =? 0) eqn:E2; [discriminate|].
    apply Z.eqb_neq in E1, E2. auto. }
  destruct Hm as [Hm Hp].
  unfold deallocate. rewrite Hown.
  replace (p =? 0) with false by (symmetry; now apply Z.eqb_neq).
  cbn [orb negb]. unfold allocate. cbn [m_memory m_free_list m_block_size heap].
  replace (m_memory st =? 0) with false by (symmetry; now apply Z.eqb_neq).
  replace (p =? 0) with false by (symmetry; now apply Z.eqb_neq).
  replace (m_block_size st <? size) with false by (symmetry; apply Z.ltb_ge; lia).
  cbn [orb fst snd m_free_list m_allocated_blocks heap].
  repeat split.
  - rewrite MemFacts.load_store_same. now apply WordFacts.wrap_small.
  - unfold Word.wrap. rewrite Zplus_mod_idemp_l.
    replace (m_allocated_blocks st - 1 + 1) with (m_allocated_blocks st) by lia.
    now apply Z.mod_small.
  - intros x Hx. apply MemFacts.store64_outside. exact Hx.
Qed.


Lemma grid_loop_value l :
  forall h memory bs count p g fuel,
    plist h p l -> (length l < fuel)%nat ->
    grid_loop fuel h memory bs count p g
    = Some (fold_left (mark_free memory bs count) l g).
Proof.
  induction l as [|a r IH]; intros h memory bs count p g fuel Hl Hf;
    (destruct fuel as [|f]; [cbn in Hf; lia|]); cbn in Hl |- *.
  - subst. reflexivity.
  - destruct Hl as (-> & Ha & Hr).
    replace (a =? 0) with false by (symmetry; now apply Z.eqb_neq).
    rewrite (IH h memory bs count _ _ f Hr) by (cbn in Hf; lia).
    reflexivity.
Qed.

Lemma mark_free_block memory bs count g i :
  0 < memory -> 0 < bs -> memory + bs * count < Word.modulus ->
  0 <= i < count ->
  mark_free memory bs count g (memory + i * bs) = <[Z.to_nat i := false]> g.
Proof.
  intros Hm Hbs Hr Hi. unfold mark_free.
  replace (memory + i * bs - memory) with (i * bs) by lia.
  rewrite WordFacts.wrap_small by nia. rewrite Z.div_mul by lia.
  replace (i <? count) with true by (symmetry; apply Z.ltb_lt; lia).
  reflexivity.
Qed.

Lemma lent_count_replicate n : lent_count (replicate n true) = Z.of_nat n.
Proof. induction n as [|n IH]; cbn [replicate lent_count]; lia. Qed.

Lemma lent_count_insert g :
  forall j, g !! j = Some true ->
    lent_count (<[j := false]> g) = lent_count g - 1.
Proof.
  induction g as [|b r IH]; intros [|j] Hj; try discriminate.
  - inversion Hj; subst. change (<[0%nat := false]> (true :: r)) with (false :: r).
    cbn [lent_count]. lia.
  - change (<[S j := false]> (b :: r)) with (b :: <[j := false]> r).
    change ((b :: r) !! S j) with (r !! j) in Hj.
    cbn [lent_count]. rewrite (IH j Hj). lia.
Qed.

Lemma fold_mark_free memory bs count l :
  0 < memory -> 0 < bs -> memory + bs * count < Word.modulus ->
  forall g,
    NoDup l ->
    (forall a, In a l -> exists i, 0 <= i < count /\ a = memory + i * bs) ->
    (forall i, 0 <= i < count -> In (memory + i * bs) l ->
       g !! Z.to_nat i = Some true) ->
    let g' := fold_left (mark_free memory bs count) l g in
    length g' = length g /\
    lent_count g' = lent_count g - Z.of_nat (length l) /\
    forall i, 0 <= i < count ->
      (In (memory + i * bs) l -> g' !! Z.to_nat i = Some false) /\
      (~ In (memory + i * bs) l -> g' !! Z.to_nat i = g !! Z.to_nat i).
Proof.
  intros Hm Hbs Hr. induction l as [|a r IH]; intros g Hnd Hblk Htrue.
  - cbn. repeat split; try lia; tauto.
  - destruct (Hblk a ltac:(now left)) as (j & Hj & ->).
    cbn [fold_left]. rewrite mark_free_block by assumption.
    apply NoDup_cons in Hnd. destruct Hnd as [Hnotin Hnd].
    assert (Hjlen : (Z.to_nat j < length g)%nat).
    { apply lookup_lt_is_Some. exists true. apply Htrue; [lia|now left]. }
    specialize (IH (<[Z.to_nat j := false]> g) Hnd).
    destruct IH as (L1 & L2 & L3).
    + intros b Hb. apply Hblk. now right.
    + intros i Hi Hin. rewrite list_lookup_insert_ne.
      * apply Htrue; [lia|now right].
      * intros E. assert (i = j) by lia. subst i.
        apply Hnotin. now apply list_elem_of_In.
    + cbn zeta. rewrite L1, L2, length_insert.
      rewrite lent_count_insert by (apply Htrue; [lia|now left]).
      split; [reflexivity|]. split; [cbn [length]; lia|].
      intros i Hi. destruct (L3 i Hi) as [La Lb]. split.
      * intros [E|Hin].
        -- assert (i = j) by nia. subst i.
           destruct (In_dec Z.eq_dec (memory + j * bs) r) as [Hin|Hno].
           ++ now apply La.
           ++ rewrite (Lb Hno). now apply list_lookup_insert_eq.
        -- now apply La.
      * intros Hno. rewrite Lb by (intros Hin; apply Hno; now right).
        apply list_lookup_insert_ne. intros E. apply Hno. left.
        assert (i = j) by lia. now subst i.
Qed.

Lemma grid_of_tracks st free lent fuel :
  tracks st free lent -> (Z.to_nat (m_block_count st) < fuel)%nat ->
  exists g,
    get_allocation_grid fuel st = Some g /\
    length g = Z.to_nat (m_block_count st) /\
    (forall i, 0 <= i < m_block_count st ->
       g !! Z.to_nat i = Some true <->
       In (m_memory st + i * m_block_size st) lent) /\
    lent_count g = allocated_blocks st.
Proof.
  intros T Hf.
  pose proof T as [T1 T2 T3 T4 T5 T6 T7 T8 T9 T10 T11].
  pose proof (tracks_lengths _ _ _ T) as Hlen.
  pose proof (tracks_NoDup _ _ _ T) as Hnd.
  apply NoDup_app in Hnd. destruct Hnd as (Hnf & Hdisj & _).
  unfold get_allocation_grid.
  rewrite (grid_loop_value free) by (try exact T6; lia).
  eexists. split; [reflexivity|].
  set (g0 := replicate (Z.to_nat (m_block_count st)) true).
  assert (Hg0 : forall i, 0 <= i < m_block_count st ->
                  g0 !! Z.to_nat i = Some true).
  { intros i Hi. unfold g0. apply lookup_replicate_2. lia. }
  destruct (fold_mark_free (m_memory st) (m_block_size st) (m_block_count st)
              free T3 ltac:(lia) T4 g0 Hnf) as (L1 & L2 & L3).
  { intros a Ha. apply (tracks_block _ _ _ _ T). apply in_or_app. now left. }
  { intros i Hi _. now apply Hg0. }
  cbn zeta in L1, L2, L3. rewrite L1, L2. subst g0.
  rewrite length_replicate, lent_count_replicate.
  split; [reflexivity|]. split.
  - intros i Hi. destruct (L3 i Hi) as [La Lb].
    assert (Hblk : In (m_memory st + i * m_block_size st) (free ++ lent)).
    { apply (Permutation_in _ (Permutation_sym T7)).
      apply in_all_blocks; [exact T2|]. exists i. split; [lia|reflexivity]. }
    split.
    + intros Ht. apply in_app_or in Hblk. destruct Hblk as [Hin|Hin]; [|exact Hin].
      rewrite (La Hin) in Ht. discriminate.
    + intros Hin. rewrite Lb; [now apply Hg0|].
      intros Hfr. apply (Hdisj (m_memory st + i * m_block_size st));
        now apply list_elem_of_In.
  - unfold allocated_blocks. lia.
Qed.

(** X15. The grid of the pool shows exactly the blocks on loan: it has one
    entry for each block, the entry of a block is [true] if and only if
    the block is on loan, and the number of [true] entries is the
    counter of the pool. *)
Theorem pool_grid st lent fuel :
  used st lent -> (Z.to_nat (m_block_count st) < fuel)%nat ->
  exists g,
    get_allocation_grid fuel st = Some g /\
    length g = Z.to_nat (m_block_count st) /\
    (forall i, 0 <= i < m_block_count st ->
       g !! Z.to_nat i = Some true <->
       In (m_memory st + i * m_block_size st) lent) /\
    lent_count g = allocated_blocks st.
Proof.
  intros U Hf. destruct (used_tracks _ _ U) as (free & T).
  exact (grid_of_tracks _ _ _ _ T Hf).
Qed.

Lemma pool1_used : used (snd pool1) [fst pool1].
Proof.
apply (used_allocate Scenario.pool0 [] 64 16 Scenario.tick).
- apply used_construct. exact Scenarios.pool0_constructible.
- apply surjective_pairing.
- apply Z.eqb_neq. vm_compute. reflexivity.
Qed.

Lemma pool_accounting_witness :
allocated_blocks (snd pool1) = Z.of_nat (length [fst pool1]) /\
free_blocks (snd pool1) + allocated_blocks (snd pool1) = m_block_count (snd pool1) /\
available (snd pool1) = free_blocks (snd pool1) * m_block_size (snd pool1) /\
Base.current_allocations (stats (snd pool1)) = allocated_blocks (snd pool1) /\
Base.current_bytes_used (stats (snd pool1))
  = allocated_blocks (snd pool1) * m_block_size (snd pool1) /\
Base.current_bytes_used (stats (snd pool1))
  <= Base.peak_bytes_used (stats (snd pool1)) /\
List.NoDup [fst pool1] /\
(forall p, In p [fst pool1] -> is_block (snd pool1) p /\ owns (snd pool1) p = true).
Proof. apply (pool_accounting (snd pool1) [fst pool1]). exact pool1_used. Defined.

Lemma pool_allocate_fresh_witness :
(fst pool1 = 0 <->
 Z.of_nat (length (@nil Z)) = m_block_count Scenario.pool0
 \/ m_block_size Scenario.pool0 < 64) /\
(fst pool1 = 0 -> snd pool1 = Scenario.pool0) /\
(fst pool1 <> 0 ->
 ~ In (fst pool1) [] /\ is_block Scenario.pool0 (fst pool1) /\
 owns (snd pool1) (fst pool1) = true).
Proof.
apply (pool_allocate_fresh Scenario.pool0 [] 64 16 Scenario.tick).
- apply used_construct. exact Scenarios.pool0_constructible.
- apply surjective_pairing.
Defined.

Lemma pool_fresh_order_witness :
fst (allocate_all (construct 64 4 16 4112 Scenario.zeroed) pool_reqs)
= blocks 4112 (Word.align_size 64 16) (length pool_reqs).
Proof.
apply (pool_fresh_order 64 4 16 4112 Scenario.zeroed pool_reqs).
- exact Scenarios.pool0_constructible.
- unfold pool_reqs.
  repeat (apply List.Forall_cons;
          [cbn [fst snd]; apply Z.leb_le; vm_compute; reflexivity|]).
  apply List.Forall_nil.
- cbn. lia.
Defined.

Lemma pool_reuse_witness :
let st2 :=
  snd (allocate (deallocate (snd pool1) 4112 Scenario.tick) 8 16 Scenario.tick) in
fst (allocate (deallocate (snd pool1) 4112 Scenario.tick) 8 16 Scenario.tick) = 4112 /\
m_free_list st2 = m_free_list (snd pool1) /\
m_allocated_blocks st2 = m_allocated_blocks (snd pool1) /\
forall x, x < 4112 \/ 4112 + 8 <= x -> heap st2 x = heap (snd pool1) x.
Proof.
apply (pool_reuse (snd pool1) 4112 8 16 Scenario.tick Scenario.tick).
- vm_compute. reflexivity.
- apply Z.leb_le. vm_compute. reflexivity.
- assert (E : m_free_list (snd pool1) = 4176) by (vm_compute; reflexivity).
  rewrite E. unfold Word.in_range, Word.modulus. lia.
- assert (E : m_allocated_blocks (snd pool1) = 1) by (vm_compute; reflexivity).
  rewrite E. unfold Word.in_range, Word.modulus. lia.
Defined.

Lemma pool_grid_witness :
exists g,
  get_allocation_grid 5 (snd pool1) = Some g /\
  length g = Z.to_nat (m_block_count (snd pool1)) /\
  (forall i, 0 <= i < m_block_count (snd pool1) ->
     g !! Z.to_nat i = Some true <->
     In (m_memory (snd pool1) + i * m_block_size (snd pool1)) [fst pool1]) /\
  lent_count g = allocated_blocks (snd pool1).
Proof.
apply (pool_grid (snd pool1) [fst pool1] 5).
- exact pool1_used.
- apply Nat.ltb_lt. vm_compute. reflexivity.
Defined.

End PoolUseProps.

Module FreeListUseProps.
Import FreeList FreeListProps FreeListUse Runs.

Lemma sizes_app l1 l2 : sizes (l1 ++ l2) = sizes l1 + sizes l2.
Proof. induction l1 as [|n r IH]; cbn [app sizes]; lia. Qed.

Lemma sizes_nodes a segs :
  sizes (nodes true a segs) + sizes (nodes false a segs) = total segs.
Proof.
  revert a. induction segs as [|[s [|]] r IH]; intros a; cbn [nodes total eqb sizes].
  - reflexivity.
  - specialize (IH (a + s)). cbn [snd]. lia.
  - specialize (IH (a + s)). cbn [snd]. lia.
Qed.

Lemma sizes_nonneg tag a segs :
  Forall (fun sg : segment => 16 <= fst sg) segs -> 0 <= sizes (nodes tag a segs).
Proof.
  revert a. induction segs as [|[s f] r IH]; intros a H; cbn [nodes sizes]; [lia|].
  inversion H; subst. cbn [fst] in *. specialize (IH (a + s) ltac:(assumption)).
  destruct (eqb f tag); cbn [sizes snd]; lia.
Qed.

Lemma fold_wrap_add l :
  forall acc,
    Forall (fun n : Z * Z => 0 <= snd n) l -> 0 <= acc ->
    acc + sizes l < Word.modulus ->
    fold_left (fun t n => Word.wrap (t + snd n)) l acc = acc + sizes l.
Proof.
  induction l as [|n r IH]; intros acc Hn Ha Hs; cbn [fold_left sizes] in *; [lia|].
  inversion Hn as [|? ? H1 H2]; subst.
  assert (0 <= sizes r).
  { clear -H2. induction H2; cbn [sizes]; lia. }
  rewrite WordFacts.wrap_small by lia. rewrite IH; try assumption; lia.
Qed.

Lemma nodes_nonneg tag a segs :
  Forall (fun sg : segment => 16 <= fst sg) segs ->
  Forall (fun n : Z * Z => 0 <= snd n) (nodes tag a segs).
Proof.
  revert a. induction segs as [|[s f] r IH]; intros a H; cbn [nodes]; [constructor|].
  inversion H; subst. cbn [fst] in *.
  destruct (eqb f tag); [constructor; [cbn; lia|]|]; now apply IH.
Qed.

(** What [available] returns in a represented state. *)
Lemma available_represents st segs fuel :
  represents st segs -> enough_fuel st fuel ->
  available fuel st = Some (sizes (nodes true (m_memory st) segs)).
Proof.
  intros [R1 R2 R3 R4 R5 R6 R7 R9 R8] Hf. unfold available.
  rewrite (available_loop_value _ _ _ _ _ R6)
    by (apply (fuel_covers true _ segs _ fuel R4 R3 Hf)).
  f_equal. rewrite fold_wrap_add; [lia| |lia|].
  - now apply nodes_nonneg.
  - pose proof (sizes_nodes (m_memory st) segs).
    pose proof (sizes_nonneg false (m_memory st) segs R4). lia.
Qed.

Lemma bytes_on_loan_perm h l1 l2 :
  Permutation l1 l2 -> bytes_on_loan h l1 = bytes_on_loan h l2.
Proof. induction 1; cbn [bytes_on_loan]; lia. Qed.

Lemma bytes_on_loan_nodes h M l :
  Forall (fun n => Mem.load64 h (fst n) = snd n) l ->
  Forall (fun n : Z * Z => 0 < M <= fst n /\ fst n < Word.modulus) l ->
  bytes_on_loan h (map (fun n => fst n + header_size) l) = sizes l.
Proof.
  induction 1 as [|n r H1 H2 IH]; intros Hb; cbn [map bytes_on_loan sizes];
    [reflexivity|].
  inversion Hb as [|? ? B1 B2]; subst. rewrite IH by assumption.
  unfold block_size_of, header_size.
  replace (fst n + 16 - 16) with (fst n) by lia.
  rewrite WordFacts.wrap_small by lia. now rewrite H1.
Qed.

Lemma used_in_region st segs :
  represents st segs ->
  Forall (fun n : Z * Z => 0 < m_memory st <= fst n /\ fst n < Word.modulus)
    (nodes false (m_memory st) segs).
Proof.
  intros [R1 R2 R3 R4 R5 R6 R7 R9 R8].
  pose proof (nodes_chain false (m_memory st) segs R4) as C.
  apply List.Forall_forall. intros [a s] Hin.
  destruct (chain_In _ _ _ _ _ C Hin) as (H1 & H2 & H3). cbn [fst]. lia.
Qed.

(** X16. Nothing of the region is lost: in every state the allocator can
    reach, the bytes on its free list and the bytes of the blocks on
    loan, headers included, add up to the size of the region. *)
Theorem freelist_conservation st live fuel :
  reachable st live -> enough_fuel st fuel ->
  exists free_bytes,
    available fuel st = Some free_bytes /\
    free_bytes + bytes_on_loan (heap st) live = m_total_size st.
Proof.
  intros R Hf. destruct (reachable_represents _ _ R) as (segs & Rep & P).
  exists (sizes (nodes true (m_memory st) segs)).
  split; [now apply available_represents|].
  rewrite (bytes_on_loan_perm _ _ _ P). unfold live_of.
  rewrite (bytes_on_loan_nodes (heap st) (m_memory st)).
  - rewrite sizes_nodes. apply (rep_total _ _ Rep).
  - apply (rep_used _ _ Rep).
  - now apply used_in_region.
Qed.


Lemma chain_pairwise lo l hi n1 n2 :
  chain lo l hi -> In n1 l -> In n2 l ->
  n1 = n2 \/ fst n1 + snd n1 <= fst n2 \/ fst n2 + snd n2 <= fst n1.
Proof.
  revert lo. induction l as [|[a s] r IH]; intros lo C H1 H2; [contradiction|].
  cbn in C. destruct C as (C1 & C2 & C3).
  destruct H1 as [<-|H1], H2 as [<-|H2].
  - now left.
  - right. left. destruct n2 as [b t].
    destruct (chain_In _ _ _ _ _ C3 H2). cbn. lia.
  - right. right. destruct n1 as [b t].
    destruct (chain_In _ _ _ _ _ C3 H1). cbn. lia.
  - eapply IH; eassumption.
Qed.

Lemma chain_NoDup lo l hi d :
  chain lo l hi -> List.NoDup (map (fun n : Z * Z => fst n + d) l).
Proof.
  revert lo. induction l as [|[a s] r IH]; intros lo C; cbn [map]; [constructor|].
  cbn in C. destruct C as (C1 & C2 & C3). constructor; [|eapply IH; eassumption].
  cbn [fst]. intros Hin. apply in_map_iff in Hin. destruct Hin as ([b t] & E & Hin).
  cbn in E. destruct (chain_In _ _ _ _ _ C3 Hin). lia.
Qed.

(** X17. The blocks on loan lie inside the region and apart from each
    other: each is owned, starts behind its header at or after the
    start of the region and ends, by the size in its header, at or
    before the end of the region; no address is on loan twice, and no
    two blocks overlap. *)
Theorem freelist_blocks_apart st live :
  reachable st live ->
  List.NoDup live /\
  forall p, In p live ->
    owns st p = true /\
    m_memory st + header_size <= p /\
    header_size < block_size_of (heap st) p /\
    p - header_size + block_size_of (heap st) p <= m_memory st + m_total_size st /\
    forall q, In q live -> q <> p ->
      p - header_size + block_size_of (heap st) p <= q - header_size \/
      q - header_size + block_size_of (heap st) q <= p - header_size.
Proof.
  intros R. destruct (reachable_represents _ _ R) as (segs & Rep & P).
  pose proof Rep as [R1 R2 R3 R4 R5 R6 R7 R9 R8].
  pose proof (nodes_chain false (m_memory st) segs R4) as C.
  rewrite R3 in C.
  assert (Hsize : forall a s, In (a, s) (nodes false (m_memory st) segs) ->
            block_size_of (heap st) (a + header_size) = s).
  { intros a s Hin. unfold block_size_of, header_size.
    replace (a + 16 - 16) with a by lia.
    destruct (chain_In _ _ _ _ _ C Hin) as (H1 & H2 & H3).
    rewrite WordFacts.wrap_small by lia.
    rewrite List.Forall_forall in R7. exact (R7 _ Hin). }
  split.
  - apply (Permutation_NoDup (Permutation_sym P)). unfold live_of.
    exact (chain_NoDup _ _ _ header_size C).
  - intros p Hp. apply (Permutation_in _ P) in Hp. unfold live_of in Hp.
    apply in_map_iff in Hp. destruct Hp as ([a s] & <- & Hin). cbn [fst].
    destruct (chain_In _ _ _ _ _ C Hin) as (H1 & H2 & H3).
    rewrite (Hsize a s Hin).
    rewrite List.Forall_forall in R9. pose proof (R9 _ Hin) as Hs. cbn [snd] in Hs.
    unfold header_size in Hs.
    split; [|split; [unfold header_size; lia|split; [exact Hs|split;
      [unfold header_size; lia|]]]].
    + unfold owns, header_size.
      replace (m_memory st =? 0) with false by (symmetry; apply Z.eqb_neq; lia).
      replace (a + 16 =? 0) with false by (symmetry; apply Z.eqb_neq; lia).
      cbn [orb]. rewrite WordFacts.wrap_small by lia.
      apply andb_true_intro. split; [apply Z.leb_le|apply Z.ltb_lt]; lia.
    + intros q Hq Hne. apply (Permutation_in _ P) in Hq. unfold live_of in Hq.
      apply in_map_iff in Hq. destruct Hq as ([b t] & <- & Hinq). cbn [fst] in *.
      rewrite (Hsize b t Hinq).
      destruct (chain_pairwise _ _ _ _ _ C Hin Hinq) as [E|[E|E]]; cbn [fst snd] in E.
      * inversion E; subst. contradiction.
      * left. unfold header_size. lia.
      * right. unfold header_size. lia.
Qed.







Lemma fold_largest_bounds l :
  forall acc,
    Forall (fun n : Z * Z => 0 <= snd n) l -> 0 <= acc ->
    acc <= fold_left (fun m n => if m <? snd n then snd n else m) l acc
        <= acc + sizes l.
Proof.
  induction l as [|n r IH]; intros acc Hn Ha; cbn [fold_left sizes]; [lia|].
  pose proof (List.Forall_inv Hn) as H1. pose proof (List.Forall_inv_tail Hn) as H2.
  cbn in H1. destruct (acc <? snd n) eqn:E.
  - apply Z.ltb_lt in E. specialize (IH (snd n) H2 H1). lia.
  - apply Z.ltb_ge in E. specialize (IH acc H2 Ha). lia.
Qed.

(** What [update_fragmentation] stores. *)
Lemma update_fragmentation_value st l fuel :
  flist (heap st) (m_free_list st) l -> (length l < fuel)%nat ->
  Forall (fun n : Z * Z => 0 <= snd n) l -> sizes l < Word.modulus ->
  update_fragmentation fuel st =
    Some (mkFreeList (set_fragmentation (base st) (sizes l - largest_of l))
            (m_policy st) (m_memory st) (m_free_list st) (heap st)).
Proof.
  intros Hl Hf Hn Hs. unfold update_fragmentation, available, largest_free_block.
  rewrite (available_loop_value _ _ _ _ _ Hl Hf).
  rewrite (largest_loop_value _ _ _ _ _ Hl Hf).
  rewrite fold_wrap_add by (trivial; lia). rewrite Z.add_0_l.
  fold (largest_of l).
  pose proof (fold_largest_bounds l 0 Hn ltac:(lia)) as B. fold (largest_of l) in B.
  do 3 f_equal.
  destruct (0 <? sizes l) eqn:E1; cbn [andb].
  - destruct (largest_of l <? sizes l) eqn:E2.
    + apply WordFacts.wrap_small. lia.
    + apply Z.ltb_ge in E2. lia.
  - apply Z.ltb_ge in E1. lia.
Qed.

Lemma represents_free_sizes st segs :
  represents st segs ->
  Forall (fun n : Z * Z => 0 <= snd n) (nodes true (m_memory st) segs) /\
  sizes (nodes true (m_memory st) segs) < Word.modulus /\
  0 <= sizes (nodes false (m_memory st) segs).
Proof.
  intros [R1 R2 R3 R4 R5 R6 R7 R9 R8].
  pose proof (sizes_nodes (m_memory st) segs).
  pose proof (sizes_nonneg false (m_memory st) segs R4).
  split; [now apply nodes_nonneg|]. split; lia.
Qed.


(** What a successful [allocate] does to the layout. *)
Lemma allocate_layout st segs size alignment t fuel p st' :
  represents st segs -> request_ok size alignment -> enough_fuel st fuel ->
  allocate st size alignment t fuel = Some (p, st') -> p <> 0 ->
  exists S1 s S2,
    segs = S1 ++ (s, true) :: S2 /\
    request size alignment <= s /\
    p = m_memory st + total S1 + header_size /\
    represents st' (S1 ++ carved s (request size alignment) ++ S2) /\
    m_memory st' = m_memory st /\ m_total_size st' = m_total_size st /\
    m_policy st' = m_policy st /\
    Base.fragmentation_bytes (stats st')
    = sizes (nodes true (m_memory st)
               (S1 ++ carved s (request size alignment) ++ S2))
      - largest_of (nodes true (m_memory st)
                      (S1 ++ carved s (request size alignment) ++ S2)) /\
    block_size_of (heap st') p = carved_size s (request size alignment) /\
    nodes false (m_memory st) (S1 ++ carved s (request size alignment) ++ S2)
    = nodes false (m_memory st) S1
      ++ (p - header_size, carved_size s (request size alignment))
      :: nodes false (p - header_size + s) S2.
Proof.
  intros [R1 R2 R3 R4 R5 R6 R7 R9 R8] Hreq Hfuel Hal Hpnz. unfold allocate in Hal.
  replace (m_memory st =? 0) with false in Hal by (symmetry; apply Z.eqb_neq; lia).
  destruct (size =? 0) eqn:Ez; cbn [orb] in Hal.
  { inversion Hal. congruence. }
  apply Z.eqb_neq in Ez.
  pose proof (request_size size alignment Hreq Ez) as Hr.
  destruct Hreq as (_ & Hsize & _).
  fold (request size alignment) in Hal, Hr.
  set (r := request size alignment) in *.
  unfold header_size in Hr.
  destruct (find_fit_position st _ fuel r R6
              (fuel_covers true _ segs _ fuel R4 R3 Hfuel))
    as (block & pb & Efind & Hpos).
  rewrite Efind in Hal.
  destruct (block =? 0) eqn:Eb.
  { inversion Hal. congruence. }
  apply Z.eqb_neq in Eb.
  destruct (position_layout _ _ _ _ _ Hpos Eb) as (S1 & s & S2 & -> & Hblock & Hrs & Hpb).
  rewrite <- R3 in R2.
  destruct (carve_layout (heap st) (m_free_list st) (m_memory st) S1 s S2 r
              R1 R2 R4 R6 R7 ltac:(lia)) as (head & h' & Ecarve & Hfl & Hused).
  rewrite <- Hblock in Ecarve, Hfl, Hused. rewrite <- Hpb in Ecarve.
  rewrite Ecarve in Hal. cbv zeta in Hfl, Hused.
  fold (carved s r) in Hfl, Hused. fold (carved_size s r) in Hfl, Hused, Hal.
  set (sz := carved_size s r) in *.
  set (mid := carved s r) in *.
  set (h3 := Mem.store64 (Mem.store64 h' block sz) (block + 8) 0) in *.
  assert (Hsz : Forall (fun sg : segment => 16 <= fst sg) (S1 ++ mid ++ S2)).
  { apply List.Forall_app in R4. destruct R4 as [A1 A2].
    inversion A2 as [ | ? ? A3 A4 ]; subst. cbn [fst] in A3.
    apply List.Forall_app. split; [ exact A1 | ].
    apply List.Forall_app. split; [ | exact A4 ].
    unfold mid, carved. destruct (32 <=? s - r) eqn:E.
    - apply Z.leb_le in E. repeat constructor; cbn [fst]; lia.
    - repeat constructor; cbn [fst]; lia. }
  assert (Htot : total (S1 ++ mid ++ S2) = m_total_size st).
  { rewrite <- R3. rewrite !total_app. cbn [total]. f_equal. f_equal.
    unfold mid, carved. destruct (32 <=? s - r); cbn [total]; lia. }
  pose proof (total_nonneg S1 ltac:(apply List.Forall_app in R4; tauto)) as T1.
  assert (Hs16 : 16 <= s).
  { apply List.Forall_app in R4. destruct R4 as [_ A2]. now inversion A2. }
  assert (HT2 : 0 <= total S2).
  { apply total_nonneg. apply List.Forall_app in R4. destruct R4 as [_ A2].
    now inversion A2. }
  rewrite total_app in R2, R3. cbn [total] in R2, R3.
  assert (Hfree_sum : sizes (nodes true (m_memory st) (S1 ++ mid ++ S2))
                      < Word.modulus).
  { pose proof (sizes_nodes (m_memory st) (S1 ++ mid ++ S2)).
    pose proof (sizes_nonneg false (m_memory st) _ Hsz). lia. }
  match type of Hal with
  | context [update_fragmentation fuel ?x] =>
      pose proof (update_fragmentation_value x _ fuel Hfl
                    (fuel_covers true _ _ _ fuel Hsz Htot Hfuel)
                    (nodes_nonneg true _ _ Hsz) Hfree_sum) as Eu
  end.
  rewrite Eu in Hal. cbn [base m_policy m_memory m_free_list heap] in Hal.
  rewrite (WordFacts.wrap_small (block + header_size)) in Hal
    by (unfold header_size; lia).
  inversion Hal as [[Hp Hst]]. clear Hal Eu Efind Ecarve.
  assert (Hlive : nodes false (m_memory st) (S1 ++ mid ++ S2) =
                  nodes false (m_memory st) S1 ++
                  (block, sz) :: nodes false (block + s) S2).
  { rewrite !nodes_app. rewrite <- Hblock. f_equal.
    unfold mid, sz, carved, carved_size.
    destruct (32 <=? s - r); cbn [nodes eqb total app];
      repeat f_equal; lia. }
  exists S1, s, S2. fold mid. fold sz.
  split; [reflexivity|]. split; [exact Hrs|]. split; [lia|].
  split.
  { repeat split; cbn; trivial.
    - unfold m_total_size in *. cbn. lia.
    - intros E. destruct S1; discriminate || (destruct mid eqn:Em; [ | discriminate ]).
      unfold mid, carved in Em. destruct (32 <=? s - r); discriminate.
    - rewrite Hlive. rewrite nodes_app in R9. cbn [nodes eqb] in R9.
      rewrite <- Hblock in R9. apply List.Forall_app in R9. destruct R9 as [A1 A2].
      apply List.Forall_app. split; [ exact A1 | ]. constructor; [ | exact A2 ].
      cbn [snd]. unfold sz, carved_size, header_size. destruct (32 <=? s - r); lia.
    - rewrite Hlive. intros E. destruct (nodes false (m_memory st) S1); discriminate. }
  split; [reflexivity|]. split; [reflexivity|]. split; [reflexivity|].
  split; [reflexivity|].
  split.
  - unfold block_size_of, header_size. cbn [heap].
    replace (block + 16 - 16) with block by lia.
    rewrite WordFacts.wrap_small by lia.
    assert (Hin : In (block, sz) (nodes false (m_memory st) (S1 ++ mid ++ S2))).
    { rewrite Hlive. apply in_or_app. right. now left. }
    rewrite List.Forall_forall in Hused. exact (Hused _ Hin).
  - rewrite Hlive. unfold header_size.
    replace (block + 16 - 16) with block by lia. reflexivity.
Qed.


(** What [deallocate] does to the layout when it is given an address
    on loan. *)
Lemma deallocate_layout st segs p t fuel :
  represents st segs -> In p (live_of (m_memory st) segs) -> enough_fuel st fuel ->
  exists st' S1 s S2,
    deallocate st p t fuel = Some st' /\
    segs = S1 ++ (s, false) :: S2 /\
    p = m_memory st + total S1 + header_size /\
    represents st' (merge_free None (S1 ++ (s, true) :: S2)) /\
    m_memory st' = m_memory st /\ m_total_size st' = m_total_size st /\
    m_policy st' = m_policy st /\
    Base.fragmentation_bytes (stats st')
    = sizes (nodes true (m_memory st) (merge_free None (S1 ++ (s, true) :: S2)))
      - largest_of
          (nodes true (m_memory st) (merge_free None (S1 ++ (s, true) :: S2))) /\
    live_of (m_memory st) segs
    = live_of (m_memory st) S1 ++ p :: live_of (p - header_size + s) S2 /\
    live_of (m_memory st) (merge_free None (S1 ++ (s, true) :: S2))
    = live_of (m_memory st) S1 ++ live_of (p - header_size + s) S2.
Proof.
  intros [R1 R2 R3 R4 R5 R6 R7 R9 R8] Hin Hfuel.
  unfold live_of in Hin. apply in_map_iff in Hin.
  destruct Hin as ([b s] & Hp & Hin). cbn [fst] in Hp.
  apply in_split in Hin. destruct Hin as (U1 & U2 & EU).
  destruct (nodes_split _ _ _ _ _ _ _ EU) as (S1 & S2 & -> & E1 & Eb & E2).
  set (M := m_memory st) in *.
  set (segs1 := S1 ++ (s, true) :: S2).
  assert (Hsz1 : Forall (fun sg : segment => 16 <= fst sg) segs1).
  { unfold segs1. apply List.Forall_app in R4. destruct R4 as [A1 A2].
    inversion A2; subst. apply List.Forall_app. split; [ exact A1 | ].
    constructor; trivial. }
  assert (Htot1 : total segs1 = m_total_size st).
  { rewrite <- R3. unfold segs1. rewrite !total_app. reflexivity. }
  assert (Hused1 : nodes false M segs1 = U1 ++ U2).
  { unfold segs1. rewrite nodes_app. cbn [nodes eqb]. rewrite <- Eb, E1, E2.
    reflexivity. }
  assert (Hs17 : header_size < s).
  { rewrite EU in R9. apply List.Forall_app in R9. destruct R9 as [_ A].
    now inversion A. }
  unfold header_size in *.
  pose proof (total_nonneg S1 ltac:(apply List.Forall_app in R4; tauto)) as T1.
  assert (T2 : 0 <= total S2).
  { apply total_nonneg. apply List.Forall_app in R4. destruct R4 as [_ A2].
    now inversion A2. }
  pose proof R3 as R3'. rewrite total_app in R3'. cbn [total] in R3'.
  assert (Hload : Mem.load64 (heap st) b = s).
  { rewrite EU in R7. apply List.Forall_app in R7. destruct R7 as [_ A].
    now inversion A. }
  unfold deallocate.
  assert (Eown : owns st p = true).
  { unfold owns. fold M.
    replace (M =? 0) with false by (symmetry; apply Z.eqb_neq; lia).
    replace (p =? 0) with false by (symmetry; apply Z.eqb_neq; lia).
    cbn [orb]. rewrite WordFacts.wrap_small by lia.
    apply andb_true_iff. split; [ apply Z.leb_le | apply Z.ltb_lt ]; lia. }
  rewrite Eown.
  replace (p =? 0) with false by (symmetry; apply Z.eqb_neq; lia).
  cbn [orb negb]. unfold header_size.
  replace (Word.wrap (p - 16)) with b by (rewrite WordFacts.wrap_small; lia).
  rewrite Hload.
  rewrite <- R3 in R2.
  destruct (insert_layout (heap st) (m_free_list st) M S1 s S2 fuel R1 R2 R4 R6 R7)
    as (head & h2 & Eins & Hfl2 & Hu2).
  { apply (fuel_covers true M S1 (total S1) fuel).
    - apply List.Forall_app in R4. tauto.
    - reflexivity.
    - unfold enough_fuel in Hfuel. lia. }
  rewrite <- Eb in Eins. rewrite Eins. fold segs1 in Hfl2, Hu2.
  destruct (nodes true M segs1) as [ | [a0 s0] rest ] eqn:EL.
  { exfalso. unfold segs1 in EL. rewrite nodes_app in EL. cbn [nodes eqb] in EL.
    destruct (nodes true M S1); discriminate. }
  pose proof (lseg_head _ _ _ _ _ _ Hfl2) as ->.
  pose proof (nodes_chain true M segs1 Hsz1) as C. rewrite EL, Htot1 in C.
  destruct (coalesce_loop_spec rest a0 s0 h2 fuel M (M + m_total_size st) Hfl2 C R1)
    as (h3 & Ecoal & Hfl3 & Hframe).
  { lia. }
  { pose proof (fuel_covers true M segs1 _ fuel Hsz1 Htot1 Hfuel) as F.
    rewrite EL in F. cbn in F. lia. }
  rewrite Ecoal.
  set (segs' := merge_free None segs1).
  assert (Hfree' : nodes true M segs' = coalesce_from (a0, s0) rest).
  { pose proof (merge_free_nodes segs1 Hsz1 M None) as F. cbn [run_of] in F.
    rewrite Z.sub_0_r, EL in F. exact F. }
  assert (Hused' : nodes false M segs' = U1 ++ U2).
  { pose proof (merge_free_used segs1 M None) as F. cbn [run_of] in F.
    rewrite Z.sub_0_r in F. unfold segs'. rewrite F. exact Hused1. }
  assert (Hsz' : Forall (fun sg : segment => 16 <= fst sg) segs').
  { apply merge_free_sizes; [ exact Hsz1 | now right ]. }
  assert (Htot' : total segs' = m_total_size st).
  { unfold segs'. rewrite merge_free_total. cbn [run_of]. lia. }
  assert (Hfree_sum : sizes (nodes true M segs') < Word.modulus).
  { pose proof (sizes_nodes M segs').
    pose proof (sizes_nonneg false M _ Hsz'). lia. }
  assert (Hfl' : flist h3 a0 (nodes true M segs')).
  { rewrite Hfree'. exact Hfl3. }
  match goal with
  | |- context [update_fragmentation fuel ?x] =>
      pose proof (update_fragmentation_value x (nodes true M segs') fuel Hfl'
                    (fuel_covers true M segs' _ fuel Hsz' Htot' Hfuel)
                    (nodes_nonneg true _ _ Hsz') Hfree_sum) as Eu
  end.
  rewrite Eu. cbn [base m_policy m_memory m_free_list heap].
  eexists. exists S1, s, S2.
  split; [ reflexivity | ]. split; [reflexivity|]. split; [lia|].
  fold segs1. fold segs'. split.
  { repeat split; cbn; fold M; fold segs1; fold segs'; trivial.
    - unfold m_total_size in *. cbn. lia.
    - intros E. rewrite E in Htot'. cbn in Htot'. lia.
    - rewrite Hused'. rewrite <- Hused1. apply List.Forall_forall.
      intros [a sz] Ha. cbn [fst snd].
      rewrite List.Forall_forall in Hu2. pose proof (Hu2 _ Ha) as K.
      cbn [fst snd] in K. rewrite <- K.
      apply load64_ext. intros x Hx. apply Hframe.
      rewrite <- EL. apply (used_off_nodes M segs1 a sz x Hsz1 Ha Hx).
    - rewrite Hused'. rewrite EU in R9. apply List.Forall_app in R9.
      destruct R9 as [A1 A2]. inversion A2; subst.
      apply List.Forall_app. split; trivial.
    - rewrite Hused'. intros E.
      unfold segs'. rewrite (merge_free_all_free segs1 M None).
      + cbn [run_of]. rewrite Htot1. reflexivity.
      + rewrite Hused1. exact E.
      + right. unfold segs1. destruct S1; discriminate. }
  split; [reflexivity|]. split; [reflexivity|]. split; [reflexivity|].
  split; [reflexivity|].
  split.
  - unfold live_of, header_size. rewrite EU, map_app. cbn [map fst].
    rewrite Hp, E1. replace (p - 16 + s) with (b + s) by lia. now rewrite E2.
  - unfold live_of. rewrite Hused', map_app. rewrite E1.
    replace (p - 16 + s) with (b + s) by lia. now rewrite E2.
Qed.


(** *** Separation *)

Lemma separated_cons_false s r : separated r -> separated ((s, false) :: r).
Proof. intros H. cbn. split; [|exact H]. destruct r as [|[? []] ?]; trivial. Qed.

Lemma separated_tail x r : separated (x :: r) -> separated r.
Proof. destruct x. cbn. tauto. Qed.

Lemma separated_merge segs : forall acc, separated (merge_free acc segs).
Proof.
  induction segs as [|[s [|]] r IH]; intros acc; cbn [merge_free].
  - destruct acc; cbn; auto.
  - apply IH.
  - destruct acc as [run|]; cbn [flush app].
    + change (True /\ separated ((s, false) :: merge_free None r)).
      split; [exact I|]. apply separated_cons_false, IH.
    + apply separated_cons_false, IH.
Qed.

(** The size of a free segment plays no part. *)
Lemma separated_resize A s s' B :
  separated (A ++ (s, true) :: B) -> separated (A ++ (s', true) :: B).
Proof.
  induction A as [|[y f] A IH]; cbn [app]; intros H.
  - cbn in *. exact H.
  - cbn [separated] in *. destruct H as [H1 H2]. split; [|now apply IH].
    destruct A as [|[? ?] ?]; cbn [app] in *; exact H1.
Qed.

(** A segment in use can be put anywhere. *)
Lemma separated_insert A x B :
  separated (A ++ B) -> separated (A ++ (x, false) :: B).
Proof.
  induction A as [|[y f] A IH]; cbn [app]; intros H.
  - now apply separated_cons_false.
  - cbn [separated] in *. destruct H as [H1 H2]. split; [|now apply IH].
    destruct A as [|[? ?] ?]; cbn [app] in *; [trivial|exact H1].
Qed.

(** A free segment can be taken into use. *)
Lemma separated_take A s s' B :
  separated (A ++ (s, true) :: B) -> separated (A ++ (s', false) :: B).
Proof.
  induction A as [|[y f] A IH]; cbn [app]; intros H.
  - apply separated_cons_false. now apply separated_tail in H.
  - cbn [separated] in *. destruct H as [H1 H2]. split; [|now apply IH].
    destruct A as [|[? ?] ?]; cbn [app] in *; [trivial|exact H1].
Qed.

Lemma separated_carved S1 s r S2 :
  separated (S1 ++ (s, true) :: S2) -> separated (S1 ++ carved s r ++ S2).
Proof.
  intros H. unfold carved. destruct (32 <=? s - r); cbn [app].
  - apply separated_insert. now apply (separated_resize S1 s).
  - now apply (separated_take S1 s).
Qed.

Lemma nodes_gaps segs :
  forall a,
    Forall (fun sg : segment => 16 <= fst sg) segs -> separated segs ->
    gaps (nodes true a segs).
Proof.
  induction segs as [|[s f] r IH]; intros a Hs Hsep; [exact I|].
  pose proof (List.Forall_inv Hs) as H1. pose proof (List.Forall_inv_tail Hs) as H2.
  cbn [fst] in H1. cbn [separated] in Hsep. destruct Hsep as [Hhead Hsep].
  destruct f; cbn [nodes eqb].
  - cbn [gaps]. split; [|now apply IH].
    destruct r as [|[s2 [|]] r']; [exact I|discriminate|].
    cbn [nodes eqb].
    destruct (nodes true (a + s + s2) r') as [|[b t] rest] eqn:E; [exact I|].
    pose proof (List.Forall_inv H2) as H3. cbn [fst] in H3.
    assert (a + s + s2 <= b).
    { apply (nodes_lower true (a + s + s2) r' b t).
      - now apply List.Forall_inv_tail in H2.
      - rewrite E. now left. }
    lia.
  - now apply IH.
Qed.

Lemma largest_of_single a s : 0 < s -> largest_of [(a, s)] = s.
Proof.
  intros H. unfold largest_of. cbn.
  replace (0 <? s) with true by (symmetry; now apply Z.ltb_lt). reflexivity.
Qed.

Lemma allocate_null st segs size alignment t fuel st' :
  represents st segs -> request_ok size alignment -> enough_fuel st fuel ->
  allocate st size alignment t fuel = Some (0, st') -> st' = st.
Proof.
  intros R Hreq Hf Hal.
  destruct (allocate_represents _ _ _ _ _ _ _ _ R Hreq Hf Hal)
    as [[_ E]|[E _]]; [exact E|contradiction].
Qed.

(** Every state the allocator can reach is tidy. *)
Lemma reachable_tidy st live :
  reachable st live ->
  exists segs, tidy st segs /\ Permutation live (live_of (m_memory st) segs).
Proof.
  induction 1 as
    [ size policy buffer heap0 Hb Hs Hr
    | st live size alignment t fuel p st' _ IH Hreq Hfuel Hal Hp
    | st live size alignment t fuel st' _ IH Hreq Hfuel Hal
    | st live1 p live2 t fuel st' _ IH Hfuel Hde
    | st live policy _ IH
    | st live _ IH ].
  - exists [(size, true)]. split; [|cbn; constructor].
    split; [now apply construct_represents|cbn; auto|].
    unfold construct, free_block_size in *.
    replace (buffer =? 0) with false by (symmetry; apply Z.eqb_neq; lia).
    unfold stats.
    cbn [base m_memory Base.m_stats Base.fragmentation_bytes Base.stats_zero
         nodes Bool.eqb sizes snd].
    rewrite largest_of_single by lia. lia.
  - destruct IH as (segs & [R Sp Fr] & P).
    destruct (allocate_layout _ _ _ _ _ _ _ _ R Hreq Hfuel Hal Hp)
      as (S1 & s & S2 & -> & Hrs & Hpe & R' & Em & Et & Epol & Efr & Ebs & Elive).
    exists (S1 ++ carved s (request size alignment) ++ S2).
    split.
    + split; [exact R'|now apply separated_carved|]. rewrite Em. exact Efr.
    + rewrite Em. unfold live_of in *. rewrite Elive.
      rewrite nodes_app in P. cbn [nodes eqb] in P.
      rewrite map_app in *. cbn [map fst].
      replace (p - header_size + header_size) with p by lia.
      replace (p - header_size + s) with (m_memory st + total S1 + s) by lia.
      rewrite <- Permutation_middle. now apply perm_skip.
  - destruct IH as (segs & [R Sp Fr] & P).
    rewrite (allocate_null _ _ _ _ _ _ _ R Hreq Hfuel Hal).
    exists segs. split; [split; assumption|exact P].
  - destruct IH as (segs & [R Sp Fr] & P).
    assert (Hin : In p (live_of (m_memory st) segs)).
    { apply (Permutation_in _ P). apply in_or_app. right. now left. }
    destruct (deallocate_layout _ _ _ t fuel R Hin Hfuel)
      as (st1 & S1 & s & S2 & E & -> & Hpe & R' & Em & Et & Epol & Efr & L1 & L2).
    rewrite E in Hde. inversion Hde; subst st1.
    exists (merge_free None (S1 ++ (s, true) :: S2)). split.
    + split; [exact R'|apply separated_merge|]. rewrite Em. exact Efr.
    + rewrite Em, L2. rewrite L1 in P. now apply Permutation_app_inv in P.
  - destruct IH as (segs & [R Sp Fr] & P). exists segs. split; [|exact P].
    split; [now apply set_policy_represents|exact Sp|exact Fr].
  - destruct IH as (segs & [R Sp Fr] & P). exists [(m_total_size st, true)].
    split; [|cbn; constructor].
    pose proof (reset_represents st segs R) as R'.
    split; [exact R'|cbn; auto|].
    assert (HT : 16 <= m_total_size st).
    { destruct R as [R1 R2 R3 R4 R5 R6 R7 R9 R8].
      pose proof (total_bound segs R4). destruct segs; [contradiction|].
      cbn [length] in *. lia. }
    assert (Hm : m_memory st <> 0) by (destruct R; lia).
    unfold reset. replace (m_memory st =? 0) with false
      by (symmetry; now apply Z.eqb_neq).
    unfold stats, Base.clear.
    cbn [base m_memory Base.m_stats Base.fragmentation_bytes Base.stats_zero
         nodes Bool.eqb sizes snd].
    rewrite largest_of_single by lia. lia.
Qed.


(** X19. The free list is kept coalesced, not only when everything has been
    handed back: in every state the allocator can reach, the nodes of
    the free list lie inside the region in the order of their
    addresses, and between the end of a node and the start of the next
    there is a gap, so no two free blocks are adjacent. *)
Theorem freelist_coalesced st live :
  reachable st live ->
  exists l,
    flist (heap st) (m_free_list st) l /\
    chain (m_memory st) l (m_memory st + m_total_size st) /\
    gaps l.
Proof.
  intros R. destruct (reachable_tidy _ _ R) as (segs & [Rep Sp _] & _).
  pose proof Rep as [R1 R2 R3 R4 R5 R6 R7 R9 R8].
  exists (nodes true (m_memory st) segs). split; [exact R6|]. split.
  - rewrite <- R3. now apply nodes_chain.
  - now apply nodes_gaps.
Qed.

(** X20. The estimate of the fragmentation is up to date in every state the
    allocator can reach: [fragmentation_bytes] is what [available]
    returns less what [largest_free_block] returns, the free bytes
    outside the largest free block. *)
Theorem freelist_fragmentation st live fuel :
  reachable st live -> enough_fuel st fuel ->
  exists free_bytes largest,
    available fuel st = Some free_bytes /\
    largest_free_block fuel st = Some largest /\
    0 <= largest <= free_bytes /\ free_bytes <= m_total_size st /\
    Base.fragmentation_bytes (stats st) = free_bytes - largest.
Proof.
  intros R Hf. destruct (reachable_tidy _ _ R) as (segs & [Rep Sp Fr] & _).
  pose proof Rep as [R1 R2 R3 R4 R5 R6 R7 R9 R8].
  destruct (represents_free_sizes _ _ Rep) as (N1 & N2 & N3).
  exists (sizes (nodes true (m_memory st) segs)),
         (largest_of (nodes true (m_memory st) segs)).
  split; [now apply available_represents|]. split.
  - unfold largest_free_block.
    rewrite (largest_loop_value _ _ _ _ _ R6)
      by (apply (fuel_covers true _ segs _ fuel R4 R3 Hf)).
    reflexivity.
  - pose proof (fold_largest_bounds _ 0 N1 ltac:(lia)) as B.
    fold (largest_of (nodes true (m_memory st) segs)) in B.
    pose proof (sizes_nodes (m_memory st) segs).
    repeat split; first [lia | exact Fr].
Qed.

Lemma live_of_NoDup a segs :
  Forall (fun sg : segment => 16 <= fst sg) segs -> List.NoDup (live_of a segs).
Proof.
  intros H. unfold live_of.
  exact (chain_NoDup _ _ _ header_size (nodes_chain false a segs H)).
Qed.

(** X21. The block [allocate] hands out holds the request: the size in its
    header covers the header and the bytes asked for, and exceeds the
    aligned request by less than the smallest block that could have
    been split off.  The address was not on loan, it is owned, and what
    is available drops by the size in the header. *)
Theorem freelist_allocate_fits st live size alignment t fuel p st' :
  reachable st live -> request_ok size alignment -> enough_fuel st fuel ->
  allocate st size alignment t fuel = Some (p, st') -> p <> 0 ->
  size + header_size <= request size alignment /\
  request size alignment <= block_size_of (heap st') p
    < request size alignment + 32 /\
  ~ In p live /\ owns st' p = true /\
  exists free_bytes,
    available fuel st = Some free_bytes /\
    available fuel st' = Some (free_bytes - block_size_of (heap st') p).
Proof.
  intros R Hreq Hf Hal Hp.
  destruct (reachable_represents _ _ R) as (segs & Rep & P).
  destruct (allocate_layout _ _ _ _ _ _ _ _ Rep Hreq Hf Hal Hp)
    as (S1 & s & S2 & -> & Hrs & Hpe & R' & Em & Et & Epol & Efr & Ebs & Elive).
  assert (Hnz : size <> 0).
  { intros ->. unfold allocate in Hal.
    rewrite Z.eqb_refl, orb_true_r in Hal. inversion Hal. congruence. }
  pose proof (request_size size alignment Hreq Hnz) as Hr.
  fold (request size alignment) in Hr.
  set (r := request size alignment) in *.
  pose proof Rep as [R1 R2 R3 R4 R5 R6 R7 R9 R8].
  pose proof R' as [Q1 Q2 Q3 Q4 Q5 Q6 Q7 Q9 Q8].
  pose proof (total_nonneg S1 ltac:(apply List.Forall_app in R4; tauto)) as T1.
  assert (T2 : 0 <= total S2).
  { apply total_nonneg. apply List.Forall_app in R4. destruct R4 as [_ A2].
    now inversion A2. }
  rewrite total_app in R3. cbn [total] in R3.
  split; [lia|]. split.
  { rewrite Ebs. unfold carved_size. destruct (32 <=? s - r) eqn:E.
    - lia.
    - apply Z.leb_gt in E. lia. }
  split.
  { intros Hin. apply (Permutation_in _ P) in Hin.
    pose proof (live_of_NoDup (m_memory st) _ Q4) as Hnd.
    unfold live_of in Hnd, Hin. rewrite Elive in Hnd.
    rewrite nodes_app in Hin. cbn [nodes eqb] in Hin.
    rewrite map_app in Hnd, Hin. cbn [map fst] in Hnd.
    replace (p - header_size + header_size) with p in Hnd by lia.
    apply NoDup_remove_2 in Hnd. apply Hnd.
    replace (p - header_size + s) with (m_memory st + total S1 + s) by lia.
    exact Hin. }
  split.
  { unfold owns. rewrite Em, Et. destruct Hreq as (Ha & Hs0 & Hsum).
    unfold header_size in *.
    replace (m_memory st =? 0) with false by (symmetry; apply Z.eqb_neq; lia).
    replace (p =? 0) with false by (symmetry; now apply Z.eqb_neq).
    cbn [orb]. rewrite WordFacts.wrap_small by lia.
    apply andb_true_intro. split; [apply Z.leb_le|apply Z.ltb_lt]; lia. }
  exists (sizes (nodes true (m_memory st) (S1 ++ (s, true) :: S2))).
  split; [now apply available_represents|].
  assert (Hf' : enough_fuel st' fuel) by (unfold enough_fuel in *; now rewrite Et).
  rewrite (available_represents _ _ _ R' Hf'). f_equal. rewrite Em, Ebs.
  pose proof (sizes_nodes (m_memory st) (S1 ++ (s, true) :: S2)) as A1.
  pose proof (sizes_nodes (m_memory st) (S1 ++ carved s r ++ S2)) as A2.
  assert (Efalse : nodes false (m_memory st) (S1 ++ (s, true) :: S2)
                   = nodes false (m_memory st) S1
                     ++ nodes false (m_memory st + total S1 + s) S2).
  { rewrite nodes_app. reflexivity. }
  rewrite Elive in A2. rewrite Efalse in A1.
  rewrite !sizes_app in A1, A2. cbn [sizes snd] in A2.
  rewrite !total_app in A1. rewrite !total_app in A2. cbn [total] in A1, A2.
  replace (p - header_size + s) with (m_memory st + total S1 + s) in A2 by lia.
  assert (total (carved s r) = s).
  { unfold carved. destruct (32 <=? s - r); cbn [total]; lia. }
  lia.
Qed.




(** *** Runs *)

(** A layout is cut at a given offset in one way only. *)
Lemma split_unique A :
  forall A' B B',
    Forall (fun sg : segment => 16 <= fst sg) (A ++ B) ->
    A ++ B = A' ++ B' -> total A = total A' -> B <> [] -> B' <> [] ->
    A = A' /\ B = B'.
Proof.
  induction A as [|[a fa] A IH]; intros A' B B' HF E T HB HB'.
  - destruct A' as [|[a' fa'] A']; [now split|].
    cbn [app] in E. subst B. cbn [total] in T.
    apply List.Forall_inv in HF as H1. apply List.Forall_inv_tail in HF as H2.
    apply List.Forall_app in H2 as [H2 _]. apply total_nonneg in H2.
    cbn [fst] in H1. lia.
  - destruct A' as [|[a' fa'] A'].
    + cbn [app total] in *.
      apply List.Forall_inv in HF as H1. apply List.Forall_inv_tail in HF as H2.
      apply List.Forall_app in H2 as [H2 _]. apply total_nonneg in H2.
      cbn [fst] in H1. lia.
    + cbn [app total] in *. inversion E as [[Ea Ef E']]. subst a' fa'.
      apply List.Forall_inv_tail in HF.
      destruct (IH A' B B' HF E' ltac:(lia) HB HB') as [-> ->]. now split.
Qed.

Lemma merge_free_adjacent a b r acc :
  merge_free acc ((a, true) :: (b, true) :: r) = merge_free acc ((a + b, true) :: r).
Proof.
  cbn [merge_free]. destruct acc as [run|]; [|reflexivity].
  do 2 f_equal. lia.
Qed.

Lemma merge_free_prefix A X Y :
  (forall acc, merge_free acc X = merge_free acc Y) ->
  forall acc, merge_free acc (A ++ X) = merge_free acc (A ++ Y).
Proof.
  intros H. induction A as [|[s [|]] A IH]; intros acc; cbn [app merge_free].
  - apply H.
  - apply IH.
  - now rewrite IH.
Qed.

(** Merging the free neighbours of a layout that has none changes
    nothing. *)
Lemma merge_free_separated segs :
  separated segs -> merge_free None segs = segs.
Proof.
  induction segs as [|[s [|]] r IH]; intros Sp; [reflexivity| |].
  - destruct Sp as [Sp1 Sp2]. specialize (IH Sp2).
    cbn [merge_free]. destruct r as [|[s2 [|]] r'].
    + reflexivity.
    + discriminate.
    + cbn [merge_free flush app] in *. now rewrite IH.
  - destruct Sp as [_ Sp2]. cbn [merge_free flush app]. now rewrite (IH Sp2).
Qed.

Lemma flist_head h p l :
  flist h p l -> p = match l with [] => 0 | n :: _ => fst n end.
Proof. destruct l as [|[a s] r]; cbn; [auto|tauto]. Qed.

(** X23. Handing a block back at once undoes the allocation: after
    [allocate] and then [deallocate] of the block it returned, the free
    list starts at the same node and holds the same blocks, at the same
    addresses and with the same sizes, as before the allocation, so
    what is available and the estimate of the fragmentation are those
    of before as well.  The remainder that was split off is merged
    with the block again. *)
Theorem freelist_round_trip st live size alignment t fuel p st1 t' :
  reachable st live -> request_ok size alignment -> enough_fuel st fuel ->
  allocate st size alignment t fuel = Some (p, st1) -> p <> 0 ->
  exists st2 l,
    deallocate st1 p t' fuel = Some st2 /\
    flist (heap st) (m_free_list st) l /\
    flist (heap st2) (m_free_list st2) l /\
    m_free_list st2 = m_free_list st /\
    available fuel st2 = available fuel st /\
    Base.fragmentation_bytes (stats st2) = Base.fragmentation_bytes (stats st).
Proof.
  intros Rch Hreq Hf Hal Hp.
  destruct (reachable_tidy _ _ Rch) as (segs & [Rep Sp Fr] & _).
  destruct (allocate_layout _ _ _ _ _ _ _ _ Rep Hreq Hf Hal Hp)
    as (S1 & s & S2 & -> & Hrs & Hpe & R1 & Em & Et & Epol & Efr & Ebs & Elive).
  set (r := request size alignment) in *.
  assert (Hf1 : enough_fuel st1 fuel) by (unfold enough_fuel in *; now rewrite Et).
  assert (Hin : In p (live_of (m_memory st1) (S1 ++ carved s r ++ S2))).
  { unfold live_of. rewrite Em, Elive, map_app. apply in_or_app. right.
    left. cbn [fst]. lia. }
  destruct (deallocate_layout _ _ _ t' fuel R1 Hin Hf1)
    as (st2 & S1' & s' & S2' & E & Esegs & Hpe' & R2 & Em2 & Et2 & _ & Efr2 & _ & _).
  assert (HT : total S1 = total S1') by lia.
  destruct (split_unique S1 S1' (carved s r ++ S2) ((s', false) :: S2')
              (rep_sizes _ _ R1) Esegs HT) as [<- EB].
  { unfold carved. now destruct (32 <=? s - r). }
  { discriminate. }
  assert (Emerge : merge_free None (S1 ++ (s', true) :: S2')
                   = S1 ++ (s, true) :: S2).
  { rewrite <- (merge_free_separated (S1 ++ (s, true) :: S2) Sp).
    apply merge_free_prefix. intros acc.
    unfold carved in EB. destruct (32 <=? s - r); cbn [app] in EB.
    - inversion EB; subst s' S2'. rewrite merge_free_adjacent.
      replace (r + (s - r)) with s by lia. reflexivity.
    - inversion EB; subst s' S2'. reflexivity. }
  rewrite Emerge in R2, Efr2.
  assert (Hf2 : enough_fuel st2 fuel)
    by (unfold enough_fuel in *; now rewrite Et2).
  pose proof (rep_free _ _ Rep) as F0. pose proof (rep_free _ _ R2) as F2.
  rewrite Em2, Em in F2.
  exists st2, (nodes true (m_memory st) (S1 ++ (s, true) :: S2)).
  split; [exact E|]. split; [exact F0|]. split; [exact F2|]. split.
  { rewrite (flist_head _ _ _ F0), (flist_head _ _ _ F2). reflexivity. }
  split.
  { rewrite (available_represents _ _ _ R2 Hf2), (available_represents _ _ _ Rep Hf).
    now rewrite Em2, Em. }
  rewrite Efr2, Fr. now rewrite Em.
Qed.

Lemma freelist0_reachable : reachable Scenario.freelist0 [].
Proof. apply reach_construct; vm_compute; first [reflexivity|discriminate]. Qed.

Lemma freelist3_fuel : enough_fuel (snd Scenario.freelist3) 1025.
Proof. apply Nat.ltb_lt. vm_compute. reflexivity. Qed.

Lemma freelist0_fuel : enough_fuel Scenario.freelist0 1025.
Proof. apply Nat.ltb_lt. vm_compute. reflexivity. Qed.

Lemma freelist0_allocate :
  allocate Scenario.freelist0 100 16 Scenario.tick 1025
  = Some (fst Scenario.freelist1, snd Scenario.freelist1).
Proof. apply Scenarios.freelist_allocate_run. vm_compute. reflexivity. Qed.

Lemma freelist_conservation_witness :
exists free_bytes,
  available 1025 (snd Scenario.freelist3) = Some free_bytes /\
  free_bytes + bytes_on_loan (heap (snd Scenario.freelist3)) live3
  = m_total_size (snd Scenario.freelist3).
Proof.
apply (freelist_conservation (snd Scenario.freelist3) live3 1025).
- exact Scenarios.freelist3_reachable.
- exact freelist3_fuel.
Defined.

Lemma freelist_blocks_apart_witness :
List.NoDup live3 /\
forall p, In p live3 ->
  owns (snd Scenario.freelist3) p = true /\
  m_memory (snd Scenario.freelist3) + header_size <= p /\
  header_size < block_size_of (heap (snd Scenario.freelist3)) p /\
  p - header_size + block_size_of (heap (snd Scenario.freelist3)) p
    <= m_memory (snd Scenario.freelist3) + m_total_size (snd Scenario.freelist3) /\
  forall q, In q live3 -> q <> p ->
    p - header_size + block_size_of (heap (snd Scenario.freelist3)) p
      <= q - header_size \/
    q - header_size + block_size_of (heap (snd Scenario.freelist3)) q
      <= p - header_size.
Proof.
apply (freelist_blocks_apart (snd Scenario.freelist3) live3).
exact Scenarios.freelist3_reachable.
Defined.


Lemma freelist_coalesced_witness :
exists l,
  flist (heap (snd Scenario.freelist3)) (m_free_list (snd Scenario.freelist3)) l /\
  chain (m_memory (snd Scenario.freelist3)) l
    (m_memory (snd Scenario.freelist3) + m_total_size (snd Scenario.freelist3)) /\
  gaps l.
Proof.
apply (freelist_coalesced (snd Scenario.freelist3) live3).
exact Scenarios.freelist3_reachable.
Defined.

Lemma freelist_fragmentation_witness :
exists free_bytes largest,
  available 1025 (snd Scenario.freelist3) = Some free_bytes /\
  largest_free_block 1025 (snd Scenario.freelist3) = Some largest /\
  0 <= largest <= free_bytes /\
  free_bytes <= m_total_size (snd Scenario.freelist3) /\
  Base.fragmentation_bytes (stats (snd Scenario.freelist3)) = free_bytes - largest.
Proof.
apply (freelist_fragmentation (snd Scenario.freelist3) live3 1025).
- exact Scenarios.freelist3_reachable.
- exact freelist3_fuel.
Defined.

Lemma freelist_allocate_fits_witness :
100 + header_size <= request 100 16 /\
request 100 16 <= block_size_of (heap (snd Scenario.freelist1)) (fst Scenario.freelist1)
  < request 100 16 + 32 /\
~ In (fst Scenario.freelist1) [] /\
owns (snd Scenario.freelist1) (fst Scenario.freelist1) = true /\
exists free_bytes,
  available 1025 Scenario.freelist0 = Some free_bytes /\
  available 1025 (snd Scenario.freelist1)
  = Some (free_bytes
          - block_size_of (heap (snd Scenario.freelist1)) (fst Scenario.freelist1)).
Proof.
apply (freelist_allocate_fits Scenario.freelist0 [] 100 16 Scenario.tick 1025).
- exact freelist0_reachable.
- exact Scenarios.request_100_16.
- exact freelist0_fuel.
- exact freelist0_allocate.
- apply Z.eqb_neq. vm_compute. reflexivity.
Defined.


Lemma freelist_round_trip_witness :
exists st2 l,
  deallocate (snd Scenario.freelist1) (fst Scenario.freelist1) Scenario.tick 1025
  = Some st2 /\
  flist (heap Scenario.freelist0) (m_free_list Scenario.freelist0) l /\
  flist (heap st2) (m_free_list st2) l /\
  m_free_list st2 = m_free_list Scenario.freelist0 /\
  available 1025 st2 = available 1025 Scenario.freelist0 /\
  Base.fragmentation_bytes (stats st2)
  = Base.fragmentation_bytes (stats Scenario.freelist0).
Proof.
apply (freelist_round_trip Scenario.freelist0 [] 100 16 Scenario.tick 1025).
- exact freelist0_reachable.
- exact Scenarios.request_100_16.
- exact freelist0_fuel.
- exact freelist0_allocate.
- apply Z.eqb_neq. vm_compute. reflexivity.
Defined.

End FreeListUseProps.

Module StandardUseProps.
Import Standard StandardUse Runs.

Lemma wrap_sub_add u s :
  Word.in_range u -> Word.wrap (Word.wrap (u + s) - s) = u.
Proof.
  intros Hu. unfold Word.wrap.
  rewrite Zminus_mod_idemp_l. replace (u + s - s) with u by lia.
  now apply Z.mod_small.
Qed.

(** X24. A block goes out and comes back: after a successful [allocate] the
    pointer is owned and tracked with its size and the alignment that
    was recorded; [deallocate] then gives the block back to the system
    and leaves the map, the system heap and the two counters of what is
    in use as they were before the allocation. *)
Theorem standard_round_trip st size alignment sys_ptr t1 t2 :
  size <> 0 -> sys_ptr <> 0 ->
  m_allocations st !! sys_ptr = None -> sys_ptr ∉ sys_blocks st ->
  Word.in_range (Base.current_allocations (stats st)) ->
  Word.in_range (Base.current_bytes_used (stats st)) ->
  let st1 := snd (allocate st size alignment sys_ptr t1) in
  let st2 := deallocate st1 sys_ptr t2 in
  fst (allocate st size alignment sys_ptr t1) = sys_ptr /\
  owns st1 sys_ptr = true /\
  m_allocations st1 !! sys_ptr = Some (size, recorded_alignment alignment) /\
  sys_ptr ∈ sys_blocks st1 /\
  owns st2 sys_ptr = false /\
  m_allocations st2 = m_allocations st /\
  sys_blocks st2 = sys_blocks st /\
  Base.current_allocations (stats st2) = Base.current_allocations (stats st) /\
  Base.current_bytes_used (stats st2) = Base.current_bytes_used (stats st).
Proof.
  intros Hs Hp Hfresh Hsys Hca Hcb. cbn zeta.
  unfold allocate.
  replace (size =? 0) with false by (symmetry; now apply Z.eqb_neq).
  replace (sys_ptr =? 0) with false by (symmetry; now apply Z.eqb_neq).
  cbn [fst snd]. fold (recorded_alignment alignment).
  unfold deallocate, owns. cbn [m_allocations sys_blocks base].
  replace (sys_ptr =? 0) with false by (symmetry; now apply Z.eqb_neq).
  rewrite lookup_insert_eq. cbn [m_allocations sys_blocks base].
  rewrite lookup_delete_eq.
  split; [reflexivity|]. split; [reflexivity|]. split; [reflexivity|].
  split; [apply elem_of_union_l, elem_of_singleton; reflexivity|].
  split; [reflexivity|].
  split; [apply delete_insert_id; exact Hfresh|].
  split.
  { apply set_eq. intros x.
    rewrite elem_of_difference, elem_of_union, elem_of_singleton. split.
    - intros [[->|H] Hn]; [contradiction|exact H].
    - intros H. split; [now right|]. intros ->. contradiction. }
  unfold stats. cbn. split; apply wrap_sub_add; assumption.
Qed.


Lemma tracked_bytes_insert m p v :
  m !! p = None -> tracked_bytes (<[p := v]> m) = fst v + tracked_bytes m.
Proof.
  intros H. unfold tracked_bytes.
  rewrite map_fold_insert_L; [reflexivity| |exact H].
  intros. lia.
Qed.

Lemma tracked_bytes_delete m p v :
  m !! p = Some v -> tracked_bytes (delete p m) = tracked_bytes m - fst v.
Proof.
  intros H. unfold tracked_bytes.
  rewrite (map_fold_delete_L _ _ p v m); [lia| |exact H].
  intros. lia.
Qed.

Lemma construct_accounted blocks0 : accounted blocks0 (construct blocks0).
Proof.
  split; cbn.
  - rewrite dom_empty_L. now rewrite union_empty_r_L.
  - intros p _. apply lookup_empty.
  - rewrite map_size_empty. reflexivity.
  - unfold tracked_bytes. rewrite map_fold_empty. reflexivity.
Qed.

Lemma allocate_accounted blocks0 st size alignment sys_ptr t :
  accounted blocks0 st -> sys_ptr = 0 \/ sys_ptr ∉ sys_blocks st ->
  accounted blocks0 (snd (allocate st size alignment sys_ptr t)).
Proof.
  intros [A1 A2 A3 A4] Hp. unfold allocate.
  destruct (size =? 0); [split; assumption|].
  destruct (sys_ptr =? 0) eqn:E; [split; assumption|].
  apply Z.eqb_neq in E. destruct Hp as [Hp|Hp]; [contradiction|].
  assert (Hnone : m_allocations st !! sys_ptr = None).
  { apply not_elem_of_dom. intros Hd. apply Hp. rewrite A1.
    apply elem_of_union_r. exact Hd. }
  unfold stats in *. split; cbn [snd sys_blocks m_allocations base].
  - rewrite A1, dom_insert_L. apply set_eq. intros x.
    rewrite !elem_of_union. tauto.
  - intros p Hb. rewrite lookup_insert_ne; [now apply A2|].
    intros <-. apply Hp. rewrite A1. now apply elem_of_union_l.
  - cbn. rewrite A3, map_size_insert_None by exact Hnone.
    unfold Word.wrap. rewrite Zplus_mod_idemp_l. f_equal. lia.
  - cbn. rewrite A4, tracked_bytes_insert by exact Hnone. cbn [fst].
    unfold Word.wrap. rewrite Zplus_mod_idemp_l. f_equal. lia.
Qed.

Lemma deallocate_accounted blocks0 st ptr t :
  accounted blocks0 st -> accounted blocks0 (deallocate st ptr t).
Proof.
  intros [A1 A2 A3 A4]. unfold deallocate.
  destruct (ptr =? 0); [split; assumption|].
  destruct (m_allocations st !! ptr) as [[sz al]|] eqn:E; [|split; assumption].
  assert (Hnb : ptr ∉ blocks0).
  { intros Hb. rewrite (A2 _ Hb) in E. discriminate. }
  unfold stats in *. split; cbn [sys_blocks m_allocations base].
  - rewrite A1, dom_delete_L. apply set_eq. intros x.
    rewrite !elem_of_difference, !elem_of_union, elem_of_difference,
      elem_of_singleton.
    split.
    + intros [[H|H] Hn]; [now left|right; tauto].
    + intros [H|[H Hn]]; [split; [now left|]|tauto].
      intros ->. contradiction.
  - intros p Hb. destruct (Z.eq_dec p ptr) as [->|Hne].
    + apply lookup_delete_eq.
    + rewrite lookup_delete_ne by congruence. now apply A2.
  - cbn. rewrite A3. rewrite map_size_delete_Some by (rewrite E; eauto).
    assert (Hpos : size (m_allocations st) <> 0%nat).
    { intros Hz. apply map_size_empty_inv in Hz. rewrite Hz in E.
      rewrite lookup_empty in E. discriminate. }
    unfold Word.wrap. rewrite Zminus_mod_idemp_l. f_equal. lia.
  - cbn. rewrite A4, (tracked_bytes_delete _ _ _ E). cbn [fst].
    unfold Word.wrap. rewrite Zminus_mod_idemp_l. reflexivity.
Qed.

Lemma reset_accounted blocks0 st :
  accounted blocks0 st ->
  accounted blocks0 (reset st) /\ sys_blocks (reset st) = blocks0.
Proof.
  intros [A1 A2 A3 A4].
  assert (E : sys_blocks (reset st) = blocks0).
  { unfold reset. cbn. rewrite A1. apply set_eq. intros x.
    rewrite elem_of_difference, elem_of_union. split.
    - intros [[H|H] Hn]; [exact H|contradiction].
    - intros H. split; [now left|]. intros Hd. apply elem_of_dom in Hd.
      rewrite (A2 _ H) in Hd. destruct Hd. discriminate. }
  split; [|exact E]. split.
  - rewrite E. cbn. rewrite dom_empty_L. now rewrite union_empty_r_L.
  - intros p _. apply lookup_empty.
  - cbn. rewrite map_size_empty. reflexivity.
  - cbn. unfold tracked_bytes. rewrite map_fold_empty. reflexivity.
Qed.

Lemma run_accounted blocks0 st : run blocks0 st -> accounted blocks0 st.
Proof.
  induction 1.
  - apply construct_accounted.
  - now apply allocate_accounted.
  - now apply deallocate_accounted.
  - now apply reset_accounted.
Qed.

(** X25. The standard allocator loses no block and frees none twice: as
    long as [::operator new] returns blocks that are not in use, the
    system heap holds the blocks it held at the construction and the
    blocks the map tracks, the two sets apart; the counters of what is
    in use are the number and the bytes of the tracked blocks; and
    [reset] leaves the system heap as it was at the construction. *)
Theorem standard_no_leak blocks0 st :
  run blocks0 st ->
  sys_blocks st = blocks0 ∪ dom (m_allocations st) /\
  (forall p, p ∈ blocks0 -> owns st p = false) /\
  Base.current_allocations (stats st)
  = Word.wrap (Z.of_nat (size (m_allocations st))) /\
  Base.current_bytes_used (stats st)
  = Word.wrap (tracked_bytes (m_allocations st)) /\
  sys_blocks (reset st) = blocks0.
Proof.
  intros R. pose proof (run_accounted _ _ R) as A.
  destruct (reset_accounted _ _ A) as [_ E].
  destruct A as [A1 A2 A3 A4]. repeat split; trivial.
  intros p Hb. unfold owns. now rewrite (A2 _ Hb).
Qed.

Lemma standard_round_trip_witness :
let st1 := snd (allocate standard0 100 3 8192 Scenario.tick) in
let st2 := deallocate st1 8192 Scenario.tick in
fst (allocate standard0 100 3 8192 Scenario.tick) = 8192 /\
owns st1 8192 = true /\
m_allocations st1 !! 8192 = Some (100, recorded_alignment 3) /\
8192 ∈ sys_blocks st1 /\
owns st2 8192 = false /\
m_allocations st2 = m_allocations standard0 /\
sys_blocks st2 = sys_blocks standard0 /\
Base.current_allocations (stats st2) = Base.current_allocations (stats standard0) /\
Base.current_bytes_used (stats st2) = Base.current_bytes_used (stats standard0).
Proof.
apply (standard_round_trip standard0 100 3 8192 Scenario.tick Scenario.tick).
- discriminate.
- discriminate.
- apply lookup_empty.
- apply not_elem_of_empty.
- cbn. unfold Word.in_range, Word.modulus. lia.
- cbn. unfold Word.in_range, Word.modulus. lia.
Defined.

Lemma standard_no_leak_witness :
sys_blocks (snd standard1) = ∅ ∪ dom (m_allocations (snd standard1)) /\
(forall p, p ∈ (∅ : gset Z) -> owns (snd standard1) p = false) /\
Base.current_allocations (stats (snd standard1))
= Word.wrap (Z.of_nat (size (m_allocations (snd standard1)))) /\
Base.current_bytes_used (stats (snd standard1))
= Word.wrap (tracked_bytes (m_allocations (snd standard1))) /\
sys_blocks (reset (snd standard1)) = ∅.
Proof.
apply (standard_no_leak ∅ (snd standard1)).
apply (run_allocate ∅ standard0 100 3 8192 Scenario.tick).
- apply run_construct.
- right. apply not_elem_of_empty.
Defined.

End StandardUseProps.

(** ** More on the reducer of samples *)

Module StatisticsMore.
Import Statistics StatisticsProps.







End StatisticsMore.

Module CountersProps.
Import Base Counters.

Lemma history_bytes_snoc l i :
  history_bytes (l ++ [i]) = history_bytes l + size i.
Proof. induction l as [|j r IH]; cbn [app history_bytes]; lia. Qed.

Lemma same_counts_refl b : same_counts b b.
Proof. repeat split. Qed.

Lemma counted_same b b' : counted b -> same_counts b b' -> counted b'.
Proof.
  intros [C1 C2 C3] (E1 & E2 & E3 & E4 & E5).
  split; rewrite ?E1, ?E2, ?E3, ?E4, ?E5; assumption.
Qed.

Lemma counted_record_allocation b p s a t :
  counted b -> counted (record_allocation b p s a t).
Proof.
  intros [C1 C2 C3]. split; cbn.
  - rewrite C1. unfold Word.wrap.
    rewrite Zplus_mod_idemp_l, Zminus_mod_idemp_l. f_equal. lia.
  - rewrite C2, length_app. cbn [length]. unfold Word.wrap.
    rewrite Zplus_mod_idemp_l. f_equal. lia.
  - rewrite C3, history_bytes_snoc. cbn [size]. unfold Word.wrap.
    now rewrite Zplus_mod_idemp_l.
Qed.

Lemma counted_record_deallocation b s t :
  counted b -> counted (record_deallocation b s t).
Proof.
  intros [C1 C2 C3]. split; cbn; try assumption.
  rewrite C1. unfold Word.wrap.
  rewrite Zminus_mod_idemp_l, Zminus_mod_idemp_r. f_equal. lia.
Qed.

Lemma counted_clear b : counted (clear b).
Proof. split; reflexivity. Qed.

Lemma counted_step b b' : counted b -> base_step b b' -> counted b'.
Proof.
  intros C [H|[(p & s & a & t & H)|[(s & t & H)|H]]].
  - exact (counted_same _ _ C H).
  - exact (counted_same _ _ (counted_record_allocation _ p s a t C) H).
  - exact (counted_same _ _ (counted_record_deallocation _ s t C) H).
  - exact (counted_same _ _ (counted_clear b) H).
Qed.

Lemma update_fragmentation_base fuel st st' :
  FreeList.update_fragmentation fuel st = Some st' ->
  same_counts (FreeList.base st) (FreeList.base st').
Proof.
  unfold FreeList.update_fragmentation.
  destruct (FreeList.available fuel st); [|discriminate].
  destruct (FreeList.largest_free_block fuel st); [|discriminate].
  intros H. inversion H. repeat split.
Qed.

Lemma allocate_base a size alignment e p a' :
  Allocator.allocate a size alignment e = Some (p, a') ->
  base_step (Allocator.base a) (Allocator.base a').
Proof.
  destruct a as [st|st|st|st]; cbn [Allocator.allocate Allocator.base].
  - unfold Standard.allocate.
    destruct (size =? 0); [intros H; inversion H; left; apply same_counts_refl|].
    destruct (Allocator.sys_ptr e =? 0);
      intros H; inversion H; subst; cbn [Allocator.base Standard.base].
    + left. apply same_counts_refl.
    + right. left. do 4 eexists. apply same_counts_refl.
  - unfold Pool.allocate.
    destruct ((Pool.m_memory st =? 0) || (Pool.m_free_list st =? 0)
              || (Pool.m_block_size st <? size));
      intros H; inversion H; subst; cbn [Allocator.base Pool.base].
    + left. apply same_counts_refl.
    + right. left. do 4 eexists. apply same_counts_refl.
  - unfold Stack.allocate.
    destruct ((Stack.m_memory st =? 0) || (size =? 0));
      [intros H; inversion H; left; apply same_counts_refl|].
    match goal with |- context [if ?c then _ else _] => destruct c end;
      intros H; inversion H; subst; cbn [Allocator.base Stack.base].
    + left. apply same_counts_refl.
    + right. left. do 4 eexists. apply same_counts_refl.
  - destruct (FreeList.allocate st size alignment (Allocator.time_ns e)
                (Allocator.fuel e)) as [[q st']|] eqn:E; [|discriminate].
    intros H. inversion H; subst. cbn [Allocator.base].
    unfold FreeList.allocate in E.
    destruct ((FreeList.m_memory st =? 0) || (size =? 0));
      [inversion E; left; apply same_counts_refl|].
    destruct (FreeList.find_fit _ _ _) as [[block pb]|]; [|discriminate].
    destruct (block =? 0); [inversion E; left; apply same_counts_refl|].
    destruct (FreeList.carve _ _ _ _ _) as [[sz head] h'].
    destruct (FreeList.update_fragmentation _ _) as [st1|] eqn:Eu; [|discriminate].
    inversion E; subst. right. left.
    apply update_fragmentation_base in Eu. cbn [FreeList.base] in Eu.
    do 4 eexists. exact Eu.
Qed.

Lemma deallocate_base a ptr e a' :
  Allocator.deallocate a ptr e = Some a' ->
  base_step (Allocator.base a) (Allocator.base a').
Proof.
  destruct a as [st|st|st|st]; cbn [Allocator.deallocate Allocator.base].
  - intros H. inversion H; subst. cbn [Allocator.base]. unfold Standard.deallocate.
    destruct (ptr =? 0); [left; apply same_counts_refl|].
    destruct (Standard.m_allocations st !! ptr) as [[sz al]|];
      [|left; apply same_counts_refl].
    right. right. left. do 2 eexists. apply same_counts_refl.
  - intros H. inversion H; subst. cbn [Allocator.base]. unfold Pool.deallocate.
    destruct ((ptr =? 0) || negb (Pool.owns st ptr)); [left; apply same_counts_refl|].
    right. right. left. do 2 eexists. apply same_counts_refl.
  - intros H. inversion H; subst. cbn [Allocator.base]. unfold Stack.deallocate.
    destruct ((ptr =? 0) || (Stack.m_memory st =? 0)); [left; apply same_counts_refl|].
    destruct (negb _); [left; apply same_counts_refl|].
    right. right. left. do 2 eexists. apply same_counts_refl.
  - destruct (FreeList.deallocate st ptr (Allocator.time_ns e) (Allocator.fuel e))
      as [st'|] eqn:E; [|discriminate].
    intros H. inversion H; subst. cbn [Allocator.base].
    unfold FreeList.deallocate in E.
    destruct ((ptr =? 0) || negb (FreeList.owns st ptr));
      [inversion E; left; apply same_counts_refl|].
    destruct (FreeList.insert_free_block _ _ _ _) as [[head h2]|]; [|discriminate].
    destruct (FreeList.coalesce_loop _ _ _) as [h3|]; [|discriminate].
    apply update_fragmentation_base in E. cbn [FreeList.base] in E.
    right. right. left. do 2 eexists. exact E.
Qed.

Lemma reset_base a : base_step (Allocator.base a) (Allocator.base (Allocator.reset a)).
Proof.
  right. right. right.
  destruct a as [st|st|st|st]; cbn [Allocator.reset Allocator.base].
  - apply same_counts_refl.
  - unfold Pool.reset.
    destruct (Pool.m_memory st =? 0); cbn [Pool.base]; [apply same_counts_refl|].
    unfold Pool.initialize_free_list. destruct (Pool.link_blocks _ _ _ _ _).
    cbn. apply same_counts_refl.
  - apply same_counts_refl.
  - unfold FreeList.reset. destruct (FreeList.m_memory st =? 0);
      apply same_counts_refl.
Qed.

Lemma step_base a a' :
  Allocator.step a a' -> base_step (Allocator.base a) (Allocator.base a').
Proof.
  destruct 1 as [a size alignment e p a' H|a ptr e a' H|a|st marker|st policy].
  - eapply allocate_base; eassumption.
  - eapply deallocate_base; eassumption.
  - apply reset_base.
  - left. cbn [Allocator.base]. unfold Stack.rollback_to_marker.
    destruct (Stack.m_current_offset st <? marker); [apply same_counts_refl|].
    cbn [Stack.base]. destruct (0 <? _); repeat split.
  - left. apply same_counts_refl.
Qed.

Lemma constructed_counted a : Allocator.constructed a -> counted (Allocator.base a).
Proof.
  destruct 1; cbn [Allocator.base].
  - split; reflexivity.
  - unfold Pool.construct. destruct (buffer =? 0); [split; reflexivity|].
    unfold Pool.initialize_free_list. destruct (Pool.link_blocks _ _ _ _ _).
    split; reflexivity.
  - split; reflexivity.
  - unfold FreeList.construct. destruct (buffer =? 0); split; reflexivity.
Qed.

(** X28. The counters of calls are kept by every variant, whatever the
    calls: since the construction or the last [reset],
    [current_allocations] is [total_allocations] less
    [total_deallocations], [total_allocations] is the length of the
    history, and [total_bytes_allocated] is the sum of the sizes in the
    history, all modulo [2^64]. *)
Theorem counts_conserved a0 a :
  Allocator.constructed a0 -> Allocator.steps a0 a ->
  let s := Allocator.stats a in
  current_allocations s
  = Word.wrap (total_allocations s - total_deallocations s) /\
  total_allocations s
  = Word.wrap (Z.of_nat (length (Allocator.allocation_history a))) /\
  total_bytes_allocated s
  = Word.wrap (history_bytes (Allocator.allocation_history a)).
Proof.
  intros C S.
  assert (H : counted (Allocator.base a)).
  { induction S as [a|a b c S IH St].
    - now apply constructed_counted.
    - eapply counted_step; [exact (IH C)|]. now apply step_base. }
  destruct H as [H1 H2 H3]. cbn zeta. unfold Allocator.stats,
    Allocator.allocation_history. auto.
Qed.


Lemma counts_conserved_witness :
let a := Allocator.Pool (snd (Pool.allocate Scenario.pool0 64 16 Scenario.tick)) in
let s := Allocator.stats a in
current_allocations s
= Word.wrap (total_allocations s - total_deallocations s) /\
total_allocations s
= Word.wrap (Z.of_nat (length (Allocator.allocation_history a))) /\
total_bytes_allocated s
= Word.wrap (history_bytes (Allocator.allocation_history a)).
Proof.
apply (counts_conserved (Allocator.Pool Scenario.pool0)).
- apply Allocator.constructed_pool.
- apply (Allocator.steps_more _ (Allocator.Pool Scenario.pool0));
    [apply Allocator.steps_none|].
  apply (Allocator.step_allocate _ 64 16 Scenario.env
           (fst (Pool.allocate Scenario.pool0 64 16 Scenario.tick))).
  cbn [Allocator.allocate Allocator.time_ns Scenario.env].
  now destruct (Pool.allocate Scenario.pool0 64 16 Scenario.tick).
Defined.

End CountersProps.

Module EngineProps.
Import Engine.

(** X29. [reset_current_allocator] resets the allocator that is selected and
    no other: afterwards the statistics the engine reports are all
    zero, the allocator under every other key is what it was, the
    selection stands, and a second reset changes nothing. *)
Theorem engine_reset_selected e type :
  let e' := reset_current_allocator (set_allocator e type) in
  get_allocator e' = Allocator.reset (allocator_of e type) /\
  get_stats e' = Base.stats_zero /\
  m_current_allocator e' = type /\
  (forall other, other <> type -> allocator_of e' other = allocator_of e other) /\
  reset_current_allocator e' = e'.
Proof.
  cbn zeta.
  destruct type; unfold reset_current_allocator, set_allocator, get_stats,
    get_allocator, Allocator.stats; cbn [m_current_allocator allocator_of
    m_standard m_pool m_stack m_freelist Allocator.base Allocator.reset].
  - split; [reflexivity|]. split; [reflexivity|]. split; [reflexivity|]. split.
    + intros [] H; try contradiction; reflexivity.
    + now rewrite AllocatorProps.standard_reset_idem.
  - split; [reflexivity|]. split.
    { unfold Pool.reset. destruct (Pool.m_memory (m_pool e) =? 0); reflexivity. }
    split; [reflexivity|]. split.
    + intros [] H; try contradiction; reflexivity.
    + now rewrite AllocatorProps.pool_reset_idem.
  - split; [reflexivity|]. split; [reflexivity|]. split; [reflexivity|]. split.
    + intros [] H; try contradiction; reflexivity.
    + now rewrite AllocatorProps.stack_reset_idem.
  - split; [reflexivity|]. split.
    { unfold FreeList.reset. destruct (FreeList.m_memory (m_freelist e) =? 0);
        reflexivity. }
    split; [reflexivity|]. split.
    + intros [] H; try contradiction; reflexivity.
    + now rewrite AllocatorProps.freelist_reset_idem.
Qed.

Lemma no_true_replicate (g : list bool) :
  (forall i, (i < length g)%nat -> g !! i <> Some true) ->
  g = replicate (length g) false.
Proof.
  induction g as [|b r IH]; intros H; [reflexivity|].
  cbn [length replicate]. f_equal.
  - specialize (H 0%nat ltac:(cbn; lia)). cbn in H. destruct b; congruence.
  - apply IH. intros i Hi. apply (H (S i)). cbn. lia.
Qed.

(** X30. The grid of a fresh engine: with the pool selected, and the region
    of the pool obtained, [get_memory_grid] has one entry for each of
    the ten thousand blocks and every entry says "free"; with another
    allocator selected the grid is empty. *)
Theorem engine_grid_fresh blocks pool_buffer stack_buffer freelist_buffer heap0 fuel :
  Pool.constructible 4096 10000 Standard.max_align pool_buffer ->
  (Z.to_nat 10000 < fuel)%nat ->
  let e := construct blocks pool_buffer stack_buffer freelist_buffer heap0 in
  get_memory_grid fuel (set_allocator e POOL) = Some (replicate (Z.to_nat 10000) false) /\
  get_memory_grid fuel e = Some [] /\
  forall type, type <> POOL ->
    get_memory_grid fuel (set_allocator e type) = Some [].
Proof.
  intros C Hf. cbn zeta. split; [|split].
  - unfold get_memory_grid, set_allocator, construct. cbn [m_current_allocator m_pool].
    pose proof (PoolUseProps.construct_tracks _ _ _ _ heap0 C) as T. cbn zeta in T.
    set (st := Pool.construct 4096 10000 Standard.max_align pool_buffer heap0) in *.
    assert (Ec : Pool.m_block_count st = 10000).
    { unfold st, Pool.construct. destruct (pool_buffer =? 0); [reflexivity|].
      unfold Pool.initialize_free_list. destruct (Pool.link_blocks _ _ _ _ _).
      reflexivity. }
    destruct (PoolUseProps.grid_of_tracks st _ [] fuel T) as (g & Eg & Hl & Hm & _).
    { rewrite Ec. exact Hf. }
    rewrite Eg. f_equal. rewrite Ec in Hl, Hm.
    rewrite <- Hl.
    apply no_true_replicate. intros i Hi Ht.
    specialize (Hm (Z.of_nat i) ltac:(lia)).
    rewrite Nat2Z.id in Hm. apply Hm in Ht. contradiction.
  - reflexivity.
  - intros [] H; try contradiction; reflexivity.
Qed.

Lemma engine_grid_fresh_witness :
let e := construct ∅ 4096 65536000 131072000 Scenario.zeroed in
get_memory_grid (Z.to_nat 10001) (set_allocator e POOL) = Some (replicate (Z.to_nat 10000) false) /\
get_memory_grid (Z.to_nat 10001) e = Some [] /\
forall type, type <> POOL ->
  get_memory_grid (Z.to_nat 10001) (set_allocator e type) = Some [].
Proof.
apply (engine_grid_fresh ∅ 4096 65536000 131072000 Scenario.zeroed (Z.to_nat 10001)).
- split; vm_compute; first [reflexivity | discriminate].
- apply Nat.ltb_lt. vm_compute. reflexivity.
Defined.

End EngineProps.
